(** * CurveAnimator: Catmull-Rom spline traversal with an arc-length table

    A shallow embedding of [src/curve-animator.js].

    Numbers.  The animator computes with JavaScript numbers.  The main
    development reads them as exact rationals ([Q]): every universal
    statement below is a statement about the code run in exact arithmetic.
    Two operations leave the rationals, a division and a remainder whose
    right operand is zero (JavaScript goes on with [NaN] or an infinity);
    the embedding stops there with [NonFinite].  Results that hold numbers
    are compared with [==] on [Q].  Module [Binary64] embeds the spline
    evaluator a second time, over IEEE-754 doubles, to run it on concrete
    inputs with the rounding JavaScript applies.

    Exceptions.  Reading a coordinate of [undefined] (an array read out of
    range) throws a [TypeError]; fallible functions return an [outcome]. *)

From Stdlib Require Import ZArith QArith Qround List String Bool Lia Lqa.
From Stdlib Require Import Floats.PrimFloat Floats.SpecFloat Floats.FloatOps.
From Stdlib Require Import Uint63.
Import ListNotations.

Open Scope Q_scope.

(* ------------------------------------------------------------------ *)
(** ** Outcomes *)

(** How a call ends: with a value; with a [TypeError] thrown; on a number
    that is not finite; or, for the bounded model of a [while] loop, out
    of fuel. *)
Inductive outcome (A : Type) : Type :=
| Ok (a : A)
| TypeError
| NonFinite
| OutOfFuel.

Arguments Ok {A} a.
Arguments TypeError {A}.
Arguments NonFinite {A}.
Arguments OutOfFuel {A}.

Definition bind {A B : Type} (m : outcome A) (k : A -> outcome B) : outcome B :=
  match m with
  | Ok a => k a
  | TypeError => TypeError
  | NonFinite => NonFinite
  | OutOfFuel => OutOfFuel
  end.

Notation "x <- m ;; k" := (bind m (fun x => k))
  (at level 61, m at next level, right associativity).

(** [obj.field] where [obj] may be [undefined]. *)
Definition read {A : Type} (o : option A) : outcome A :=
  match o with
  | Some a => Ok a
  | None => TypeError
  end.

(** [arr[k]] for a number [k] that holds an integer: [undefined] outside
    [0 .. length-1]. *)
Definition js_index {A : Type} (arr : list A) (k : Z) : option A :=
  if (k <? 0)%Z then None else nth_error arr (Z.to_nat k).

(* ------------------------------------------------------------------ *)
(** ** Numbers *)

Definition Qlt_bool (a b : Q) : bool := negb (Qle_bool b a).

Definition Math_max (a b : Q) : Q := if Qle_bool a b then b else a.
Definition Math_min (a b : Q) : Q := if Qle_bool a b then a else b.

(** Rounding toward zero, as in the quotient behind JavaScript's [%]. *)
Definition Qtrunc (a : Q) : Z :=
  if Qle_bool 0 a then Qfloor a else Qceiling a.

(** [a / b]; with [b = 0] JavaScript yields an infinity or [NaN]. *)
Definition js_div (a b : Q) : outcome Q :=
  if Qeq_bool b 0 then NonFinite else Ok (a / b).

(** [a % b]: the remainder has the sign of the dividend; with [b = 0]
    JavaScript yields [NaN]. *)
Definition js_rem (a b : Q) : outcome Q :=
  if Qeq_bool b 0 then NonFinite
  else Ok (a - b * inject_Z (Qtrunc (a / b))).

(** [(a + b) >> 1] on non-negative integers. *)
Definition shr1 (k : Z) : Z := Z.shiftr k 1.

(* ------------------------------------------------------------------ *)
(** ** Points *)

Record Vector3 : Type := mkVector3 { x : Q; y : Q; z : Q }.

Definition Veq (p q : Vector3) : Prop :=
  x p == x q /\ y p == y q /\ z p == z q.

(** [CurveAnimator.catmullRom] *)
Definition catmullRom (p0 p1 p2 p3 : Vector3) (t : Q) : Vector3 :=
  let t2 := t * t in
  let t3 := t2 * t in
  mkVector3
    ((1#2) * (2 * x p1 + (- x p0 + x p2) * t
              + (2 * x p0 - 5 * x p1 + 4 * x p2 - x p3) * t2
              + (- x p0 + 3 * x p1 - 3 * x p2 + x p3) * t3))
    ((1#2) * (2 * y p1 + (- y p0 + y p2) * t
              + (2 * y p0 - 5 * y p1 + 4 * y p2 - y p3) * t2
              + (- y p0 + 3 * y p1 - 3 * y p2 + y p3) * t3))
    ((1#2) * (2 * z p1 + (- z p0 + z p2) * t
              + (2 * z p0 - 5 * z p1 + 4 * z p2 - z p3) * t2
              + (- z p0 + 3 * z p1 - 3 * z p2 + z p3) * t3)).

(** [getPoint(t)].  The four array reads may yield [undefined]; [catmullRom]
    then reads [.x] of each of them, which is where the [TypeError] is
    thrown. *)
Definition getPoint (pts : list Vector3) (t : Q) : outcome Vector3 :=
  let t := Math_max 0 (Math_min 1 t) in
  let n := (Z.of_nat (List.length pts) - 1)%Z in
  let segment := Z.min (Qfloor (t * inject_Z n)) (n - 1) in
  let localT := t * inject_Z n - inject_Z segment in
  p0 <- read (js_index pts (Z.max 0 (segment - 1))) ;;
  p1 <- read (js_index pts segment) ;;
  p2 <- read (js_index pts (Z.min n (segment + 1))) ;;
  p3 <- read (js_index pts (Z.min n (segment + 2))) ;;
  Ok (catmullRom p0 p1 p2 p3 localT).

(* ------------------------------------------------------------------ *)
(** ** The animator *)

(** The options object of the constructor, with its defaults. *)
Module Options.
Record t : Type := mk {
  speed : Q;
  mode : string;
  duration : Q;
  loop : bool;
  orientToDirection : bool;
  lookAheadDistance : Q;
  arcLengthSegments : Z
}.

Definition defaults : t :=
  {| speed := 1;
     mode := "train";
     duration := 3;
     loop := false;
     orientToDirection := true;
     lookAheadDistance := 1 # 100;
     arcLengthSegments := 200 |}.
End Options.

(** An entry [{ parameter, distance }] of the arc-length table. *)
Record ArcLengthSample : Type := mkSample { parameter : Q; distance : Q }.

(** Modelled from the spec: [THREE.Object3D], of the three.js library,
    which is not under src/.  Of the attached entity only what [update]
    writes is kept: its position, and the point [lookAt] last turned it
    to. *)
Record Object3D : Type := mkObject3D {
  position : Vector3;
  facing : option Vector3
}.

Definition copy_position (o : Object3D) (p : Vector3) : Object3D :=
  {| position := p; facing := facing o |}.

Definition lookAt (o : Object3D) (p : Vector3) : Object3D :=
  {| position := position o; facing := Some p |}.

(** The fields of [this]. *)
Record CurveAnimator : Type := mkCurveAnimator {
  points : list Vector3;
  speed : Q;
  mode : string;
  duration : Q;
  loop : bool;
  orientToDirection : bool;
  lookAheadDistance : Q;
  arcLengthTable : list ArcLengthSample;
  totalLength : Q;
  progress : Q;
  distanceTraveled : Q;
  isPlaying : bool;
  isComplete : bool;
  _target : option Object3D
}.

(** Assignments [this.f = v]. *)
Definition set_progress (v : Q) (a : CurveAnimator) : CurveAnimator :=
  mkCurveAnimator (points a) (speed a) (mode a) (duration a) (loop a)
    (orientToDirection a) (lookAheadDistance a) (arcLengthTable a)
    (totalLength a) v (distanceTraveled a) (isPlaying a) (isComplete a)
    (_target a).

Definition set_distanceTraveled (v : Q) (a : CurveAnimator) : CurveAnimator :=
  mkCurveAnimator (points a) (speed a) (mode a) (duration a) (loop a)
    (orientToDirection a) (lookAheadDistance a) (arcLengthTable a)
    (totalLength a) (progress a) v (isPlaying a) (isComplete a)
    (_target a).

Definition set_isPlaying (v : bool) (a : CurveAnimator) : CurveAnimator :=
  mkCurveAnimator (points a) (speed a) (mode a) (duration a) (loop a)
    (orientToDirection a) (lookAheadDistance a) (arcLengthTable a)
    (totalLength a) (progress a) (distanceTraveled a) v (isComplete a)
    (_target a).

Definition set_isComplete (v : bool) (a : CurveAnimator) : CurveAnimator :=
  mkCurveAnimator (points a) (speed a) (mode a) (duration a) (loop a)
    (orientToDirection a) (lookAheadDistance a) (arcLengthTable a)
    (totalLength a) (progress a) (distanceTraveled a) (isPlaying a) v
    (_target a).

Definition set_target (v : option Object3D) (a : CurveAnimator) : CurveAnimator :=
  mkCurveAnimator (points a) (speed a) (mode a) (duration a) (loop a)
    (orientToDirection a) (lookAheadDistance a) (arcLengthTable a)
    (totalLength a) (progress a) (distanceTraveled a) (isPlaying a)
    (isComplete a) v.

(** [animator.speed = v], the assignment the demo's speed slider makes
    from outside. *)
Definition set_speed (v : Q) (a : CurveAnimator) : CurveAnimator :=
  mkCurveAnimator (points a) v (mode a) (duration a) (loop a)
    (orientToDirection a) (lookAheadDistance a) (arcLengthTable a)
    (totalLength a) (progress a) (distanceTraveled a) (isPlaying a)
    (isComplete a) (_target a).

(** The [while] loop of [getParameterForDistance].  Each turn halves the
    gap between [low] and [high]; [fuel] bounds the number of turns. *)
Fixpoint search (table : list ArcLengthSample) (targetDist : Q)
    (fuel : nat) (low high : Z) : outcome (Z * Z) :=
  if (low <? high - 1)%Z then
    match fuel with
    | O => OutOfFuel
    | S fuel' =>
        let mid := shr1 (low + high) in
        s <- read (js_index table mid) ;;
        if Qlt_bool (distance s) targetDist
        then search table targetDist fuel' mid high
        else search table targetDist fuel' low mid
    end
  else Ok (low, high).

(** [getParameterForDistance(targetDist)] *)
Definition getParameterForDistance (a : CurveAnimator) (targetDist : Q)
    : outcome Q :=
  let table := arcLengthTable a in
  if Qle_bool targetDist 0 then Ok 0
  else if Qle_bool (totalLength a) targetDist then Ok 1
  else
    lh <- search table targetDist (List.length table)
            0%Z (Z.of_nat (List.length table) - 1)%Z ;;
    s0 <- read (js_index table (fst lh)) ;;
    s1 <- read (js_index table (snd lh)) ;;
    let d0 := distance s0 in
    let d1 := distance s1 in
    frac <- js_div (targetDist - d0) (d1 - d0) ;;
    Ok (parameter s0 + frac * (parameter s1 - parameter s0)).

(** [attachTo(object3D)] *)
Definition attachTo (a : CurveAnimator) (object3D : Object3D) : CurveAnimator :=
  set_target (Some object3D) a.

(** [play()] *)
Definition play (a : CurveAnimator) : CurveAnimator :=
  set_distanceTraveled 0
    (set_progress 0 (set_isComplete false (set_isPlaying true a))).

(** [pause()] *)
Definition pause (a : CurveAnimator) : CurveAnimator := set_isPlaying false a.

(** [resume()] *)
Definition resume (a : CurveAnimator) : CurveAnimator := set_isPlaying true a.

(** [reset()] *)
Definition reset (a : CurveAnimator) : CurveAnimator :=
  set_isComplete false
    (set_isPlaying false (set_distanceTraveled 0 (set_progress 0 a))).

(** The distance branch of [update]: [this.mode === 'train']. *)
Definition advance_distance (a : CurveAnimator) (dt : Q)
    : outcome CurveAnimator :=
  let a := set_distanceTraveled (distanceTraveled a + speed a * dt) a in
  a <- (if Qle_bool (totalLength a) (distanceTraveled a) then
          if loop a then
            r <- js_rem (distanceTraveled a) (totalLength a) ;;
            Ok (set_distanceTraveled r a)
          else
            Ok (set_isComplete true (set_distanceTraveled (totalLength a) a))
        else Ok a) ;;
  p <- getParameterForDistance a (distanceTraveled a) ;;
  Ok (set_progress p a).

(** The time branch of [update].  With a [duration] of zero the quotient
    is an infinity or [NaN] and the embedding stops with [NonFinite];
    JavaScript goes on from there: a positive [dt] without loop completes
    the traversal at progress 1, the other cases leave a progress that is
    not finite, or throw in [getPoint]. *)
Definition advance_time (a : CurveAnimator) (dt : Q) : outcome CurveAnimator :=
  q <- js_div dt (duration a) ;;
  let a := set_progress (progress a + q) a in
  if Qle_bool 1 (progress a) then
    if loop a then
      r <- js_rem (progress a) 1 ;;
      Ok (set_progress r a)
    else
      Ok (set_isComplete true (set_progress 1 a))
  else Ok a.

(** The tail of [update]: the position, and the attached object if any. *)
Definition place (a : CurveAnimator) : outcome (CurveAnimator * option Vector3) :=
  position <- getPoint (points a) (progress a) ;;
  a <- match _target a with
       | None => Ok a
       | Some o =>
           let o := copy_position o position in
           if orientToDirection a then
             ahead <- getPoint (points a)
                        (Math_min 1 (progress a + lookAheadDistance a)) ;;
             Ok (set_target (Some (lookAt o ahead)) a)
           else Ok (set_target (Some o) a)
       end ;;
  Ok (a, Some position).

(** [update(dt)]: the new fields of [this] and the value returned, [None]
    for [undefined]. *)
Definition update (a : CurveAnimator) (dt : Q)
    : outcome (CurveAnimator * option Vector3) :=
  if negb (isPlaying a) || isComplete a then Ok (a, None)
  else
    a <- (if String.eqb (mode a) "train"
          then advance_distance a dt
          else advance_time a dt) ;;
    place a.

(** A run of [update] calls, one per frame; it stops at the first call
    that throws. *)
Fixpoint updates (a : CurveAnimator) (dts : list Q) : outcome CurveAnimator :=
  match dts with
  | [] => Ok a
  | dt :: dts' => r <- update a dt ;; updates (fst r) dts'
  end.

(** The state of the traversal as the two flags tell it.  They do not tell
    an idle animator (fresh, or reset) from a paused one: both are
    [Halted]. *)
Inductive PlaybackState : Type := Halted | Playing | Complete.

Definition state_of (a : CurveAnimator) : PlaybackState :=
  if isComplete a then Complete
  else if isPlaying a then Playing
  else Halted.

Section Construction.

(** [Math.sqrt], which [THREE.Vector3.distanceTo] calls.  The rationals
    have no exact square root, so the root is a parameter of the
    construction; the proofs use of it only that it is never negative. *)
Variable sqrt : Q -> Q.

(** Modelled from the spec: [THREE.Vector3.distanceTo], of the three.js
    library, which is not under src/: the Euclidean distance between two
    points, the square root of the sum of the squared differences. *)
Definition distanceTo (p q : Vector3) : Q :=
  let dx := x p - x q in
  let dy := y p - y q in
  let dz := z p - z q in
  sqrt (dx * dx + dy * dy + dz * dz).

(** The [for] loop of [_buildArcLengthTable]; [turns] is the number of
    turns left, [i] the loop counter. *)
Fixpoint build_loop (pts : list Vector3) (segments : Z) (turns : nat)
    (i : Z) (totalDist : Q) (prevPoint : Vector3)
    (table : list ArcLengthSample) : outcome (list ArcLengthSample) :=
  match turns with
  | O => Ok table
  | S turns' =>
      let t := inject_Z i / inject_Z segments in
      point <- getPoint pts t ;;
      let totalDist := totalDist + distanceTo prevPoint point in
      build_loop pts segments turns' (i + 1)%Z totalDist point
        (table ++ [mkSample t totalDist])
  end.

(** [_buildArcLengthTable(segments)] *)
Definition _buildArcLengthTable (pts : list Vector3) (segments : Z)
    : outcome (list ArcLengthSample) :=
  prevPoint <- getPoint pts 0 ;;
  build_loop pts segments (Z.to_nat segments) 1%Z 0 prevPoint [mkSample 0 0].

(** [new CurveAnimator(points, options)].  The points are taken after the
    [map] that turns arrays and plain objects into vectors. *)
Definition constructor (pts : list Vector3) (o : Options.t)
    : outcome CurveAnimator :=
  table <- _buildArcLengthTable pts (Options.arcLengthSegments o) ;;
  last <- read (js_index table (Z.of_nat (List.length table) - 1)) ;;
  Ok {| points := pts;
        speed := Options.speed o;
        mode := Options.mode o;
        duration := Options.duration o;
        loop := Options.loop o;
        orientToDirection := Options.orientToDirection o;
        lookAheadDistance := Options.lookAheadDistance o;
        arcLengthTable := table;
        totalLength := distance last;
        progress := 0;
        distanceTraveled := 0;
        isPlaying := false;
        isComplete := false;
        _target := None |}.

End Construction.

(** How a construction that checks its configuration ends: with the
    report of an invalid configuration, or with whatever the construction
    proper comes to. *)
Inductive Construction : Type :=
| InvalidConfiguration
| Ran (r : outcome CurveAnimator).

(** The construction as the specification words it ("fewer than 2 control
    points is a construction-time contract violation and should fail fast
    (reported as an invalid-configuration error)"): the number of points is
    tested ahead of everything else.  The source has no such test and no
    [throw] statement; [checked_constructor] is here to be compared with
    [constructor]. *)
Definition checked_constructor (sqrt : Q -> Q) (pts : list Vector3)
    (o : Options.t) : Construction :=
  if (List.length pts <? 2)%nat then InvalidConfiguration
  else Ran (constructor sqrt pts o).

(** An executable square root on the rationals, to run the construction on
    concrete points: exact on squares of rationals, rounded down to a
    multiple of the denominator's inverse elsewhere. *)
Definition Qsqrt (q : Q) : Q :=
  Z.sqrt (Qnum q * Zpos (Qden q)) # Qden q.

(* ------------------------------------------------------------------ *)
(** ** The spline evaluator on IEEE-754 doubles *)

Module Binary64.

Record Vector3 : Type := mkVector3 { x : float; y : float; z : float }.

(** An integer as a double; exact up to 2^53. *)
Definition of_Z (k : Z) : float :=
  if (k <? 0)%Z
  then PrimFloat.opp (PrimFloat.of_uint63 (Uint63.of_Z (- k)))
  else PrimFloat.of_uint63 (Uint63.of_Z k).

(** The integer a double holds, if it holds one. *)
Definition to_Z (a : float) : option Z :=
  match Prim2SF a with
  | S754_zero _ => Some 0%Z
  | S754_finite s m e =>
      let k := if (0 <=? e)%Z
               then Some (Zpos m * 2 ^ e)%Z
               else if (Zpos m mod 2 ^ (- e) =? 0)%Z
                    then Some (Zpos m / 2 ^ (- e))%Z
                    else None in
      option_map (fun k => if s then (- k)%Z else k) k
  | _ => None
  end.

(** [Math.floor] *)
Definition Math_floor (a : float) : float :=
  match Prim2SF a with
  | S754_finite s m e =>
      if (0 <=? e)%Z then a
      else if (Zpos m mod 2 ^ (- e) =? 0)%Z then a
      else let k := (Zpos m / 2 ^ (- e))%Z in
           if s then of_Z (- (k + 1)) else of_Z k
  | _ => a
  end.

Definition is_neg_zero (a : float) : bool :=
  match Prim2SF a with
  | S754_zero true => true
  | _ => false
  end.

(** [Math.max] and [Math.min]: [NaN] if an argument is, and [-0] below
    [+0]. *)
Definition Math_max (a b : float) : float :=
  if PrimFloat.is_nan a || PrimFloat.is_nan b then PrimFloat.nan
  else if PrimFloat.ltb a b then b
  else if PrimFloat.ltb b a then a
  else if is_neg_zero a then b else a.

Definition Math_min (a b : float) : float :=
  if PrimFloat.is_nan a || PrimFloat.is_nan b then PrimFloat.nan
  else if PrimFloat.ltb a b then a
  else if PrimFloat.ltb b a then b
  else if is_neg_zero a then a else b.

(** [arr[k]] for a double [k]. *)
Definition js_index {A : Type} (arr : list A) (k : float) : option A :=
  match to_Z k with
  | Some i => if (i <? 0)%Z then None else nth_error arr (Z.to_nat i)
  | None => None
  end.

(** [CurveAnimator.catmullRom] *)
Definition catmullRom (p0 p1 p2 p3 : Vector3) (t : float) : Vector3 :=
  let t2 := (t * t)%float in
  let t3 := (t2 * t)%float in
  mkVector3
    (0.5 * (2 * x p1 + (- x p0 + x p2) * t
            + (2 * x p0 - 5 * x p1 + 4 * x p2 - x p3) * t2
            + (- x p0 + 3 * x p1 - 3 * x p2 + x p3) * t3))%float
    (0.5 * (2 * y p1 + (- y p0 + y p2) * t
            + (2 * y p0 - 5 * y p1 + 4 * y p2 - y p3) * t2
            + (- y p0 + 3 * y p1 - 3 * y p2 + y p3) * t3))%float
    (0.5 * (2 * z p1 + (- z p0 + z p2) * t
            + (2 * z p0 - 5 * z p1 + 4 * z p2 - z p3) * t2
            + (- z p0 + 3 * z p1 - 3 * z p2 + z p3) * t3))%float.

(** [getPoint(t)] *)
Definition getPoint (pts : list Vector3) (t : float) : outcome Vector3 :=
  let t := Math_max 0 (Math_min 1 t) in
  let n := of_Z (Z.of_nat (List.length pts) - 1) in
  let segment := Math_min (Math_floor (t * n)) (n - 1) in
  let localT := (t * n - segment)%float in
  p0 <- read (js_index pts (Math_max 0 (segment - 1))) ;;
  p1 <- read (js_index pts segment) ;;
  p2 <- read (js_index pts (Math_min n (segment + 1))) ;;
  p3 <- read (js_index pts (Math_min n (segment + 2))) ;;
  Ok (catmullRom p0 p1 p2 p3 localT).

(** The decimal literal [k/10]: the double nearest to it. *)
Definition tenths (k : Z) : float := (of_Z k / 10)%float.

(** [[ [0.1, 0, 0], [0.7, 0, 0] ]] *)
Definition two_points : list Vector3 :=
  [ mkVector3 (tenths 1) 0 0; mkVector3 (tenths 7) 0 0 ].

(** Four points at the height [0.1]:
    [[ [0, 0.1, 0], [1, 0.1, 0], [2, 0.1, 0], [3, 0.1, 0] ]] *)
Definition level_points : list Vector3 :=
  [ mkVector3 0 (tenths 1) 0; mkVector3 1 (tenths 1) 0;
    mkVector3 2 (tenths 1) 0; mkVector3 3 (tenths 1) 0 ].

End Binary64.

(* ------------------------------------------------------------------ *)
(** ** Invariants *)

(** The parameters of a table built with [segments] samples per unit lie on
    the grid [k / segments]. *)
Definition on_grid (segments : Z) (table : list ArcLengthSample) : Prop :=
  forall k s, nth_error table k = Some s ->
    parameter s == inject_Z (Z.of_nat k) / inject_Z segments.

(** The cumulative distances of a table do not decrease along it. *)
Definition distances_sorted (table : list ArcLengthSample) : Prop :=
  forall j k sj sk, (j <= k)%nat ->
    nth_error table j = Some sj -> nth_error table k = Some sk ->
    distance sj <= distance sk.

Definition parameters_sorted (table : list ArcLengthSample) : Prop :=
  forall j k sj sk, (j <= k)%nat ->
    nth_error table j = Some sj -> nth_error table k = Some sk ->
    parameter sj <= parameter sk.

(** The last entry of a table holds the distance [total]. *)
Definition ends_at (table : list ArcLengthSample) (total : Q) : Prop :=
  exists s, nth_error table (List.length table - 1) = Some s /\
            distance s = total.

(** The value [getParameterForDistance] interpolates between two entries
    that bracket [d]. *)
Definition interpolate (s0 s1 : ArcLengthSample) (d : Q) : Q :=
  parameter s0 +
  (d - distance s0) / (distance s1 - distance s0) *
  (parameter s1 - parameter s0).

(** What the search and the traversal rely on: the table starts at
    [(0, 0)], is sorted in both columns, stays below parameter 1 and ends
    at the total length; and there are two control points at least. *)
Definition table_inv (table : list ArcLengthSample) (total : Q) : Prop :=
  nth_error table 0 = Some (mkSample 0 0) /\
  distances_sorted table /\
  parameters_sorted table /\
  (forall k s, nth_error table k = Some s -> parameter s <= 1) /\
  ends_at table total.

Definition well_formed (a : CurveAnimator) : Prop :=
  (2 <= List.length (points a))%nat /\
  table_inv (arcLengthTable a) (totalLength a).

(** Two animators over the same curve and options: they may differ in the
    playback fields and the attached object only. *)
Definition same_curve (a b : CurveAnimator) : Prop :=
  points a = points b /\ speed a = speed b /\ mode a = mode b /\
  duration a = duration b /\ loop a = loop b /\
  orientToDirection a = orientToDirection b /\
  lookAheadDistance a = lookAheadDistance b /\
  arcLengthTable a = arcLengthTable b /\ totalLength a = totalLength b.

(** The bounds a looping traversal keeps. *)
Definition within_bounds (a : CurveAnimator) : Prop :=
  distanceTraveled a <= totalLength a /\ progress a <= 1 /\
  isComplete a = false.

(** The animators a program can hold: built by the constructor, then
    driven through the methods and the demo's write of [speed].  Only calls
    that return are followed: what a call of [update] that throws leaves
    behind, or one that divides by a zero [duration], has [NaN] or an
    infinity in its counters and is no value of this embedding. *)
Inductive reachable (sqrt : Q -> Q) : CurveAnimator -> Prop :=
| reach_new pts o a :
    constructor sqrt pts o = Ok a -> reachable sqrt a
| reach_attachTo a object3D :
    reachable sqrt a -> reachable sqrt (attachTo a object3D)
| reach_play a : reachable sqrt a -> reachable sqrt (play a)
| reach_pause a : reachable sqrt a -> reachable sqrt (pause a)
| reach_resume a : reachable sqrt a -> reachable sqrt (resume a)
| reach_reset a : reachable sqrt a -> reachable sqrt (reset a)
| reach_update a dt a' position :
    reachable sqrt a -> update a dt = Ok (a', position) ->
    reachable sqrt a'
| reach_set_speed a v : reachable sqrt a -> reachable sqrt (set_speed v a).

(* ------------------------------------------------------------------ *)
(** ** Sample animators *)

Definition blank : CurveAnimator :=
  mkCurveAnimator [] 0 "" 0 false false 0 [] 0 0 0 false false None.

(** The animator a constructor call returned. *)
Definition built (r : outcome CurveAnimator) : CurveAnimator :=
  match r with
  | Ok a => a
  | _ => blank
  end.

(** Four points on a line, one unit apart. *)
Definition line_points : list Vector3 :=
  [ mkVector3 0 0 0; mkVector3 1 0 0; mkVector3 2 0 0; mkVector3 3 0 0 ].

(** Twice the same point: a curve of length zero. *)
Definition same_point : list Vector3 :=
  [ mkVector3 0 0 0; mkVector3 0 0 0 ].

(** The default options, with a table of four segments. *)
Definition coarse : Options.t :=
  Options.mk 1 "train" 3 false true (1 # 100) 4.

Definition coarse_looping : Options.t :=
  Options.mk 1 "train" 3 true true (1 # 100) 4.

Definition coarse_timed : Options.t :=
  Options.mk 1 "time" 2 false true (1 # 100) 4.

Definition fast_looping : Options.t :=
  Options.mk 3 "train" 3 true true (1 # 100) 4.

Definition line : CurveAnimator :=
  Eval vm_compute in built (constructor Qsqrt line_points coarse).

Definition line_timed : CurveAnimator :=
  Eval vm_compute in built (constructor Qsqrt line_points coarse_timed).

Definition line_fast_looping : CurveAnimator :=
  Eval vm_compute in built (constructor Qsqrt line_points fast_looping).

Definition dot : CurveAnimator :=
  Eval vm_compute in built (constructor Qsqrt same_point coarse).

Definition dot_looping : CurveAnimator :=
  Eval vm_compute in built (constructor Qsqrt same_point coarse_looping).

(* ------------------------------------------------------------------ *)
(** ** Debug markers and the demo's pause button *)

(** Modelled from the spec: what [createDebugVisualization] builds of
    three.js, which is not under src/.  A mesh is a sphere geometry (its
    radius), a basic material (its colour) and a position; a group is the
    list of its meshes in the order they were added, a scene the list of
    its groups. *)
Record Mesh : Type := mkMesh {
  geometry_radius : Q;
  material_color : Z;
  mesh_position : Vector3
}.

Definition Group : Type := list Mesh.
Definition Scene : Type := list Group.

(** The [for] loop of [createDebugVisualization]: [turns] turns are left,
    [i] is the loop counter. *)
Fixpoint debug_loop (pts : list Vector3) (color : Z) (count : Z) (size : Q)
    (turns : nat) (i : Z) (group : Group) : outcome Group :=
  match turns with
  | O => Ok group
  | S turns' =>
      t <- js_div (inject_Z i) (inject_Z count) ;;
      point <- getPoint pts t ;;
      debug_loop pts color count size turns' (i + 1)%Z
        (group ++ [mkMesh size color point])
  end.

(** [createDebugVisualization(scene, { color, count, size })]: the scene
    with the group added, and the group returned. *)
Definition createDebugVisualization (a : CurveAnimator) (scene : Scene)
    (color : Z) (count : Z) (size : Q) : outcome (Scene * Group) :=
  group <- debug_loop (points a) color count size
             (Z.to_nat (count + 1)) 0%Z [] ;;
  Ok (scene ++ [group], group).

(** Every mesh of a group is a marker of the curve: it has the given size
    and colour and sits at [getPoint(j / count)], [j] its index. *)
Definition markers (pts : list Vector3) (color count : Z) (size : Q)
    (group : Group) : Prop :=
  forall j m, nth_error group j = Some m ->
    geometry_radius m = size /\ material_color m = color /\
    getPoint pts (inject_Z (Z.of_nat j) / inject_Z count)
      = Ok (mesh_position m).

(** The [onclick] handler of the demo's pause button: the animator, and
    the text the button is given. *)
Definition pause_button (a : CurveAnimator) : CurveAnimator * string :=
  if isPlaying a
  then (pause a, "▶ Resume"%string)
  else (resume a, "⏸ Pause"%string).

(** The line animator after [play()] and one long tick: complete. *)
Definition line_done : CurveAnimator :=
  Eval vm_compute in
    match update (play line) 5 with
    | Ok (a, _) => a
    | _ => blank
    end.

(** The line animator with an object attached at the origin. *)
Definition line_attached : CurveAnimator :=
  attachTo (play line) (mkObject3D (mkVector3 0 0 0) None).

(* ------------------------------------------------------------------ *)
(** ** Plain objects used as tables *)

From Stdlib Require DecimalString DecimalZ DecimalPos.

(** The own properties of an object literal, in the order written. *)
Fixpoint own {A : Type} (table : list (string * A)) (key : string)
    : option A :=
  match table with
  | [] => None
  | (k, v) :: rest => if String.eqb k key then Some v else own rest key
  end.

(** The names every plain object inherits from [Object.prototype].  Each
    of them reads as a function or an object: a value that is truthy and
    has neither [push] nor [forEach]. *)
Definition Object_prototype_names : list string :=
  [ "constructor"; "__defineGetter__"; "__defineSetter__";
    "hasOwnProperty"; "__lookupGetter__"; "__lookupSetter__";
    "isPrototypeOf"; "propertyIsEnumerable"; "toString"; "valueOf";
    "__proto__"; "toLocaleString" ]%string.

Definition inherited (key : string) : bool :=
  existsb (String.eqb key) Object_prototype_names.

(** [String(n)] for an integer [n]: its decimal numeral, with a minus sign
    if negative.  (Stroke counts and pars are integers far below the
    magnitudes JavaScript prints with an exponent.) *)
Definition String_of (n : Z) : string :=
  DecimalString.NilZero.string_of_int (Z.to_int n).

(* ------------------------------------------------------------------ *)
(** ** The score system *)

Module ScoreSystem.

Definition GOLF_TERMS : list (string * string) :=
  [ ("-3", "Albatross"); ("-2", "Eagle"); ("-1", "Birdie"); ("0", "Par");
    ("1", "Bogey"); ("2", "Double Bogey"); ("3", "Triple Bogey") ]%string.

(** The entry [scoreHole] builds. *)
Record Entry : Type := mkEntry {
  hole : Z;
  par : Z;
  score : Z;
  diff : Z;
  term : string
}.

(** A registered listener.  Listeners are functions of the caller; the
    embedding names each by a number and records the calls made to it.  A
    listener is taken to return, and to leave the score system and the
    data it is handed as they are. *)
Definition Listener : Type := nat.

(** The data handed to the listeners of ['stroke'], ['hole-scored'] and
    ['reset']. *)
Inductive Payload : Type :=
| StrokeData (hole strokes : Z)
| HoleScored (entry : Entry)
| ResetData.

(** A call [fn(data)]. *)
Definition Call : Type := (Listener * Payload)%type.

(** The fields of [this]. *)
Record t : Type := mk {
  holes : list Entry;
  currentHole : Z;
  currentStrokes : Z;
  _listeners : list (string * list Listener)
}.

(** [new ScoreSystem()] *)
Definition constructor : t := mk [] 0 0 [].

(** [table[key] = value] on the own properties. *)
Fixpoint assign {A : Type} (table : list (string * A)) (key : string)
    (value : A) : list (string * A) :=
  match table with
  | [] => [(key, value)]
  | (k, v) :: rest =>
      if String.eqb k key then (k, value) :: rest
      else (k, v) :: assign rest key value
  end.

(** [on(event, fn)].  Where [event] is an own property its array gets
    [fn] pushed; where it is not and is no inherited name, a fresh array
    is stored first; where it is an inherited name the value read is
    truthy, nothing is stored, and [push] is not a function. *)
Definition on (s : t) (event : string) (fn : Listener) : outcome t :=
  match own (_listeners s) event with
  | Some fns =>
      Ok (mk (holes s) (currentHole s) (currentStrokes s)
             (assign (_listeners s) event (fns ++ [fn])))
  | None =>
      if inherited event then TypeError
      else Ok (mk (holes s) (currentHole s) (currentStrokes s)
                  (assign (_listeners s) event ([] ++ [fn])))
  end.

(** [_emit(event, data)]: the calls made, in order.  An inherited name
    reads as a truthy value without [forEach]. *)
Definition _emit (s : t) (event : string) (data : Payload)
    : outcome (list Call) :=
  match own (_listeners s) event with
  | Some fns => Ok (map (fun fn => (fn, data)) fns)
  | None => if inherited event then TypeError else Ok []
  end.

(** [addStroke()] *)
Definition addStroke (s : t) : outcome (t * list Call) :=
  let s := mk (holes s) (currentHole s) (currentStrokes s + 1)%Z
              (_listeners s) in
  calls <- _emit s "stroke"
             (StrokeData (currentHole s + 1)%Z (currentStrokes s)) ;;
  Ok (s, calls).

(** [ScoreSystem.getGolfTerm(score, par)].  [String(diff)] is a numeral,
    never an inherited name, so the table is read by its own properties;
    its values are non-empty strings, so [||] falls through exactly when
    the key is missing. *)
Definition getGolfTerm (score par : Z) : string :=
  let diff := (score - par)%Z in
  match own GOLF_TERMS (String_of diff) with
  | Some term => term
  | None => if (diff >? 0)%Z then ("+" ++ String_of diff)%string
            else String_of diff
  end.

(** [scoreHole(par)]: the new fields, the calls made, the entry
    returned. *)
Definition scoreHole (s : t) (par : Z)
    : outcome (t * list Call * Entry) :=
  let score := currentStrokes s in
  let diff := (score - par)%Z in
  let term :=
    match own GOLF_TERMS (String_of diff) with
    | Some term => term
    | None => if (diff >? 0)%Z then ("+" ++ String_of diff)%string
              else String_of diff
    end in
  let entry := mkEntry (currentHole s + 1)%Z par score diff term in
  let s := mk (holes s ++ [entry]) (currentHole s) (currentStrokes s)
              (_listeners s) in
  calls <- _emit s "hole-scored" (HoleScored entry) ;;
  Ok (mk (holes s) (currentHole s + 1)%Z 0%Z (_listeners s), calls, entry).

(** [get totalScore()] *)
Definition totalScore (s : t) : Z :=
  fold_left (fun sum h => (sum + score h)%Z) (holes s) 0%Z.

(** [get totalPar()] *)
Definition totalPar (s : t) : Z :=
  fold_left (fun sum h => (sum + par h)%Z) (holes s) 0%Z.

(** [get totalDiff()] *)
Definition totalDiff (s : t) : Z := (totalScore s - totalPar s)%Z.

(** A row of the scorecard: the fields of the hole entry, spread, and the
    colour. *)
Record Row : Type := mkRow { entry : Entry; color : string }.

(** [get scorecard()] *)
Definition scorecard (s : t) : list Row :=
  map (fun h =>
         mkRow h (if (diff h <? 0)%Z then "#00edaf"
                  else if (diff h >? 0)%Z then "#ff4466"
                  else "#ffffff")%string)
      (holes s).

(** [reset()] *)
Definition reset (s : t) : outcome (t * list Call) :=
  let s := mk [] 0%Z 0%Z (_listeners s) in
  calls <- _emit s "reset" ResetData ;;
  Ok (s, calls).

(** [score.currentStrokes = 0], the assignment [loadCourse] of the game
    makes from outside. *)
Definition clear_strokes (s : t) : t :=
  mk (holes s) (currentHole s) 0%Z (_listeners s).

(** The listeners registered for an event, in registration order. *)
Definition registered (s : t) (event : string) : list Listener :=
  match own (_listeners s) event with
  | Some fns => fns
  | None => []
  end.

(** [n] calls of [addStroke()], with the calls they make. *)
Fixpoint strokes (n : nat) (s : t) : outcome (t * list Call) :=
  match n with
  | O => Ok (s, [])
  | S n' =>
      r <- addStroke s ;;
      r' <- strokes n' (fst r) ;;
      Ok (fst r', snd r ++ snd r')
  end.

(** What holds of the holes of a score system. *)
Definition holes_consistent (s : t) : Prop :=
  forall i e, nth_error (holes s) i = Some e ->
    hole e = (Z.of_nat i + 1)%Z /\ (0 <= score e)%Z /\
    diff e = (score e - par e)%Z /\
    term e = getGolfTerm (score e) (par e).

(** [on(event, fn)] for each [fn] of a list, in order. *)
Fixpoint on_all (s : t) (event : string) (fns : list Listener) : outcome t :=
  match fns with
  | [] => Ok s
  | fn :: fns' => s' <- on s event fn ;; on_all s' event fns'
  end.

(** The sum of the differences to par over the holes. *)
Definition sum_of_diffs (s : t) : Z :=
  fold_left (fun sum h => (sum + diff h)%Z) (holes s) 0%Z.

(** The score systems a program can hold. *)
Inductive reachable : t -> Prop :=
| reach_new : reachable constructor
| reach_on s event fn s' :
    reachable s -> on s event fn = Ok s' -> reachable s'
| reach_addStroke s s' calls :
    reachable s -> addStroke s = Ok (s', calls) -> reachable s'
| reach_scoreHole s par s' calls e :
    reachable s -> scoreHole s par = Ok (s', calls, e) -> reachable s'
| reach_reset s s' calls :
    reachable s -> reset s = Ok (s', calls) -> reachable s'
| reach_clear_strokes s :
    reachable s -> reachable (clear_strokes s).

(** A score system with two listeners of ['hole-scored'], after two
    strokes and a hole scored at par 3. *)
Definition played : t :=
  Eval vm_compute in
    match (s <- on_all constructor "hole-scored" [7%nat; 8%nat] ;;
           r <- strokes 2 s ;;
           scoreHole (fst r) 3) with
    | Ok (s, _, _) => s
    | _ => constructor
    end.

End ScoreSystem.

(* ------------------------------------------------------------------ *)
(** ** The score system with listeners that act *)

(** [_emit] calls [fn(data)] unguarded, and a listener is code of the
    caller: it may throw, write to the score system or call its methods.
    Here the methods are embedded once more with what the listeners do
    taken into account; [ScoreSystem] above is the case of listeners that
    return and leave the score system alone. *)
Module Listening.
Import ScoreSystem.

Section Calling.

(** What the listeners do: [call fn data s] is how the call [fn(data)]
    ends when the score system is [s], with the score system it leaves or
    with a throw.  Two things a listener can do are outside the embedding:
    truncating an array of [_listeners] in place while [forEach] walks it
    ([on] only appends, so the walk sees the listeners it began with), and
    writing to the entry it is handed, which [holes] and the caller of
    [scoreHole] share. *)
Variable call : Listener -> Payload -> t -> outcome t.

(** [fns.forEach((fn) => fn(data))]: the score system after the calls
    and the calls made, in order.  A throw ends the walk. *)
Fixpoint forEach (fns : list Listener) (data : Payload) (s : t)
    : outcome (t * list Call) :=
  match fns with
  | [] => Ok (s, [])
  | fn :: fns' =>
      s' <- call fn data s ;;
      r <- forEach fns' data s' ;;
      Ok (fst r, (fn, data) :: snd r)
  end.

(** [_emit(event, data)] *)
Definition _emit (s : t) (event : string) (data : Payload)
    : outcome (t * list Call) :=
  match own (_listeners s) event with
  | Some fns => forEach fns data s
  | None => if inherited event then TypeError else Ok (s, [])
  end.

(** [addStroke()] *)
Definition addStroke (s : t) : outcome (t * list Call) :=
  let s := mk (holes s) (currentHole s) (currentStrokes s + 1)%Z
              (_listeners s) in
  _emit s "stroke" (StrokeData (currentHole s + 1)%Z (currentStrokes s)).

(** [scoreHole(par)]: the listeners run after the entry is pushed and
    before the counters are written. *)
Definition scoreHole (s : t) (par : Z)
    : outcome (t * list Call * Entry) :=
  let score := currentStrokes s in
  let diff := (score - par)%Z in
  let term :=
    match own GOLF_TERMS (String_of diff) with
    | Some term => term
    | None => if (diff >? 0)%Z then ("+" ++ String_of diff)%string
              else String_of diff
    end in
  let entry := mkEntry (currentHole s + 1)%Z par score diff term in
  let s := mk (holes s ++ [entry]) (currentHole s) (currentStrokes s)
              (_listeners s) in
  r <- _emit s "hole-scored" (HoleScored entry) ;;
  let s := fst r in
  Ok (mk (holes s) (currentHole s + 1)%Z 0%Z (_listeners s), snd r, entry).

(** [reset()] *)
Definition reset (s : t) : outcome (t * list Call) :=
  let s := mk [] 0%Z 0%Z (_listeners s) in
  _emit s "reset" ResetData.

(** [n] calls of [addStroke()], with the calls they make. *)
Fixpoint strokes (n : nat) (s : t) : outcome (t * list Call) :=
  match n with
  | O => Ok (s, [])
  | S n' =>
      r <- addStroke s ;;
      r' <- strokes n' (fst r) ;;
      Ok (fst r', snd r ++ snd r')
  end.

(** The score systems a program can hold between two calls: only calls
    that return are followed. *)
Inductive reachable : t -> Prop :=
| reach_new : reachable constructor
| reach_on s event fn s' :
    reachable s -> on s event fn = Ok s' -> reachable s'
| reach_addStroke s s' calls :
    reachable s -> addStroke s = Ok (s', calls) -> reachable s'
| reach_scoreHole s par s' calls e :
    reachable s -> scoreHole s par = Ok (s', calls, e) -> reachable s'
| reach_reset s s' calls :
    reachable s -> reset s = Ok (s', calls) -> reachable s'
| reach_clear_strokes s :
    reachable s -> reachable (clear_strokes s).

(** The listeners return and leave the score system as they found it:
    such are the listeners of the game and of the demo, which write to
    the page. *)
Definition quiet : Prop :=
  forall fn data s, call fn data s = Ok s.


End Calling.

(** The calls [n] strokes make on the score system [s]: stroke [k] calls
    each listener of ['stroke'] once, in the order registered, with the
    count so far. *)
Definition stroke_rounds (s : t) (n : nat) : list Call :=
  flat_map
    (fun k => map (fun fn => (fn, StrokeData (currentHole s + 1)%Z
                                    (currentStrokes s + Z.of_nat k)%Z))
                  (registered s "stroke"))
    (seq 1 n).

(** Listeners that do nothing. *)
Definition idle (fn : Listener) (data : Payload) (s : t) : outcome t := Ok s.

(** The listener number 7 calls [score.reset()], whose own listeners do
    nothing; the other listeners do nothing. *)
Definition resetting (fn : Listener) (data : Payload) (s : t) : outcome t :=
  if (fn =? 7)%nat then r <- reset idle s ;; Ok (fst r) else Ok s.

End Listening.

(* ------------------------------------------------------------------ *)
(** ** The caddy *)

Module Caddy.

Definition SHOT_TIPS_straight : list string :=
  [ "Nice clean line to the hole — just control your power.";
    "Straight shot available. Keep it smooth.";
    "The fairway is open. Send it!" ]%string.

Definition SHOT_TIPS_blocked : list string :=
  [ "Wall in the way — try banking off the side.";
    "You'll need to curve around that barrier.";
    "Can't go direct. Consider an angle shot." ]%string.

Definition SHOT_TIPS_close : list string :=
  [ "Tap it gently — you're right there.";
    "Easy putt. Don't overthink it.";
    "Feather touch needed — you're so close." ]%string.

Definition SHOT_TIPS_far : list string :=
  [ "Long shot! Max power might be needed.";
    "It's far — aim carefully and commit.";
    "Big drive coming up. Line it up." ]%string.

Definition SCORE_REACTIONS : list (string * list string) :=
  [ ("Hole in One",
     [ "INCREDIBLE! Hole in one! 🏆"; "LEGENDARY shot! Ace! ⭐" ]);
    ("Eagle",
     [ "Eagle! That's championship play! 🦅";
       "Two under par — amazing! 🦅" ]);
    ("Birdie",
     [ "Birdie! Beautiful golf! 🐦"; "One under — solid play! 🐦" ]);
    ("Par",
     [ "Par — steady and reliable. ⛳"; "Right on par. Consistent! ⛳" ]);
    ("Bogey",
     [ "One over par. Shake it off. 💪";
       "Bogey — you'll get the next one. 💪" ]);
    ("Double Bogey",
     [ "Two over. Tough hole. Keep going. 🎯";
       "Don't worry, pros have bad holes too. 🎯" ]);
    ("Triple Bogey",
     [ "Rough hole. Reset and focus. 🔄";
       "Everyone has those holes. Move on! 🔄" ]) ]%string.

(** [pickRandom(arr)], with [r] the number [Math.random()] returns, a
    number of [0, 1); [None] is [undefined]. *)
Definition pickRandom {A : Type} (r : Q) (arr : list A) : option A :=
  js_index arr (Qfloor (r * inject_Z (Z.of_nat (List.length arr)))).

(** [getScoreReaction(term)].  A term that is an inherited name reads as
    a function or an object: a truthy value, so there is no fallback, and
    indexing it by a number gives [undefined]. *)
Definition getScoreReaction (term : string) (r : Q) : option string :=
  match own SCORE_REACTIONS term with
  | Some reactions => pickRandom r reactions
  | None =>
      if inherited term then None
      else match own SCORE_REACTIONS "Par" with
           | Some reactions => pickRandom r reactions
           | None => None
           end
  end.

(** A wall of a course: [{ pos: [x, y, z], size: [x, y, z] }]. *)
Record Wall : Type := mkWall { pos : Vector3; size : Vector3 }.

(** The test of the inner loop of [analyzeShotSetup]: the wall is wider
    than 0.3 in [x] or in [z], and the point is strictly inside its
    footprint. *)
Definition wall_covers (w : Wall) (px pz : Q) : bool :=
  (Qlt_bool (3 # 10) (x (size w)) || Qlt_bool (3 # 10) (z (size w))) &&
  (let halfX := x (size w) / 2 in
   let halfZ := z (size w) / 2 in
   Qlt_bool (x (pos w) - halfX) px && Qlt_bool px (x (pos w) + halfX) &&
   Qlt_bool (z (pos w) - halfZ) pz && Qlt_bool pz (z (pos w) + halfZ)).

(** The two loops of [analyzeShotSetup]: the path is sampled at
    [i / steps] for [i = 1 .. steps - 1], and is blocked as soon as a
    wall covers a sample. *)
Definition path_blocked (ballPos holePos : Vector3) (walls : list Wall)
    : bool :=
  let dx := x holePos - x ballPos in
  let dz := z holePos - z ballPos in
  let steps := 20%Z in
  existsb
    (fun i : nat =>
       let t := inject_Z (Z.of_nat i) / inject_Z steps in
       let px := x ballPos + dx * t in
       let pz := z ballPos + dz * t in
       existsb (fun w => wall_covers w px pz) walls)
    (seq 1 19).

Section Shot.

(** [Math.sqrt], as for the animator. *)
Variable sqrt : Q -> Q.

(** [analyzeShotSetup(ballPos, holePos, walls)], with [r] the number
    [Math.random()] returns in the branch taken.  The ball position is a
    vector, the hole position an array read at 0 and 2. *)
Definition analyzeShotSetup (ballPos holePos : Vector3) (walls : list Wall)
    (r : Q) : option string :=
  let dx := x holePos - x ballPos in
  let dz := z holePos - z ballPos in
  let dist := sqrt (dx * dx + dz * dz) in
  let blocked := path_blocked ballPos holePos walls in
  if Qlt_bool dist (4 # 5) then pickRandom r SHOT_TIPS_close
  else if blocked then pickRandom r SHOT_TIPS_blocked
  else if Qlt_bool 5 dist then pickRandom r SHOT_TIPS_far
  else pickRandom r SHOT_TIPS_straight.

End Shot.

End Caddy.

(* ------------------------------------------------------------------ *)
(** ** The game: ball physics *)

From Stdlib Require Qabs.

Module Game.

(** A course of [COURSES]. *)
Record Course : Type := mkCourse {
  par : Z;
  holePos : Vector3;
  ballStart : Vector3;
  walls : list Caddy.Wall;
  label : string
}.

Definition COURSES : list Course :=
  [ mkCourse 3 (mkVector3 3 (1 # 100) 0) (mkVector3 (-3) (3 # 20) 0)
      [ Caddy.mkWall (mkVector3 0 (3 # 20) (5 # 2))
                     (mkVector3 8 (3 # 10) (1 # 5));
        Caddy.mkWall (mkVector3 0 (3 # 20) (- (5 # 2)))
                     (mkVector3 8 (3 # 10) (1 # 5));
        Caddy.mkWall (mkVector3 (-4) (3 # 20) 0)
                     (mkVector3 (1 # 5) (3 # 10) 5);
        Caddy.mkWall (mkVector3 4 (3 # 20) 0)
                     (mkVector3 (1 # 5) (3 # 10) 5) ]
      "Straight Shot";
    mkCourse 4 (mkVector3 3 (1 # 100) 3) (mkVector3 (-3) (3 # 20) (-3))
      [ Caddy.mkWall (mkVector3 0 (3 # 20) (-4))
                     (mkVector3 8 (3 # 10) (1 # 5));
        Caddy.mkWall (mkVector3 0 (3 # 20) 4)
                     (mkVector3 8 (3 # 10) (1 # 5));
        Caddy.mkWall (mkVector3 (-4) (3 # 20) 0)
                     (mkVector3 (1 # 5) (3 # 10) 8);
        Caddy.mkWall (mkVector3 4 (3 # 20) 0)
                     (mkVector3 (1 # 5) (3 # 10) 8);
        Caddy.mkWall (mkVector3 0 (3 # 20) 0)
                     (mkVector3 3 (3 # 10) (1 # 5)) ]
      "Corner Pocket";
    mkCourse 3 (mkVector3 0 (1 # 100) 4) (mkVector3 0 (3 # 20) (-4))
      [ Caddy.mkWall (mkVector3 0 (3 # 20) (-5))
                     (mkVector3 6 (3 # 10) (1 # 5));
        Caddy.mkWall (mkVector3 0 (3 # 20) 5)
                     (mkVector3 6 (3 # 10) (1 # 5));
        Caddy.mkWall (mkVector3 (-3) (3 # 20) 0)
                     (mkVector3 (1 # 5) (3 # 10) 10);
        Caddy.mkWall (mkVector3 3 (3 # 20) 0)
                     (mkVector3 (1 # 5) (3 # 10) 10);
        Caddy.mkWall (mkVector3 (- (6 # 5)) (3 # 20) (-1))
                     (mkVector3 (3 # 2) (3 # 10) (1 # 5));
        Caddy.mkWall (mkVector3 (6 # 5) (3 # 20) 1)
                     (mkVector3 (3 # 2) (3 # 10) (1 # 5)) ]
      "Snake Lane" ]%string.

(** [friction], which the game never reassigns. *)
Definition friction : Q := 985 # 1000.

(** [Math.sign] and [Math.abs]. *)
Definition Math_sign (q : Q) : Q :=
  if Qlt_bool 0 q then 1 else if Qlt_bool q 0 then - (1) else q.

Definition Math_abs (q : Q) : Q := Qabs.Qabs q.

(** What [updatePhysics] reads and writes: the ball's position and
    rotation, its velocity and the moving flag. *)
Record Physics : Type := mkPhysics {
  ball_position : Vector3;
  ball_rotation : Vector3;
  ballVelocity : Vector3;
  ballMoving : bool
}.

Section Physics.

(** [Math.sqrt], as for the animator. *)
Variable sqrt : Q -> Q.

(** Modelled from the spec: [THREE.Vector3.length], of the three.js
    library, which is not under src/: the Euclidean norm. *)
Definition length (v : Vector3) : Q :=
  sqrt (x v * x v + y v * y v + z v * z v).

(** The callback of [course.walls.forEach] in [updatePhysics]: the
    collision of the ball with one wall. *)
Definition collide (st : Physics) (w : Caddy.Wall) : Physics :=
  let halfX := x (Caddy.size w) / 2 in
  let halfZ := z (Caddy.size w) / 2 in
  let bx := x (ball_position st) in
  let bz := z (ball_position st) in
  let br := 12 # 100 in
  let closestX :=
    Math_max (x (Caddy.pos w) - halfX)
             (Math_min bx (x (Caddy.pos w) + halfX)) in
  let closestZ :=
    Math_max (z (Caddy.pos w) - halfZ)
             (Math_min bz (z (Caddy.pos w) + halfZ)) in
  let distX := bx - closestX in
  let distZ := bz - closestZ in
  let dist := sqrt (distX * distX + distZ * distZ) in
  if Qlt_bool dist br then
    if Qlt_bool (Math_abs distZ) (Math_abs distX) then
      mkPhysics
        (mkVector3 (closestX + Math_sign distX * br)
                   (y (ball_position st)) (z (ball_position st)))
        (ball_rotation st)
        (mkVector3 (x (ballVelocity st) * - (7 # 10))
                   (y (ballVelocity st)) (z (ballVelocity st)))
        (ballMoving st)
    else
      mkPhysics
        (mkVector3 (x (ball_position st)) (y (ball_position st))
                   (closestZ + Math_sign distZ * br))
        (ball_rotation st)
        (mkVector3 (x (ballVelocity st)) (y (ballVelocity st))
                   (z (ballVelocity st) * - (7 # 10)))
        (ballMoving st)
  else st.

(** [updatePhysics(dt)] on the course [COURSES[currentHole]]: the state it
    leaves, and whether it called [checkHole()] (which then runs on that
    state). *)
Definition updatePhysics (currentHole : Z) (dt : Q) (st : Physics)
    : outcome (Physics * bool) :=
  if negb (ballMoving st) then Ok (st, false)
  else
    let speed := length (ballVelocity st) in
    if Qlt_bool speed (1 # 100) then
      Ok (mkPhysics (ball_position st) (ball_rotation st)
            (mkVector3 0 0 0) false, true)
    else
      let v := ballVelocity st in
      let position :=
        mkVector3 (x (ball_position st) + x v * dt) (12 # 100)
                  (z (ball_position st) + z v * dt) in
      let rotation :=
        mkVector3 (x (ball_rotation st) + z v * dt * 5)
                  (y (ball_rotation st))
                  (z (ball_rotation st) - x v * dt * 5) in
      let v := mkVector3 (x v * friction) (y v * friction)
                         (z v * friction) in
      course <- read (js_index COURSES currentHole) ;;
      Ok (fold_left collide (walls course)
            (mkPhysics position rotation v (ballMoving st)), false).

End Physics.

(** One velocity is no faster than another, component by component. *)
Definition no_faster (v w : Vector3) : Prop :=
  Qabs.Qabs (x v) <= Qabs.Qabs (x w) /\
  Qabs.Qabs (y v) <= Qabs.Qabs (y w) /\
  Qabs.Qabs (z v) <= Qabs.Qabs (z w).

(** The ball's centre lies within the footprint of the wall [w]. *)
Definition inside (st : Physics) (w : Caddy.Wall) : Prop :=
  x (Caddy.pos w) - x (Caddy.size w) / 2 <= x (ball_position st) /\
  x (ball_position st) <= x (Caddy.pos w) + x (Caddy.size w) / 2 /\
  z (Caddy.pos w) - z (Caddy.size w) / 2 <= z (ball_position st) /\
  z (ball_position st) <= z (Caddy.pos w) + z (Caddy.size w) / 2.

End Game.

(* ------------------------------------------------------------------ *)
(** ** Numbers: facts *)

Lemma Qlt_bool_iff (a b : Q) : Qlt_bool a b = true <-> a < b.
Proof.
  unfold Qlt_bool. rewrite negb_true_iff.
  destruct (Qle_bool b a) eqn:E.
  - apply Qle_bool_iff in E. split; [discriminate | intro H].
    exfalso. apply (Qlt_irrefl a). now apply Qlt_le_trans with b.
  - split; [intros _ | reflexivity].
    apply Qnot_le_lt. intro H. apply Qle_bool_iff in H. congruence.
Qed.

Lemma Qle_bool_false (a b : Q) : Qle_bool a b = false <-> b < a.
Proof.
  rewrite <- Qlt_bool_iff. unfold Qlt_bool.
  now destruct (Qle_bool a b).
Qed.

(** Clamping leaves a parameter of [0, 1] as it is. *)
Lemma clamp_id (t : Q) : 0 <= t <= 1 -> Math_max 0 (Math_min 1 t) == t.
Proof.
  intros [H0 H1]. unfold Math_max, Math_min.
  destruct (Qle_bool 1 t) eqn:E1.
  - apply Qle_bool_iff in E1. simpl. now apply Qle_antisym.
  - destruct (Qle_bool 0 t) eqn:E0; [reflexivity |].
    apply Qle_bool_false in E0. exfalso.
    apply (Qlt_irrefl t). now apply Qlt_le_trans with 0.
Qed.

Lemma clamp_range (t : Q) : 0 <= Math_max 0 (Math_min 1 t) <= 1.
Proof.
  unfold Math_max, Math_min.
  destruct (Qle_bool 1 t) eqn:E1; simpl.
  - split; discriminate.
  - apply Qle_bool_false in E1.
    destruct (Qle_bool 0 t) eqn:E0.
    + apply Qle_bool_iff in E0. split; [assumption | now apply Qlt_le_weak].
    + split; [apply Qle_refl | discriminate].
Qed.

(* ------------------------------------------------------------------ *)
(** ** Array reads *)

Lemma js_index_nat {A : Type} (arr : list A) (k : nat) :
  js_index arr (Z.of_nat k) = nth_error arr k.
Proof.
  unfold js_index.
  destruct (Z.ltb_spec (Z.of_nat k) 0); [lia |].
  now rewrite Nat2Z.id.
Qed.

Lemma js_index_in_range {A : Type} (arr : list A) (k : Z) :
  (0 <= k < Z.of_nat (List.length arr))%Z ->
  exists a, js_index arr k = Some a.
Proof.
  intros Hk. unfold js_index.
  destruct (Z.ltb_spec k 0); [lia |].
  destruct (nth_error arr (Z.to_nat k)) eqn:E; [eauto |].
  apply nth_error_None in E. lia.
Qed.

Lemma js_index_out_of_range {A : Type} (arr : list A) (k : Z) :
  (k < 0 \/ Z.of_nat (List.length arr) <= k)%Z ->
  js_index arr k = None.
Proof.
  intros Hk. unfold js_index.
  destruct (Z.ltb_spec k 0); [reflexivity |].
  apply nth_error_None. lia.
Qed.

(* ------------------------------------------------------------------ *)
(** ** The spline evaluator *)

Lemma catmullRom_at_0 (p0 p1 p2 p3 : Vector3) (t : Q) :
  t == 0 -> Veq (catmullRom p0 p1 p2 p3 t) p1.
Proof.
  intros Ht. unfold Veq, catmullRom; simpl.
  repeat split; rewrite Ht; ring.
Qed.

Lemma catmullRom_at_1 (p0 p1 p2 p3 : Vector3) (t : Q) :
  t == 1 -> Veq (catmullRom p0 p1 p2 p3 t) p2.
Proof.
  intros Ht. unfold Veq, catmullRom; simpl.
  repeat split; rewrite Ht; ring.
Qed.

(** With two points or more, all four reads of [getPoint] are in range,
    so it returns a point. *)
Lemma getPoint_total (pts : list Vector3) (t : Q) :
  (2 <= List.length pts)%nat -> exists p, getPoint pts t = Ok p.
Proof.
  intros HN. unfold getPoint.
  set (t' := Math_max 0 (Math_min 1 t)).
  set (n := (Z.of_nat (List.length pts) - 1)%Z).
  set (segment := Z.min (Qfloor (t' * inject_Z n)) (n - 1)).
  assert (Hseg : (0 <= segment <= n - 1)%Z).
  { subst segment. split; [| apply Z.le_min_r].
    apply Z.min_glb; [| lia].
    rewrite <- (Qfloor_Z 0). apply Qfloor_resp_le.
    apply Qmult_le_0_compat; [apply clamp_range |].
    change 0 with (inject_Z 0). rewrite <- Zle_Qle. lia. }
  destruct (js_index_in_range pts (Z.max 0 (segment - 1))) as [p0 ->]; [lia |].
  destruct (js_index_in_range pts segment) as [p1 ->]; [lia |].
  destruct (js_index_in_range pts (Z.min n (segment + 1))) as [p2 ->]; [lia |].
  destruct (js_index_in_range pts (Z.min n (segment + 2))) as [p3 ->]; [lia |].
  simpl. eauto.
Qed.

(** The evaluator at a knot: if [t * n] is the integer [i], the point is
    control point [i]. *)
Lemma getPoint_at_knot (pts : list Vector3) (t : Q) (i : nat) (c : Vector3) :
  (2 <= List.length pts)%nat ->
  0 <= t <= 1 ->
  t * inject_Z (Z.of_nat (List.length pts) - 1) == inject_Z (Z.of_nat i) ->
  nth_error pts i = Some c ->
  exists p, getPoint pts t = Ok p /\ Veq p c.
Proof.
  intros HN Ht Hi Hc.
  assert (Hlt : (i < List.length pts)%nat)
    by (apply nth_error_Some; congruence).
  unfold getPoint.
  set (t' := Math_max 0 (Math_min 1 t)).
  set (n := (Z.of_nat (List.length pts) - 1)%Z) in *.
  assert (Ht' : t' * inject_Z n == inject_Z (Z.of_nat i))
    by (subst t'; rewrite clamp_id; assumption).
  rewrite (Qfloor_comp _ _ Ht'), Qfloor_Z.
  set (segment := Z.min (Z.of_nat i) (n - 1)).
  destruct (Z.le_gt_cases (Z.of_nat i) (n - 1)) as [Hin | Hin].
  - (* an inner knot or the first one: the segment starts at it *)
    assert (Hs : segment = Z.of_nat i) by (subst segment; lia).
    destruct (js_index_in_range pts (Z.max 0 (segment - 1))) as [p0 ->]; [lia |].
    replace (js_index pts segment) with (Some c)
      by (rewrite Hs, js_index_nat; now symmetry).
    destruct (js_index_in_range pts (Z.min n (segment + 1))) as [p2 ->]; [lia |].
    destruct (js_index_in_range pts (Z.min n (segment + 2))) as [p3 ->]; [lia |].
    simpl. eexists; split; [reflexivity |].
    apply catmullRom_at_0. rewrite Ht', Hs. ring.
  - (* the last knot: the end of the last segment *)
    assert (Hn : Z.of_nat i = n) by lia.
    assert (Hs : segment = (n - 1)%Z) by (subst segment; lia).
    destruct (js_index_in_range pts (Z.max 0 (segment - 1))) as [p0 ->]; [lia |].
    destruct (js_index_in_range pts segment) as [p1 ->]; [lia |].
    replace (Z.min n (segment + 1)) with (Z.of_nat i) by lia.
    rewrite js_index_nat, Hc.
    destruct (js_index_in_range pts (Z.min n (segment + 2))) as [p3 ->]; [lia |].
    simpl. eexists; split; [reflexivity |].
    apply catmullRom_at_1. rewrite Ht', Hs, Hn.
    unfold Qminus. rewrite <- inject_Z_opp, <- inject_Z_plus.
    now replace (n + - (n - 1))%Z with 1%Z by lia.
Qed.

(* ------------------------------------------------------------------ *)
(** ** The arc-length table *)

Section Table.

Variable sqrt : Q -> Q.
Hypothesis sqrt_nonneg : forall q, 0 <= sqrt q.

Lemma distanceTo_nonneg (p q : Vector3) : 0 <= distanceTo sqrt p q.
Proof. unfold distanceTo. apply sqrt_nonneg. Qed.

Lemma nth_error_snoc_old {A : Type} (l : list A) (a : A) (k : nat) :
  (k < List.length l)%nat -> nth_error (l ++ [a]) k = nth_error l k.
Proof. intros H. now apply nth_error_app1. Qed.

Lemma nth_error_snoc_new {A : Type} (l : list A) (a : A) :
  nth_error (l ++ [a]) (List.length l) = Some a.
Proof. rewrite nth_error_app2, Nat.sub_diag; [reflexivity | lia]. Qed.

Lemma nth_error_snoc_inv {A : Type} (l : list A) (a b : A) (k : nat) :
  nth_error (l ++ [a]) k = Some b ->
  ((k < List.length l)%nat /\ nth_error l k = Some b) \/
  (k = List.length l /\ b = a).
Proof.
  intros H.
  assert (Hk : (k < List.length (l ++ [a]))%nat)
    by (apply nth_error_Some; congruence).
  rewrite length_app in Hk; simpl in Hk.
  destruct (Nat.eq_dec k (List.length l)) as [-> | Hne].
  - right. rewrite nth_error_snoc_new in H. split; congruence.
  - left. assert (Hlt : (k < List.length l)%nat) by lia.
    rewrite nth_error_snoc_old in H by assumption. tauto.
Qed.

(** One turn of the loop keeps the table on the grid, sorted, and ending
    at the running total. *)
Lemma snoc_keeps_table (segments : Z) (table : list ArcLengthSample)
    (total d : Q) :
  0 <= d ->
  nth_error table 0 = Some (mkSample 0 0) ->
  on_grid segments table -> distances_sorted table -> ends_at table total ->
  let i := Z.of_nat (List.length table) in
  let table' := table ++ [mkSample (inject_Z i / inject_Z segments) (total + d)] in
  nth_error table' 0 = Some (mkSample 0 0) /\
  on_grid segments table' /\ distances_sorted table' /\
  ends_at table' (total + d).
Proof.
  intros Hd H0 Hgrid Hsorted [sl [Hl Hdl]] i table'.
  assert (Hlen : (0 < List.length table)%nat)
    by (apply nth_error_Some; congruence).
  repeat split.
  - subst table'. now rewrite nth_error_snoc_old.
  - intros k s Hk. apply nth_error_snoc_inv in Hk as [[_ Hk] | [-> ->]].
    + now apply Hgrid.
    + reflexivity.
  - intros j k sj sk Hjk Hj Hk.
    apply nth_error_snoc_inv in Hk as [[Hklt Hk] | [-> ->]].
    + apply nth_error_snoc_inv in Hj as [[_ Hj] | [-> _]]; [| lia].
      now apply (Hsorted j k).
    + apply nth_error_snoc_inv in Hj as [[Hjlt Hj] | [_ ->]].
      * simpl. apply Qle_trans with total.
        -- rewrite <- Hdl. apply (Hsorted j (List.length table - 1)%nat);
             [lia | assumption | assumption].
        -- rewrite <- (Qplus_0_r total) at 1. now apply Qplus_le_r.
      * apply Qle_refl.
  - exists (mkSample (inject_Z i / inject_Z segments) (total + d)).
    split; [| reflexivity].
    subst table'. rewrite length_app; simpl.
    replace (List.length table + 1 - 1)%nat with (List.length table) by lia.
    apply nth_error_snoc_new.
Qed.

(** The loop runs all its turns and grows the table by one entry a turn. *)
Lemma build_loop_spec (pts : list Vector3) (segments : Z) :
  (2 <= List.length pts)%nat ->
  forall (turns : nat) (i : Z) (total : Q) (prev : Vector3)
         (table : list ArcLengthSample),
    i = Z.of_nat (List.length table) ->
    nth_error table 0 = Some (mkSample 0 0) ->
    on_grid segments table -> distances_sorted table -> ends_at table total ->
    exists table' total',
      build_loop sqrt pts segments turns i total prev table = Ok table' /\
      List.length table' = (List.length table + turns)%nat /\
      nth_error table' 0 = Some (mkSample 0 0) /\
      on_grid segments table' /\ distances_sorted table' /\
      ends_at table' total'.
Proof.
  intros HN. induction turns as [| turns IH];
    intros i total prev table Hi H0 Hgrid Hsorted Hend.
  - exists table, total. simpl. rewrite Nat.add_0_r. tauto.
  - simpl.
    destruct (getPoint_total pts (inject_Z i / inject_Z segments) HN)
      as [point ->]. simpl.
    destruct (snoc_keeps_table segments table total
                (distanceTo sqrt prev point))
      as (H0' & Hgrid' & Hsorted' & Hend'); try assumption.
    { apply distanceTo_nonneg. }
    rewrite <- Hi in *.
    destruct (IH (i + 1)%Z (total + distanceTo sqrt prev point) point
                (table ++ [mkSample (inject_Z i / inject_Z segments)
                             (total + distanceTo sqrt prev point)]))
      as (table' & total' & Hrun & Hlen & Hrest); try assumption.
    { rewrite length_app; simpl. lia. }
    exists table', total'. split; [exact Hrun |].
    split; [| exact Hrest].
    rewrite Hlen, length_app; simpl. lia.
Qed.

(** [_buildArcLengthTable] on two points or more. *)
Lemma buildArcLengthTable_spec (pts : list Vector3) (segments : Z) :
  (2 <= List.length pts)%nat ->
  exists table total,
    _buildArcLengthTable sqrt pts segments = Ok table /\
    List.length table = S (Z.to_nat segments) /\
    nth_error table 0 = Some (mkSample 0 0) /\
    on_grid segments table /\ distances_sorted table /\
    ends_at table total.
Proof.
  intros HN. unfold _buildArcLengthTable.
  destruct (getPoint_total pts 0 HN) as [p0 ->]. simpl.
  destruct (build_loop_spec pts segments HN (Z.to_nat segments) 1 0 p0
              [mkSample 0 0])
    as (table & total & Hrun & Hlen & Hrest); try reflexivity.
  - intros k s Hk. destruct k as [| k]; simpl in Hk.
    + injection Hk as <-. simpl. unfold Qdiv. now rewrite Qmult_0_l.
    + destruct k; discriminate.
  - intros j k sj sk Hjk Hj Hk.
    destruct k as [| k]; [| destruct k; discriminate].
    assert (j = 0%nat) as -> by lia. simpl in *.
    injection Hj as <-. injection Hk as <-. apply Qle_refl.
  - exists (mkSample 0 0). split; reflexivity.
  - exists table, total. split; [exact Hrun |]. split; [| exact Hrest].
    rewrite Hlen. reflexivity.
Qed.

(** Grid parameters are sorted and stay below 1. *)
Lemma grid_parameters (segments : Z) (table : list ArcLengthSample) :
  on_grid segments table ->
  List.length table = S (Z.to_nat segments) ->
  parameters_sorted table /\
  (forall k s, nth_error table k = Some s -> parameter s <= 1).
Proof.
  intros Hgrid Hlen.
  assert (Hk : forall k s, nth_error table k = Some s ->
                 (Z.of_nat k <= Z.max 0 segments)%Z).
  { intros k s H.
    assert (k < List.length table)%nat by (apply nth_error_Some; congruence).
    lia. }
  destruct (Z.le_gt_cases segments 0) as [Hneg | Hpos].
  - (* no turn of the loop: the table is [(0, 0)] *)
    assert (Hzero : forall k s, nth_error table k = Some s -> parameter s == 0).
    { intros k s H. rewrite (Hgrid k s H).
      assert (k = 0%nat) as -> by (specialize (Hk k s H); lia).
      unfold Qdiv. apply Qmult_0_l. }
    split.
    + intros j k sj sk _ Hj Hk'.
      rewrite (Hzero j sj Hj), (Hzero k sk Hk'). apply Qle_refl.
    + intros k s H. rewrite (Hzero k s H). discriminate.
  - assert (HS : 0 < inject_Z segments)
      by (change 0 with (inject_Z 0); rewrite <- Zlt_Qlt; lia).
    split.
    + intros j k sj sk Hjk Hj Hk'.
      rewrite (Hgrid j sj Hj), (Hgrid k sk Hk').
      unfold Qdiv. apply Qmult_le_compat_r.
      * rewrite <- Zle_Qle. lia.
      * apply Qlt_le_weak. now apply Qinv_lt_0_compat.
    + intros k s H. rewrite (Hgrid k s H).
      apply Qle_shift_div_r; [assumption |].
      rewrite Qmult_1_l, <- Zle_Qle. specialize (Hk k s H). lia.
Qed.

(** The constructor on two points or more: it returns an animator at rest,
    whose table is the one [_buildArcLengthTable] returns. *)
Lemma constructor_spec (pts : list Vector3) (o : Options.t) :
  (2 <= List.length pts)%nat ->
  exists table last,
    _buildArcLengthTable sqrt pts (Options.arcLengthSegments o) = Ok table /\
    nth_error table (List.length table - 1) = Some last /\
    constructor sqrt pts o =
      Ok (mkCurveAnimator pts (Options.speed o) (Options.mode o)
            (Options.duration o) (Options.loop o)
            (Options.orientToDirection o) (Options.lookAheadDistance o)
            table (distance last) 0 0 false false None).
Proof.
  intros HN.
  destruct (buildArcLengthTable_spec pts (Options.arcLengthSegments o) HN)
    as (table & total & Hrun & Hlen & _ & _ & _ & (last & Hlast & _)).
  exists table, last. split; [exact Hrun |]. split; [exact Hlast |].
  unfold constructor. rewrite Hrun. simpl.
  replace (Z.of_nat (List.length table) - 1)%Z
    with (Z.of_nat (List.length table - 1)) by lia.
  now rewrite js_index_nat, Hlast.
Qed.

Lemma constructor_well_formed (pts : list Vector3) (o : Options.t)
    (a : CurveAnimator) :
  constructor sqrt pts o = Ok a -> (2 <= List.length pts)%nat ->
  well_formed a.
Proof.
  intros Hnew HN.
  destruct (buildArcLengthTable_spec pts (Options.arcLengthSegments o) HN)
    as (table & total & Hrun & Hlen & H0 & Hgrid & Hsorted & Hend).
  destruct (constructor_spec pts o HN) as (table' & last & Hrun' & Hlast & Heq).
  rewrite Hrun in Hrun'. injection Hrun' as <-.
  rewrite Heq in Hnew. injection Hnew as <-.
  destruct (grid_parameters _ _ Hgrid Hlen) as [Hps Hp1].
  split; simpl; [exact HN |].
  repeat split; try assumption.
  exists last. split; [assumption | reflexivity].
Qed.

End Table.

(* ------------------------------------------------------------------ *)
(** ** Fewer than two control points *)

(** With no point or one, [getPoint] reads a point that is not there. *)
Lemma getPoint_too_few (pts : list Vector3) (t : Q) :
  (List.length pts < 2)%nat -> getPoint pts t = TypeError.
Proof.
  intros HN. unfold getPoint.
  set (t' := Math_max 0 (Math_min 1 t)).
  destruct pts as [| p [| q rest]]; simpl in HN; [| | lia].
  - (* no point: already [pts[0]] is undefined *)
    simpl List.length.
    rewrite (js_index_out_of_range (@nil Vector3)); [reflexivity |].
    simpl. lia.
  - (* one point: the segment index is negative *)
    simpl List.length.
    set (segment := Z.min (Qfloor (t' * inject_Z (Z.of_nat 1 - 1)))
                          (Z.of_nat 1 - 1 - 1)).
    assert (Hs : (segment <= -1)%Z) by (subst segment; lia).
    destruct (js_index_in_range [p] (Z.max 0 (segment - 1))) as [p0 ->];
      [simpl; lia |].
    rewrite (js_index_out_of_range [p] segment); [reflexivity | lia].
Qed.

(* ------------------------------------------------------------------ *)
(** ** Distance to parameter *)

Lemma js_index_Some_range {A : Type} (arr : list A) (k : Z) (a : A) :
  js_index arr k = Some a -> (0 <= k < Z.of_nat (List.length arr))%Z.
Proof.
  unfold js_index. destruct (Z.ltb_spec k 0) as [Hk | Hk]; [discriminate |].
  intros Hnth.
  assert (Z.to_nat k < List.length arr)%nat by (apply nth_error_Some; congruence).
  lia.
Qed.

Lemma js_index_to_nat {A : Type} (arr : list A) (k : Z) (a : A) :
  js_index arr k = Some a -> nth_error arr (Z.to_nat k) = Some a.
Proof.
  unfold js_index. now destruct (Z.ltb_spec k 0).
Qed.

Lemma shr1_between (low high : Z) :
  (low < high - 1)%Z -> (low < shr1 (low + high) < high)%Z.
Proof.
  intros H. unfold shr1. rewrite Z.shiftr_div_pow2 by lia.
  change (2 ^ 1)%Z with 2%Z.
  pose proof (Z.div_mod (low + high) 2 ltac:(lia)).
  pose proof (Z.mod_pos_bound (low + high) 2 ltac:(lia)).
  lia.
Qed.

(** The search keeps [distance[low] < targetDist <= distance[high]] and
    stops, within its fuel, on two neighbouring entries. *)
Lemma search_spec (table : list ArcLengthSample) (d : Q) :
  forall (fuel : nat) (low high : Z) (slow shigh : ArcLengthSample),
    (0 <= low < high)%Z -> (high - low <= Z.of_nat fuel)%Z ->
    js_index table low = Some slow -> js_index table high = Some shigh ->
    distance slow < d -> d <= distance shigh ->
    exists l s0 s1,
      search table d fuel low high = Ok (l, (l + 1)%Z) /\
      (low <= l < high)%Z /\
      js_index table l = Some s0 /\ js_index table (l + 1) = Some s1 /\
      distance s0 < d /\ d <= distance s1.
Proof.
  induction fuel as [| fuel IH];
    intros low high slow shigh Hlh Hfuel Hlow Hhigh Hdl Hdh.
  - assert (high = low + 1)%Z as -> by lia.
    exists low, slow, shigh. simpl.
    destruct (Z.ltb_spec low (low + 1 - 1)); [lia |].
    repeat split; try assumption; lia.
  - simpl. destruct (Z.ltb_spec low (high - 1)) as [Hgap | Hgap].
    + pose proof (shr1_between low high Hgap) as Hmid.
      pose proof (js_index_Some_range _ _ _ Hhigh) as Hrange.
      destruct (js_index_in_range table (shr1 (low + high))) as [smid Hsmid];
        [lia |].
      rewrite Hsmid. simpl.
      destruct (Qlt_bool (distance smid) d) eqn:Hcmp.
      * apply Qlt_bool_iff in Hcmp.
        destruct (IH (shr1 (low + high)) high smid shigh)
          as (l & s0 & s1 & Hrun & Hl & Hrest); try assumption; try lia.
        exists l, s0, s1. split; [exact Hrun |]. split; [lia | exact Hrest].
      * assert (Hge : d <= distance smid).
        { apply Qnot_lt_le. intro Hlt. apply Qlt_bool_iff in Hlt. congruence. }
        destruct (IH low (shr1 (low + high)) slow smid)
          as (l & s0 & s1 & Hrun & Hl & Hrest); try assumption; try lia.
        exists l, s0, s1. split; [exact Hrun |]. split; [lia | exact Hrest].
    + assert (high = low + 1)%Z as -> by lia.
      exists low, slow, shigh. repeat split; try assumption; lia.
Qed.

(** Strictly inside the curve, the function interpolates between the two
    neighbouring entries that bracket the distance; it does not divide by
    zero. *)
Lemma getParameterForDistance_interior (a : CurveAnimator) (d : Q) :
  well_formed a -> 0 < d -> d < totalLength a ->
  exists l s0 s1,
    nth_error (arcLengthTable a) l = Some s0 /\
    nth_error (arcLengthTable a) (S l) = Some s1 /\
    distance s0 < d /\ d <= distance s1 /\
    getParameterForDistance a d = Ok (interpolate s0 s1 d).
Proof.
  intros [_ (H0 & Hds & Hps & Hp1 & (last & Hlast & HL))] Hd0 HdL.
  unfold getParameterForDistance.
  destruct (Qle_bool d 0) eqn:E0.
  { apply Qle_bool_iff in E0. exfalso.
    apply (Qlt_irrefl 0). now apply Qlt_le_trans with d. }
  destruct (Qle_bool (totalLength a) d) eqn:EL.
  { apply Qle_bool_iff in EL. exfalso.
    apply (Qlt_irrefl d). now apply Qlt_le_trans with (totalLength a). }
  set (table := arcLengthTable a) in *.
  assert (Hlen : (2 <= List.length table)%nat).
  { assert (0 < List.length table)%nat by (apply nth_error_Some; congruence).
    destruct (Nat.eq_dec (List.length table) 1) as [E1 | E1]; [| lia].
    rewrite E1 in Hlast. change (1 - 1)%nat with 0%nat in Hlast.
    rewrite H0 in Hlast. injection Hlast as <-. simpl in HL.
    exfalso. apply (Qlt_irrefl 0). apply Qlt_trans with d; [assumption |].
    now rewrite HL. }
  destruct (search_spec table d (List.length table) 0
              (Z.of_nat (List.length table) - 1) (mkSample 0 0) last)
    as (l & s0 & s1 & Hrun & Hl & Hs0 & Hs1 & Hd0' & Hd1'); try lia.
  - rewrite <- H0. apply (js_index_nat table 0).
  - replace (Z.of_nat (List.length table) - 1)%Z
      with (Z.of_nat (List.length table - 1)) by lia.
    now rewrite js_index_nat.
  - assumption.
  - rewrite HL. now apply Qlt_le_weak.
  - assert (Ez : Qeq_bool (distance s1 - distance s0) 0 = false).
    { destruct (Qeq_bool (distance s1 - distance s0) 0) eqn:Ez;
        [| reflexivity].
      apply Qeq_bool_iff in Ez. lra. }
    exists (Z.to_nat l), s0, s1.
    split; [now apply js_index_to_nat |].
    split.
    { replace (S (Z.to_nat l)) with (Z.to_nat (l + 1)) by lia.
      now apply js_index_to_nat. }
    split; [assumption |]. split; [assumption |].
    rewrite Hrun. simpl. rewrite Hs0, Hs1. simpl.
    unfold js_div. rewrite Ez. reflexivity.
Qed.

Lemma interpolate_between (s0 s1 : ArcLengthSample) (d : Q) :
  distance s0 < d -> d <= distance s1 -> parameter s0 <= parameter s1 ->
  parameter s0 <= interpolate s0 s1 d <= parameter s1.
Proof.
  intros Hd0 Hd1 Hp. unfold interpolate.
  set (frac := (d - distance s0) / (distance s1 - distance s0)).
  assert (Hgap : 0 < distance s1 - distance s0) by lra.
  assert (Hf0 : 0 <= frac).
  { subst frac. apply Qle_shift_div_l; [assumption | lra]. }
  assert (Hf1 : frac <= 1).
  { subst frac. apply Qle_shift_div_r; [assumption | lra]. }
  split; nra.
Qed.

Lemma interpolate_mono (s0 s1 : ArcLengthSample) (d d' : Q) :
  distance s0 < distance s1 -> d <= d' -> parameter s0 <= parameter s1 ->
  interpolate s0 s1 d <= interpolate s0 s1 d'.
Proof.
  intros Hgap Hdd Hp. unfold interpolate.
  assert (Hinv : 0 <= / (distance s1 - distance s0)).
  { apply Qlt_le_weak, Qinv_lt_0_compat. lra. }
  assert (Hf : (d - distance s0) / (distance s1 - distance s0)
               <= (d' - distance s0) / (distance s1 - distance s0)).
  { unfold Qdiv. apply Qmult_le_compat_r; [lra | assumption]. }
  nra.
Qed.

(** The three regions of [getParameterForDistance] on a well-formed
    animator. *)
Lemma getParameterForDistance_cases (a : CurveAnimator) (d : Q) :
  well_formed a ->
  (d <= 0 /\ getParameterForDistance a d = Ok 0) \/
  (0 < d /\ totalLength a <= d /\ getParameterForDistance a d = Ok 1) \/
  (0 < d /\ d < totalLength a /\
   exists l s0 s1,
     nth_error (arcLengthTable a) l = Some s0 /\
     nth_error (arcLengthTable a) (S l) = Some s1 /\
     distance s0 < d /\ d <= distance s1 /\
     getParameterForDistance a d = Ok (interpolate s0 s1 d)).
Proof.
  intros Hwf.
  destruct (Qlt_le_dec 0 d) as [Hpos | Hneg].
  - destruct (Qlt_le_dec d (totalLength a)) as [Hin | Hout].
    + right; right. split; [assumption |]. split; [assumption |].
      now apply getParameterForDistance_interior.
    + right; left. split; [assumption |]. split; [assumption |].
      unfold getParameterForDistance.
      destruct (Qle_bool d 0) eqn:E0.
      { apply Qle_bool_iff in E0. lra. }
      apply Qle_bool_iff in Hout. now rewrite Hout.
  - left. split; [assumption |].
    unfold getParameterForDistance.
    apply Qle_bool_iff in Hneg. now rewrite Hneg.
Qed.

(** The function returns, and its value is a parameter of [0, 1]. *)
Lemma getParameterForDistance_range (a : CurveAnimator) (d : Q) :
  well_formed a ->
  exists p, getParameterForDistance a d = Ok p /\ 0 <= p <= 1.
Proof.
  intros Hwf.
  destruct (getParameterForDistance_cases a d Hwf)
    as [[_ ->] | [(_ & _ & ->) | (_ & _ & l & s0 & s1 & H0 & H1 & Hd0 & Hd1 & ->)]].
  - exists 0. split; [reflexivity | lra].
  - exists 1. split; [reflexivity | lra].
  - exists (interpolate s0 s1 d). split; [reflexivity |].
    destruct Hwf as [_ (Hfirst & Hds & Hps & Hp1 & _)].
    assert (Hp : parameter s0 <= parameter s1)
      by (apply (Hps l (S l)); [lia | assumption | assumption]).
    pose proof (interpolate_between s0 s1 d Hd0 Hd1 Hp) as [Hlo Hhi].
    pose proof (Hps 0%nat l _ s0 (Nat.le_0_l l) Hfirst H0) as Hp0.
    pose proof (Hp1 _ _ H1) as Hs1. simpl in Hp0.
    split; lra.
Qed.

(** The function does not decrease. *)
Lemma getParameterForDistance_mono (a : CurveAnimator) (d d' p p' : Q) :
  well_formed a -> d <= d' ->
  getParameterForDistance a d = Ok p ->
  getParameterForDistance a d' = Ok p' ->
  p <= p'.
Proof.
  intros Hwf Hdd Hp Hp'.
  destruct (getParameterForDistance_range a d Hwf) as (q & Hq & Hq0 & Hq1).
  destruct (getParameterForDistance_range a d' Hwf) as (q' & Hq' & Hq0' & Hq1').
  rewrite Hp in Hq. injection Hq as <-.
  rewrite Hp' in Hq'. injection Hq' as <-.
  destruct (getParameterForDistance_cases a d Hwf)
    as [[_ E] | [(Hd & HL & E) | (Hd & HL & l & s0 & s1 & H0 & H1 & Hd0 & Hd1 & E)]];
    rewrite Hp in E; injection E as ->.
  - assumption.
  - destruct (getParameterForDistance_cases a d' Hwf)
      as [[Hd' _] | [(_ & _ & E') | (_ & HL' & _)]]; [lra | | lra].
    rewrite Hp' in E'. injection E' as ->. lra.
  - destruct (getParameterForDistance_cases a d' Hwf)
      as [[Hd' _] | [(_ & _ & E') |
          (_ & _ & l' & s0' & s1' & H0' & H1' & Hd0' & Hd1' & E')]];
      [lra | | ]; rewrite Hp' in E'; injection E' as ->.
    + assumption.
    + destruct Hwf as [_ (_ & Hds & Hps & _ & _)].
      assert (Hpl : parameter s0 <= parameter s1)
        by (apply (Hps l (S l)); [lia | assumption | assumption]).
      assert (Hpl' : parameter s0' <= parameter s1')
        by (apply (Hps l' (S l')); [lia | assumption | assumption]).
      pose proof (interpolate_between s0 s1 d Hd0 Hd1 Hpl) as [_ Hhi].
      pose proof (interpolate_between s0' s1' d' Hd0' Hd1' Hpl') as [Hlo' _].
      destruct (Nat.lt_trichotomy l l') as [Hlt | [Heq | Hgt]].
      * (* [d'] falls in a later segment *)
        assert (parameter s1 <= parameter s0')
          by (apply (Hps (S l) l'); [lia | assumption | assumption]).
        lra.
      * (* the same segment *)
        subst l'. rewrite H0 in H0'. injection H0' as <-.
        rewrite H1 in H1'. injection H1' as <-.
        apply interpolate_mono; [lra | assumption | assumption].
      * (* an earlier segment: impossible, the distances are sorted *)
        assert (distance s1' <= distance s0)
          by (apply (Hds (S l') l); [lia | assumption | assumption]).
        lra.
Qed.

(* ------------------------------------------------------------------ *)
(** ** The remainder *)

Lemma Qeq_bool_false (a b : Q) : ~ a == b -> Qeq_bool a b = false.
Proof.
  intros H. destruct (Qeq_bool a b) eqn:E; [| reflexivity].
  apply Qeq_bool_iff in E. contradiction.
Qed.

(** For [0 < b <= a], [a % b] is [a] less a whole number of [b]s, and lies
    in [0, b). *)
Lemma js_rem_wraps (a b : Q) :
  0 < b -> b <= a ->
  exists (k : Z) (r : Q),
    js_rem a b = Ok r /\ r == a - b * inject_Z k /\ 0 <= r /\ r < b.
Proof.
  intros Hb Hab. unfold js_rem.
  rewrite Qeq_bool_false by lra.
  assert (Hq : 0 <= a / b).
  { apply Qle_shift_div_l; [assumption | lra]. }
  unfold Qtrunc. apply Qle_bool_iff in Hq. rewrite Hq.
  exists (Qfloor (a / b)), (a - b * inject_Z (Qfloor (a / b))).
  split; [reflexivity |]. split; [reflexivity |].
  pose proof (Qfloor_le (a / b)) as Hlo.
  pose proof (Qlt_floor (a / b)) as Hhi.
  rewrite inject_Z_plus in Hhi.
  assert (Hdiv : a / b * b == a) by (field; lra).
  set (q := inject_Z (Qfloor (a / b))) in *.
  set (x := a / b) in *.
  change (inject_Z 1) with 1 in Hhi.
  split; nra.
Qed.

(* ------------------------------------------------------------------ *)
(** ** The methods *)

Lemma same_curve_refl (a : CurveAnimator) : same_curve a a.
Proof. repeat split. Qed.

Lemma same_curve_trans (a b c : CurveAnimator) :
  same_curve a b -> same_curve b c -> same_curve a c.
Proof.
  unfold same_curve. intros H1 H2.
  repeat match goal with H : _ /\ _ |- _ => destruct H end.
  repeat split; congruence.
Qed.

Lemma same_curve_well_formed (a b : CurveAnimator) :
  same_curve a b -> well_formed a -> well_formed b.
Proof.
  intros (Hp & _ & _ & _ & _ & _ & _ & Ht & HL) [HN Hinv].
  unfold well_formed. now rewrite <- Hp, <- Ht, <- HL.
Qed.

(** The search reads the table and the total length only. *)
Lemma getParameterForDistance_same (a b : CurveAnimator) (d : Q) :
  same_curve a b ->
  getParameterForDistance b d = getParameterForDistance a d.
Proof.
  intros (_ & _ & _ & _ & _ & _ & _ & Ht & HL).
  unfold getParameterForDistance. now rewrite Ht, HL.
Qed.

Ltac bind_inv H :=
  match type of H with
  | bind ?m _ = Ok _ =>
      let E := fresh "E" in
      destruct m eqn:E; simpl in H; try discriminate H
  end.

Lemma advance_distance_inv (a a1 : CurveAnimator) (dt : Q) :
  advance_distance a dt = Ok a1 ->
  same_curve a a1 /\ isPlaying a1 = isPlaying a /\ _target a1 = _target a.
Proof.
  unfold advance_distance. intros H.
  bind_inv H. bind_inv H. injection H as <-.
  destruct (Qle_bool _ _) in E; [destruct (loop _) in E |].
  - bind_inv E. injection E as <-. repeat split.
  - injection E as <-. repeat split.
  - injection E as <-. repeat split.
Qed.

Lemma advance_time_inv (a a1 : CurveAnimator) (dt : Q) :
  advance_time a dt = Ok a1 ->
  same_curve a a1 /\ isPlaying a1 = isPlaying a /\ _target a1 = _target a /\
  distanceTraveled a1 = distanceTraveled a.
Proof.
  unfold advance_time. intros H.
  bind_inv H.
  destruct (Qle_bool _ _) in H; [destruct (loop _) in H |].
  - simpl in H. injection H as <-. repeat split.
  - injection H as <-. repeat split.
  - injection H as <-. repeat split.
Qed.

(** The tail of [update] moves the attached object only; it returns the
    point at the current progress. *)
Lemma place_inv (a a' : CurveAnimator) (r : option Vector3) :
  place a = Ok (a', r) ->
  same_curve a a' /\ progress a' = progress a /\
  distanceTraveled a' = distanceTraveled a /\
  isPlaying a' = isPlaying a /\ isComplete a' = isComplete a /\
  exists position, r = Some position /\
                   getPoint (points a) (progress a) = Ok position.
Proof.
  unfold place. intros H.
  bind_inv H. bind_inv H. injection H as <- <-.
  destruct (_target a) as [o |].
  - destruct (orientToDirection a).
    + bind_inv E0. injection E0 as <-. repeat split. eauto.
    + injection E0 as <-. repeat split. eauto.
  - injection E0 as <-. repeat split. eauto.
Qed.

Lemma place_total (a : CurveAnimator) :
  (2 <= List.length (points a))%nat ->
  exists a' position, place a = Ok (a', Some position).
Proof.
  intros HN. unfold place.
  destruct (getPoint_total (points a) (progress a) HN) as [position ->].
  simpl. destruct (_target a) as [o |]; [| simpl; eauto].
  destruct (orientToDirection a); [| simpl; eauto].
  destruct (getPoint_total (points a)
              (Math_min 1 (progress a + lookAheadDistance a)) HN)
    as [ahead ->].
  simpl. eauto.
Qed.

(** [update] off the playing state: nothing changes, nothing is returned. *)
Lemma update_noop (a : CurveAnimator) (dt : Q) :
  isPlaying a = false \/ isComplete a = true -> update a dt = Ok (a, None).
Proof.
  intros [H | H]; unfold update; rewrite H; [reflexivity |].
  now rewrite orb_true_r.
Qed.

(** [update] in the playing state: the counters advance, then the position
    is read. *)
Lemma update_playing (a : CurveAnimator) (dt : Q) :
  isPlaying a = true -> isComplete a = false ->
  update a dt =
    (a1 <- (if String.eqb (mode a) "train"
            then advance_distance a dt else advance_time a dt) ;;
     place a1).
Proof. intros Hp Hc. unfold update. now rewrite Hp, Hc. Qed.

Lemma update_inv (a a' : CurveAnimator) (dt : Q) (r : option Vector3) :
  update a dt = Ok (a', r) ->
  same_curve a a' /\ isPlaying a' = isPlaying a.
Proof.
  unfold update. intros H.
  destruct (negb (isPlaying a) || isComplete a).
  - injection H as <- <-. split; [apply same_curve_refl | reflexivity].
  - bind_inv H. apply place_inv in H as (Hs & _ & _ & Hp & _).
    destruct (String.eqb (mode a) "train").
    + apply advance_distance_inv in E as (Hs1 & Hp1 & _).
      split; [now apply same_curve_trans with a0 | congruence].
    + apply advance_time_inv in E as (Hs1 & Hp1 & _).
      split; [now apply same_curve_trans with a0 | congruence].
Qed.

Section Reachable.

Variable sqrt : Q -> Q.
Hypothesis sqrt_nonneg : forall q, 0 <= sqrt q.

(** The constructor returns an animator for two points or more only. *)
Lemma constructor_Ok_two_points (pts : list Vector3) (o : Options.t)
    (a : CurveAnimator) :
  constructor sqrt pts o = Ok a -> (2 <= List.length pts)%nat.
Proof.
  intros H. destruct (le_lt_dec 2 (List.length pts)) as [Hle | Hlt];
    [assumption |].
  unfold constructor, _buildArcLengthTable in H.
  rewrite (getPoint_too_few pts 0 Hlt) in H. discriminate.
Qed.

(** Every animator a program can hold is well formed. *)
Lemma reachable_well_formed (a : CurveAnimator) :
  reachable sqrt a -> well_formed a.
Proof.
  induction 1 as [pts o a Hnew | a o _ IH | a _ IH | a _ IH | a _ IH
                  | a _ IH | a dt a' r _ IH Hup | a v _ IH].
  - eapply constructor_well_formed; try eassumption.
    eapply constructor_Ok_two_points; eassumption.
  - exact IH.
  - exact IH.
  - exact IH.
  - exact IH.
  - exact IH.
  - apply update_inv in Hup as [Hs _].
    eapply same_curve_well_formed; eassumption.
  - exact IH.
Qed.

End Reachable.

(* ------------------------------------------------------------------ *)
(** ** One tick *)

Ltac fields :=
  cbn [points speed mode duration loop orientToDirection lookAheadDistance
       arcLengthTable totalLength progress distanceTraveled isPlaying
       isComplete _target set_progress set_distanceTraveled set_isPlaying
       set_isComplete set_target bind] in *.

(** Distance mode, the new distance short of the end: no wrap, no clamp. *)
Lemma advance_distance_below (a : CurveAnimator) (dt : Q) :
  well_formed a ->
  distanceTraveled a + speed a * dt < totalLength a ->
  exists p,
    advance_distance a dt =
      Ok (set_progress p
            (set_distanceTraveled (distanceTraveled a + speed a * dt) a)) /\
    0 <= p <= 1.
Proof.
  intros Hwf Hlt. unfold advance_distance. fields.
  apply Qle_bool_false in Hlt. rewrite Hlt. fields.
  set (a1 := set_distanceTraveled _ a).
  destruct (getParameterForDistance_range a1 (distanceTraveled a + speed a * dt))
    as (p & Hp & Hrange); [exact Hwf |].
  subst a1. fields. rewrite Hp. fields. eauto.
Qed.


(** Distance mode with loop on a curve of positive length: wrap. *)
Lemma advance_distance_wrap (a : CurveAnimator) (dt : Q) :
  well_formed a -> loop a = true -> 0 < totalLength a ->
  totalLength a <= distanceTraveled a + speed a * dt ->
  exists (k : Z) (r p : Q),
    advance_distance a dt =
      Ok (set_progress p
            (set_distanceTraveled r
               (set_distanceTraveled
                  (distanceTraveled a + speed a * dt) a))) /\
    r == distanceTraveled a + speed a * dt - totalLength a * inject_Z k /\
    0 <= r /\ r < totalLength a /\ 0 <= p <= 1.
Proof.
  intros Hwf Hloop Hpos Hge. unfold advance_distance. fields.
  destruct (js_rem_wraps _ _ Hpos Hge) as (k & r & Hrem & Hr & Hr0 & HrL).
  apply Qle_bool_iff in Hge. rewrite Hge, Hloop, Hrem. fields.
  set (a1 := set_distanceTraveled r _).
  destruct (getParameterForDistance_range a1 r) as (p & Hp & Hp0 & Hp1);
    [exact Hwf |].
  subst a1. fields. rewrite Hp. fields.
  exists k, r, p. repeat split; assumption.
Qed.

(** Distance mode with loop on a curve of length zero: the wrap takes a
    remainder by zero. *)
Lemma advance_distance_degenerate (a : CurveAnimator) (dt : Q) :
  loop a = true -> totalLength a == 0 ->
  0 <= distanceTraveled a + speed a * dt ->
  advance_distance a dt = NonFinite.
Proof.
  intros Hloop HL Hge. unfold advance_distance. fields.
  assert (Hcmp : Qle_bool (totalLength a) (distanceTraveled a + speed a * dt)
                 = true) by (apply Qle_bool_iff; lra).
  rewrite Hcmp, Hloop. unfold js_rem. fields.
  apply Qeq_bool_iff in HL. now rewrite HL.
Qed.

(** So a looping animator over a curve of length zero, once playing in
    distance mode, fails at every tick that does not move it backwards. *)
Lemma update_looping_zero_length (a : CurveAnimator) (dt : Q) :
  isPlaying a = true -> isComplete a = false -> mode a = "train"%string ->
  loop a = true -> totalLength a == 0 ->
  0 <= distanceTraveled a + speed a * dt ->
  update a dt = NonFinite.
Proof.
  intros Hplay Hnc Hmode Hloop HL Hge.
  rewrite (update_playing a dt Hplay Hnc), Hmode. simpl String.eqb.
  now rewrite (advance_distance_degenerate a dt Hloop HL Hge).
Qed.

(** Time mode with a duration other than zero. *)
Lemma advance_time_spec (a : CurveAnimator) (dt : Q) :
  ~ duration a == 0 ->
  let p := progress a + dt / duration a in
  advance_time a dt =
    if Qle_bool 1 p then
      if loop a
      then Ok (set_progress (p - 1 * inject_Z (Qtrunc (p / 1)))
                 (set_progress p a))
      else Ok (set_isComplete true (set_progress 1 (set_progress p a)))
    else Ok (set_progress p a).
Proof.
  intros Hd p. unfold advance_time, js_div.
  rewrite (Qeq_bool_false _ _ Hd). fields. fold p.
  destruct (Qle_bool 1 p); [| reflexivity].
  destruct (loop a); reflexivity.
Qed.

(* ------------------------------------------------------------------ *)
(** ** The spline through its control points *)

(** C1 (in exact arithmetic).  For two control points or more the spline
    passes through every control point: [getPoint(i / (N - 1))] is control
    point [i] for each [i] in [0 .. N-1]; in particular [getPoint(0)] is
    the first control point and [getPoint(1)] the last one. *)
Theorem spline_through_control_points (pts : list Vector3) :
  (2 <= List.length pts)%nat ->
  (forall i c, nth_error pts i = Some c ->
     exists p,
       getPoint pts (inject_Z (Z.of_nat i) /
                     inject_Z (Z.of_nat (List.length pts) - 1)) = Ok p /\
       Veq p c) /\
  (forall c, nth_error pts 0 = Some c ->
     exists p, getPoint pts 0 = Ok p /\ Veq p c) /\
  (forall c, nth_error pts (List.length pts - 1) = Some c ->
     exists p, getPoint pts 1 = Ok p /\ Veq p c).
Proof.
  intros HN.
  assert (Hn : 0 < inject_Z (Z.of_nat (List.length pts) - 1)).
  { change 0 with (inject_Z 0). rewrite <- Zlt_Qlt. lia. }
  repeat split.
  - intros i c Hc.
    assert (Hi : (i < List.length pts)%nat)
      by (apply nth_error_Some; congruence).
    apply getPoint_at_knot with (i := i); try assumption.
    + split.
      * apply Qle_shift_div_l; [assumption |].
        rewrite Qmult_0_l. change 0 with (inject_Z 0).
        rewrite <- Zle_Qle. lia.
      * apply Qle_shift_div_r; [assumption |].
        rewrite Qmult_1_l, <- Zle_Qle. lia.
    + field. lra.
  - intros c Hc.
    apply getPoint_at_knot with (i := 0%nat); try assumption.
    + split; [apply Qle_refl | discriminate].
    + apply Qmult_0_l.
  - intros c Hc.
    apply getPoint_at_knot with (i := (List.length pts - 1)%nat);
      try assumption.
    + split; [discriminate | apply Qle_refl].
    + rewrite Qmult_1_l.
      now replace (Z.of_nat (List.length pts - 1))
        with (Z.of_nat (List.length pts) - 1)%Z by lia.
Qed.

Lemma spline_through_control_points_witness :
  exists p, getPoint line_points (1 # 3) = Ok p /\ Veq p (mkVector3 1 0 0).
Proof.
  destruct (spline_through_control_points line_points) as [Hknots _].
  - simpl. lia.
  - apply (Hknots 1%nat). reflexivity.
Defined.

(** C1, on doubles.  With the control points [(0.1, 0, 0)] and
    [(0.7, 0, 0)], [getPoint(1)] returns a point whose [x] is not the [x]
    of the last control point: the blend is rounded at each operation. *)
Lemma getPoint_at_1_is_rounded :
  exists p,
    Binary64.getPoint Binary64.two_points 1 = Ok p /\
    PrimFloat.eqb (Binary64.x p) (Binary64.tenths 7) = false /\
    PrimFloat.ltb (Binary64.tenths 7) (Binary64.x p) = true.
Proof.
  eexists. split; [vm_compute; reflexivity |].
  split; vm_compute; reflexivity.
Qed.

(* ------------------------------------------------------------------ *)
(** ** Construction *)

(** C8 (amended).  Constructing an animator with fewer than two control
    points fails at construction time, whatever the options, and no
    animator comes to exist.  What is thrown is the [TypeError] of the
    first [getPoint(0)] of [_buildArcLengthTable], which reads a coordinate
    of a control point that is not there; the constructor tests nothing
    and reports no invalid configuration. *)
Theorem constructor_needs_two_points (sqrt : Q -> Q) (pts : list Vector3)
    (o : Options.t) :
  (List.length pts < 2)%nat ->
  getPoint pts 0 = TypeError /\
  _buildArcLengthTable sqrt pts (Options.arcLengthSegments o) = TypeError /\
  constructor sqrt pts o = TypeError.
Proof.
  intros HN. unfold constructor, _buildArcLengthTable.
  rewrite (getPoint_too_few pts 0 HN). repeat split.
Qed.

Lemma constructor_needs_two_points_witness :
  getPoint [mkVector3 1 2 3] 0 = TypeError /\
  _buildArcLengthTable Qsqrt [mkVector3 1 2 3] 200 = TypeError /\
  constructor Qsqrt [mkVector3 1 2 3] Options.defaults = TypeError.
Proof.
  apply (constructor_needs_two_points Qsqrt [mkVector3 1 2 3]
           Options.defaults).
  simpl. lia.
Defined.

(** C8, as stated, on a single control point.  A construction that
    reported the invalid configuration would end in that report; the
    constructor ends in the [TypeError] that [getPoint(0)] throws on this
    array, where [segment] is [-1] and [pts[-1]] is [undefined]. *)
Lemma constructor_reports_no_invalid_configuration :
  checked_constructor Qsqrt [mkVector3 1 2 3] Options.defaults
    = InvalidConfiguration /\
  js_index [mkVector3 1 2 3] (-1) = None /\
  getPoint [mkVector3 1 2 3] 0 = TypeError /\
  constructor Qsqrt [mkVector3 1 2 3] Options.defaults = TypeError /\
  Ran (constructor Qsqrt [mkVector3 1 2 3] Options.defaults)
    <> checked_constructor Qsqrt [mkVector3 1 2 3] Options.defaults.
Proof.
  repeat split; try reflexivity. discriminate.
Qed.

Lemma Qsqrt_nonneg (q : Q) : 0 <= Qsqrt q.
Proof.
  unfold Qsqrt, Qle. simpl. rewrite Z.mul_1_r. apply Z.sqrt_nonneg.
Qed.

Section Traversal.

Variable sqrt : Q -> Q.
Hypothesis sqrt_nonneg : forall q, 0 <= sqrt q.

(** C6.  For two control points or more and a segment count [S >= 1], the
    table built at construction has [S + 1] entries; entry [i] has the
    parameter [i / S]; the first entry is [(0, 0)]; the cumulative
    distances do not decrease; the last entry is [(1, totalLength)]. *)
Theorem arc_length_table_shape (pts : list Vector3) (o : Options.t) :
  (2 <= List.length pts)%nat ->
  (1 <= Options.arcLengthSegments o)%Z ->
  exists a,
    constructor sqrt pts o = Ok a /\
    let segments := Options.arcLengthSegments o in
    let table := arcLengthTable a in
    List.length table = S (Z.to_nat segments) /\
    (forall i, (i <= Z.to_nat segments)%nat ->
       exists s, nth_error table i = Some s /\
                 parameter s == inject_Z (Z.of_nat i) / inject_Z segments) /\
    nth_error table 0 = Some (mkSample 0 0) /\
    distances_sorted table /\
    (exists s, nth_error table (Z.to_nat segments) = Some s /\
               parameter s == 1 /\ distance s = totalLength a).
Proof.
  intros HN HS.
  destruct (buildArcLengthTable_spec sqrt sqrt_nonneg pts
              (Options.arcLengthSegments o) HN)
    as (table & total & Hrun & Hlen & H0 & Hgrid & Hsorted & _).
  destruct (constructor_spec sqrt sqrt_nonneg pts o HN)
    as (table' & last & Hrun' & Hlast & Hnew).
  rewrite Hrun in Hrun'. injection Hrun' as <-.
  eexists. split; [exact Hnew |]. simpl.
  split; [exact Hlen |].
  split.
  { intros i Hi.
    destruct (nth_error table i) as [s |] eqn:Hs.
    - exists s. split; [reflexivity | now apply Hgrid].
    - apply nth_error_None in Hs. lia. }
  split; [exact H0 |]. split; [exact Hsorted |].
  exists last.
  replace (Z.to_nat (Options.arcLengthSegments o))
    with (List.length table - 1)%nat by lia.
  split; [exact Hlast |]. split; [| reflexivity].
  rewrite (Hgrid _ _ Hlast).
  replace (Z.of_nat (List.length table - 1))
    with (Options.arcLengthSegments o) by lia.
  field.
  change 0 with (inject_Z 0). rewrite inject_Z_injective. lia.
Qed.

(** C2 (amended).  On every animator a program can hold: a distance
    [d <= 0] maps to 0; a distance [d > 0] with [d >= totalLength] maps
    to 1; every distance maps to a parameter of [0, 1]; and the map does
    not decrease. *)
Theorem getParameterForDistance_contract (a : CurveAnimator) :
  reachable sqrt a ->
  (forall d, d <= 0 -> getParameterForDistance a d = Ok 0) /\
  (forall d, 0 < d -> totalLength a <= d ->
             getParameterForDistance a d = Ok 1) /\
  (forall d, exists p, getParameterForDistance a d = Ok p /\ 0 <= p <= 1) /\
  (forall d d', d <= d' ->
     exists p p', getParameterForDistance a d = Ok p /\
                  getParameterForDistance a d' = Ok p' /\ p <= p').
Proof.
  intros Hreach.
  pose proof (reachable_well_formed sqrt sqrt_nonneg a Hreach) as Hwf.
  repeat split.
  - intros d Hd.
    destruct (getParameterForDistance_cases a d Hwf)
      as [[_ E] | [(H & _) | (H & _)]]; [exact E | lra | lra].
  - intros d Hd HL.
    destruct (getParameterForDistance_cases a d Hwf)
      as [[H _] | [(_ & _ & E) | (_ & H & _)]]; [lra | exact E | lra].
  - intros d. now apply getParameterForDistance_range.
  - intros d d' Hdd.
    destruct (getParameterForDistance_range a d Hwf) as (p & Hp & _).
    destruct (getParameterForDistance_range a d' Hwf) as (p' & Hp' & _).
    exists p, p'. split; [exact Hp |]. split; [exact Hp' |].
    now apply (getParameterForDistance_mono a d d').
Qed.

(** C7 (amended).  On a curve of length zero, a query [d <= 0] resolves to
    parameter 0 and a query [d > 0] to parameter 1; no query divides by
    zero. *)
Theorem zero_length_queries (a : CurveAnimator) (d : Q) :
  reachable sqrt a -> totalLength a == 0 ->
  (d <= 0 -> getParameterForDistance a d = Ok 0) /\
  (0 < d -> getParameterForDistance a d = Ok 1) /\
  getParameterForDistance a d <> NonFinite.
Proof.
  intros Hreach HL.
  pose proof (reachable_well_formed sqrt sqrt_nonneg a Hreach) as Hwf.
  destruct (getParameterForDistance_cases a d Hwf)
    as [[H E] | [(H & _ & E) | (H & H' & _)]].
  - rewrite E. repeat split; [lra | discriminate].
  - rewrite E. repeat split; [lra | discriminate].
  - lra.
Qed.

(** C3.  Distance mode, playing and not complete: when the advanced
    distance stays strictly below [totalLength], [update(dt)] returns a
    position and sets [distanceTraveled] to
    [distanceTraveled + speed * dt]. *)
Theorem update_distance_constant_speed (a : CurveAnimator) (dt : Q) :
  reachable sqrt a ->
  mode a = "train"%string -> isPlaying a = true -> isComplete a = false ->
  distanceTraveled a + speed a * dt < totalLength a ->
  exists a' position,
    update a dt = Ok (a', Some position) /\
    distanceTraveled a' = distanceTraveled a + speed a * dt.
Proof.
  intros Hreach Hmode Hplay Hnc Hlt.
  pose proof (reachable_well_formed sqrt sqrt_nonneg a Hreach) as Hwf.
  rewrite (update_playing a dt Hplay Hnc), Hmode. simpl String.eqb.
  destruct (advance_distance_below a dt Hwf Hlt) as (p & -> & _). fields.
  set (a1 := set_progress p _).
  destruct (place_total a1) as (a' & position & Hplace); [apply Hwf |].
  exists a', position. split; [exact Hplace |].
  apply place_inv in Hplace as (_ & _ & Hd & _). exact Hd.
Qed.


(** With loop, on a curve of positive length (distance mode) or with a
    duration other than zero (time mode), a tick keeps the counters within
    their bounds and does not complete; a wrapped distance is the advanced
    one less a whole number of lengths. *)
Lemma update_looping_keeps_bounds (a : CurveAnimator) (dt : Q) :
  reachable sqrt a -> loop a = true -> within_bounds a ->
  (mode a = "train"%string -> 0 < totalLength a) ->
  (mode a <> "train"%string -> ~ duration a == 0) ->
  exists a' r, update a dt = Ok (a', r) /\ within_bounds a'.
Proof.
  intros Hreach Hloop (HdL & Hp1 & Hnc) Htrain Htime.
  pose proof (reachable_well_formed sqrt sqrt_nonneg a Hreach) as Hwf.
  destruct (isPlaying a) eqn:Hplay.
  2:{ exists a, None. split; [apply update_noop; now left |].
      repeat split; assumption. }
  rewrite (update_playing a dt Hplay Hnc).
  destruct (String.eqb_spec (mode a) "train") as [Hmode | Hmode].
  - specialize (Htrain Hmode).
    destruct (Qlt_le_dec (distanceTraveled a + speed a * dt) (totalLength a))
      as [Hlt | Hge].
    + destruct (advance_distance_below a dt Hwf Hlt) as (p & -> & Hp0 & Hp1').
      fields. set (a1 := set_progress p _).
      destruct (place_total a1) as (a' & position & Hplace); [apply Hwf |].
      exists a', (Some position). split; [exact Hplace |].
      apply place_inv in Hplace as (Hs & Hp & Hd & _ & Hc & _).
      destruct Hs as (_ & _ & _ & _ & _ & _ & _ & _ & HL).
      unfold within_bounds. rewrite Hp, Hd, Hc, <- HL. subst a1. fields.
      repeat split; [lra | assumption | assumption].
    + destruct (advance_distance_wrap a dt Hwf Hloop Htrain Hge)
        as (k & r & p & -> & _ & _ & Hr & Hp0 & Hp1').
      fields. set (a1 := set_progress p _).
      destruct (place_total a1) as (a' & position & Hplace); [apply Hwf |].
      exists a', (Some position). split; [exact Hplace |].
      apply place_inv in Hplace as (Hs & Hp & Hd & _ & Hc & _).
      destruct Hs as (_ & _ & _ & _ & _ & _ & _ & _ & HL).
      unfold within_bounds. rewrite Hp, Hd, Hc, <- HL. subst a1. fields.
      repeat split; [lra | assumption | assumption].
  - rewrite (advance_time_spec a dt (Htime Hmode)), Hloop.
    destruct (Qle_bool 1 (progress a + dt / duration a)) eqn:Hcmp; fields.
    + apply Qle_bool_iff in Hcmp.
      destruct (js_rem_wraps (progress a + dt / duration a) 1)
        as (k & r & Hrem & _ & _ & Hr); [lra | assumption |].
      injection Hrem as <-.
      set (a1 := set_progress _ (set_progress _ a)).
      destruct (place_total a1) as (a' & position & Hplace); [apply Hwf |].
      exists a', (Some position). split; [exact Hplace |].
      apply place_inv in Hplace as (Hs & Hp & Hd & _ & Hc & _).
      destruct Hs as (_ & _ & _ & _ & _ & _ & _ & _ & HL).
      unfold within_bounds. rewrite Hp, Hd, Hc, <- HL. subst a1. fields.
      repeat split; [assumption | lra | assumption].
    + apply Qle_bool_false in Hcmp.
      set (a1 := set_progress _ a).
      destruct (place_total a1) as (a' & position & Hplace); [apply Hwf |].
      exists a', (Some position). split; [exact Hplace |].
      apply place_inv in Hplace as (Hs & Hp & Hd & _ & Hc & _).
      destruct Hs as (_ & _ & _ & _ & _ & _ & _ & _ & HL).
      unfold within_bounds. rewrite Hp, Hd, Hc, <- HL. subst a1. fields.
      repeat split; [assumption | lra | assumption].
Qed.

(** The same along a run of ticks. *)
Lemma updates_looping_keep_bounds (dts : list Q) :
  forall a : CurveAnimator,
    reachable sqrt a -> loop a = true -> within_bounds a ->
    (mode a = "train"%string -> 0 < totalLength a) ->
    (mode a <> "train"%string -> ~ duration a == 0) ->
    exists a', updates a dts = Ok a' /\ within_bounds a'.
Proof.
  induction dts as [| dt dts IH]; intros a Hreach Hloop Hin Htrain Htime.
  - exists a. split; [reflexivity | assumption].
  - destruct (update_looping_keeps_bounds a dt Hreach Hloop Hin Htrain Htime)
      as (a1 & r & Hup & Hin1).
    simpl. rewrite Hup. simpl.
    pose proof (update_inv _ _ _ _ Hup)
      as [(_ & _ & Hm & Hd & Hl & _ & _ & _ & HL) _].
    apply IH.
    + eapply reach_update; eassumption.
    + congruence.
    + assumption.
    + rewrite <- Hm, <- HL. assumption.
    + rewrite <- Hm, <- Hd. assumption.
Qed.

End Traversal.

(* ------------------------------------------------------------------ *)
(** ** Sample animators: facts *)

Lemma line_reachable : reachable Qsqrt line.
Proof. apply (reach_new Qsqrt line_points coarse). vm_compute. reflexivity. Qed.

Lemma dot_reachable : reachable Qsqrt dot.
Proof. apply (reach_new Qsqrt same_point coarse). vm_compute. reflexivity. Qed.

Lemma dot_looping_reachable : reachable Qsqrt dot_looping.
Proof.
  apply (reach_new Qsqrt same_point coarse_looping). vm_compute. reflexivity.
Qed.

Lemma line_timed_reachable : reachable Qsqrt line_timed.
Proof.
  apply (reach_new Qsqrt line_points coarse_timed). vm_compute. reflexivity.
Qed.

(* ------------------------------------------------------------------ *)
(** ** Witnesses and counterexamples *)

Lemma arc_length_table_shape_witness :
  exists a,
    constructor Qsqrt line_points coarse = Ok a /\
    List.length (arcLengthTable a) = 5%nat /\
    (forall i, (i <= 4)%nat ->
       exists s, nth_error (arcLengthTable a) i = Some s /\
                 parameter s == inject_Z (Z.of_nat i) / 4) /\
    nth_error (arcLengthTable a) 0 = Some (mkSample 0 0) /\
    distances_sorted (arcLengthTable a) /\
    (exists s, nth_error (arcLengthTable a) 4 = Some s /\
               parameter s == 1 /\ distance s = totalLength a).
Proof.
  apply (arc_length_table_shape Qsqrt Qsqrt_nonneg line_points coarse).
  - simpl. lia.
  - simpl. lia.
Defined.

Lemma getParameterForDistance_contract_witness :
  (forall d, d <= 0 -> getParameterForDistance line d = Ok 0) /\
  (forall d, 0 < d -> totalLength line <= d ->
             getParameterForDistance line d = Ok 1) /\
  (forall d, exists p, getParameterForDistance line d = Ok p /\ 0 <= p <= 1) /\
  (forall d d', d <= d' ->
     exists p p', getParameterForDistance line d = Ok p /\
                  getParameterForDistance line d' = Ok p' /\ p <= p').
Proof.
  exact (getParameterForDistance_contract Qsqrt Qsqrt_nonneg line
           line_reachable).
Defined.

(** C2, as stated, on the curve of length zero: the distance 0 is at or
    above [totalLength], yet it maps to 0, not to 1. *)
Lemma zero_length_distance_0_maps_to_0 :
  totalLength dot <= 0 /\
  getParameterForDistance dot 0 = Ok 0 /\
  ~ 0 == 1.
Proof.
  split; [vm_compute; discriminate |].
  split; [reflexivity | discriminate].
Qed.

Lemma zero_length_queries_witness :
  (1 <= 0 -> getParameterForDistance dot 1 = Ok 0) /\
  (0 < 1 -> getParameterForDistance dot 1 = Ok 1) /\
  getParameterForDistance dot 1 <> NonFinite.
Proof.
  apply (zero_length_queries Qsqrt Qsqrt_nonneg dot 1 dot_reachable).
  vm_compute. reflexivity.
Defined.

(** C7, as stated, on the curve of length zero: the distance 1 resolves to
    parameter 1, not 0; and a looping [update] takes the remainder by the
    zero length. *)
Lemma zero_length_query_maps_to_1 :
  totalLength dot == 0 /\
  getParameterForDistance dot 1 = Ok 1 /\
  totalLength dot_looping == 0 /\
  js_rem (distanceTraveled (play dot_looping) + speed dot_looping * 1)
         (totalLength dot_looping) = NonFinite /\
  update (play dot_looping) 1 = NonFinite.
Proof.
  repeat split; vm_compute; reflexivity.
Qed.

Lemma update_distance_constant_speed_witness :
  exists a' position,
    update (play line) (3 # 2) = Ok (a', Some position) /\
    distanceTraveled a' = distanceTraveled (play line) + speed (play line) * (3 # 2).
Proof.
  apply (update_distance_constant_speed Qsqrt Qsqrt_nonneg (play line) (3 # 2)).
  - apply reach_play, line_reachable.
  - reflexivity.
  - reflexivity.
  - reflexivity.
  - vm_compute. reflexivity.
Defined.


(* ------------------------------------------------------------------ *)
(** ** Pause and resume *)

(** C9 (amended).  [resume()] sets [isPlaying] to [true] in every state
    and changes nothing else: the control points, the options, the table,
    [totalLength], [progress], [distanceTraveled], [isComplete] and the
    attached object are the ones it found.  So an animator that is neither
    playing nor complete, paused or idle alike, goes to Playing; one that
    is playing already is left exactly as it is; one that is complete
    stays complete. *)
Theorem resume_sets_playing (a : CurveAnimator) :
  isPlaying (resume a) = true /\
  (points (resume a) = points a /\ speed (resume a) = speed a /\
   mode (resume a) = mode a /\ duration (resume a) = duration a /\
   loop (resume a) = loop a /\
   orientToDirection (resume a) = orientToDirection a /\
   lookAheadDistance (resume a) = lookAheadDistance a /\
   arcLengthTable (resume a) = arcLengthTable a /\
   totalLength (resume a) = totalLength a /\
   progress (resume a) = progress a /\
   distanceTraveled (resume a) = distanceTraveled a /\
   isComplete (resume a) = isComplete a /\
   _target (resume a) = _target a) /\
  (isPlaying a = true -> resume a = a) /\
  (isComplete a = false -> state_of (resume a) = Playing) /\
  (isComplete a = true -> state_of (resume a) = Complete).
Proof.
  split; [reflexivity |].
  split; [unfold resume, set_isPlaying; cbn; repeat split |].
  split; [| split].
  - destruct a. simpl. intros ->. reflexivity.
  - unfold state_of, resume. fields. now intros ->.
  - unfold state_of, resume. fields. now intros ->.
Qed.

(** C9, as stated, on an idle animator: fresh from the constructor it is
    at rest; [resume()] sets it playing, and the next [update] moves it. *)
Lemma resume_starts_idle_animator :
  state_of line = Halted /\
  state_of (resume line) = Playing /\
  update line 1 = Ok (line, None) /\
  exists a' position,
    update (resume line) 1 = Ok (a', Some position) /\
    distanceTraveled a' == 1.
Proof.
  split; [reflexivity |]. split; [reflexivity |]. split; [reflexivity |].
  eexists. eexists. split; [vm_compute; reflexivity |].
  vm_compute. reflexivity.
Qed.

(** C10.  [pause()] and [resume()] write [isPlaying] and nothing else:
    the curve, the options, the table, [totalLength], [progress],
    [distanceTraveled], [isComplete] and the attached object are as
    before, so a paused traversal resumes where it stopped; [play()] and
    [reset()] are the methods that zero the counters. *)
Theorem pause_resume_frame (a : CurveAnimator) :
  (same_curve a (pause a) /\ progress (pause a) = progress a /\
   distanceTraveled (pause a) = distanceTraveled a /\
   isComplete (pause a) = isComplete a /\ _target (pause a) = _target a /\
   isPlaying (pause a) = false) /\
  (same_curve a (resume a) /\ progress (resume a) = progress a /\
   distanceTraveled (resume a) = distanceTraveled a /\
   isComplete (resume a) = isComplete a /\ _target (resume a) = _target a /\
   isPlaying (resume a) = true) /\
  (isPlaying a = true -> resume (pause a) = a) /\
  (progress (play a) = 0 /\ distanceTraveled (play a) = 0) /\
  (progress (reset a) = 0 /\ distanceTraveled (reset a) = 0).
Proof.
  repeat split.
  destruct a. simpl. intros ->. reflexivity.
Qed.

(* ------------------------------------------------------------------ *)
(** ** Looping *)

(** C4, on a looping animator over a curve of length zero.  The first
    [update] reaches the wrap, [distanceTraveled %= totalLength], with
    [totalLength] zero: the traversal does not go on. *)
Lemma looping_zero_length_update_faults :
  loop dot_looping = true /\
  totalLength dot_looping == 0 /\
  advance_distance (play dot_looping) (1 # 60) = NonFinite /\
  updates (play dot_looping) [1 # 60] = NonFinite.
Proof.
  repeat split; vm_compute; reflexivity.
Qed.

(** On doubles the remainder by zero is [NaN], which the distance search
    hands on as the progress; [getPoint(NaN)] then reads [pts[NaN]], and
    the call throws. *)
Example getPoint_of_NaN_throws :
  Binary64.getPoint Binary64.two_points PrimFloat.nan = TypeError.
Proof. vm_compute. reflexivity. Qed.

(* ------------------------------------------------------------------ *)
(** ** The scenarios of the specification *)

(** Four collinear points, distance mode, speed 1: after [play()] and
    [update(1.5)] the distance is 1.5 and the position [(1.5, 0, 0)]. *)
Example scenario_constant_speed :
  totalLength line == 3 /\
  exists a' position,
    update (play line) (3 # 2) = Ok (a', Some position) /\
    distanceTraveled a' == 3 # 2 /\
    Veq position (mkVector3 (3 # 2) 0 0).
Proof.
  split; [vm_compute; reflexivity |].
  eexists. eexists. split; [vm_compute; reflexivity |].
  repeat split; vm_compute; reflexivity.
Qed.

(** The same curve with loop, speed 3: [update(2)] advances by two full
    lengths, and the distance wraps to 0 without completing. *)
Example scenario_loop_wraps :
  exists a' position,
    update (play line_fast_looping) 2 = Ok (a', Some position) /\
    distanceTraveled a' == 0 /\ isComplete a' = false.
Proof.
  eexists. eexists. split; [vm_compute; reflexivity |].
  split; vm_compute; reflexivity.
Qed.

(** Time mode, duration 2, no loop: two calls [update(1)] complete the
    traversal at progress 1; a third changes nothing and returns no
    position. *)
Example scenario_time_completes :
  exists a',
    updates (play line_timed) [1; 1] = Ok a' /\
    progress a' == 1 /\ isComplete a' = true /\
    update a' 1 = Ok (a', None).
Proof.
  eexists. split; [vm_compute; reflexivity |].
  repeat split; vm_compute; reflexivity.
Qed.

(* ------------------------------------------------------------------ *)
(** ** More on the spline evaluator *)

Lemma clamp_idempotent (t : Q) :
  Math_max 0 (Math_min 1 (Math_max 0 (Math_min 1 t))) =
  Math_max 0 (Math_min 1 t).
Proof.
  unfold Math_max, Math_min.
  destruct (Qle_bool 1 t) eqn:E1; simpl; [reflexivity |].
  destruct (Qle_bool 0 t) eqn:E0; simpl; [| reflexivity].
  now rewrite E1, E0.
Qed.

Lemma getPoint_clamped (pts : list Vector3) (t : Q) :
  getPoint pts (Math_max 0 (Math_min 1 t)) = getPoint pts t.
Proof. unfold getPoint. now rewrite clamp_idempotent. Qed.

Lemma clamp_low (t : Q) : t <= 0 -> Math_max 0 (Math_min 1 t) == 0.
Proof.
  intros Ht. unfold Math_max, Math_min.
  destruct (Qle_bool 1 t) eqn:E1.
  - apply Qle_bool_iff in E1. lra.
  - destruct (Qle_bool 0 t) eqn:E0; [| reflexivity].
    apply Qle_bool_iff in E0. lra.
Qed.

Lemma clamp_high (t : Q) : 1 <= t -> Math_max 0 (Math_min 1 t) == 1.
Proof.
  intros Ht. unfold Math_max, Math_min.
  apply Qle_bool_iff in Ht. rewrite Ht. reflexivity.
Qed.

(** X1.  With two control points or more, [getPoint(t)] returns a point
    for every [t], whatever its range: a parameter at or below 0 gives the
    first control point, a parameter at or above 1 the last one. *)
Theorem getPoint_clamps_to_ends (pts : list Vector3) :
  (2 <= List.length pts)%nat ->
  (forall t, exists p, getPoint pts t = Ok p) /\
  (forall t c, t <= 0 -> nth_error pts 0 = Some c ->
     exists p, getPoint pts t = Ok p /\ Veq p c) /\
  (forall t c, 1 <= t -> nth_error pts (List.length pts - 1) = Some c ->
     exists p, getPoint pts t = Ok p /\ Veq p c).
Proof.
  intros HN. split; [intros t; now apply getPoint_total |]. split.
  - intros t c Ht Hc. rewrite <- getPoint_clamped.
    apply getPoint_at_knot with (i := 0%nat); try assumption.
    + apply clamp_range.
    + rewrite (clamp_low t Ht). apply Qmult_0_l.
  - intros t c Ht Hc. rewrite <- getPoint_clamped.
    apply getPoint_at_knot with (i := (List.length pts - 1)%nat);
      try assumption.
    + apply clamp_range.
    + rewrite (clamp_high t Ht), Qmult_1_l.
      now replace (Z.of_nat (List.length pts - 1))
        with (Z.of_nat (List.length pts) - 1)%Z by lia.
Qed.

Lemma getPoint_clamps_to_ends_witness :
  (exists p, getPoint line_points (- (7 # 2)) = Ok p /\
             Veq p (mkVector3 0 0 0)) /\
  (exists p, getPoint line_points 12 = Ok p /\ Veq p (mkVector3 3 0 0)).
Proof.
  destruct (getPoint_clamps_to_ends line_points) as (_ & Hlow & Hhigh).
  - simpl. lia.
  - split.
    + apply Hlow; [discriminate | reflexivity].
    + apply Hhigh; [discriminate | reflexivity].
Defined.

(** The blend of four values that are all [k] is [k]: the weights of
    [catmullRom] add up to one. *)
Lemma blend_of_constant (a0 a1 a2 a3 k t : Q) :
  a0 == k -> a1 == k -> a2 == k -> a3 == k ->
  (1 # 2) * (2 * a1 + (- a0 + a2) * t
             + (2 * a0 - 5 * a1 + 4 * a2 - a3) * (t * t)
             + (- a0 + 3 * a1 - 3 * a2 + a3) * (t * t * t)) == k.
Proof. intros -> -> -> ->. ring. Qed.

Lemma read_index_In {A : Type} (arr : list A) (k : Z) (a : A) :
  read (js_index arr k) = Ok a -> In a arr.
Proof.
  unfold read. destruct (js_index arr k) as [b |] eqn:E; [| discriminate].
  intros H. injection H as <-.
  apply js_index_to_nat in E. eapply nth_error_In; eassumption.
Qed.

(** X2.  In exact arithmetic a coordinate all the control points share is
    kept along the whole curve: if every control point has the same [x]
    (or [y], or [z]), so has every point [getPoint] returns, the weights
    of [catmullRom] adding up to one.  (On doubles the blend is rounded at
    each operation and the coordinate can come out an ulp off:
    [shared_coordinate_drifts_on_doubles] below.) *)
Theorem getPoint_keeps_shared_coordinate (pts : list Vector3) (t k : Q)
    (p : Vector3) :
  getPoint pts t = Ok p ->
  ((forall c, In c pts -> x c == k) -> x p == k) /\
  ((forall c, In c pts -> y c == k) -> y p == k) /\
  ((forall c, In c pts -> z c == k) -> z p == k).
Proof.
  unfold getPoint. intros H.
  bind_inv H. bind_inv H. bind_inv H. bind_inv H. injection H as <-.
  apply read_index_In in E, E0, E1, E2.
  repeat split; intros Hall; unfold catmullRom; simpl;
    apply blend_of_constant; now apply Hall.
Qed.

Lemma getPoint_keeps_shared_coordinate_witness :
  exists p, getPoint line_points (2 # 5) = Ok p /\ y p == 0 /\ z p == 0.
Proof.
  destruct (getPoint_total line_points (2 # 5)) as [p Hp]; [simpl; lia |].
  exists p. split; [exact Hp |].
  destruct (getPoint_keeps_shared_coordinate line_points (2 # 5) 0 p Hp)
    as (_ & Hy & Hz).
  split; [apply Hy | apply Hz];
    intros c [<- | [<- | [<- | [<- | []]]]]; reflexivity.
Defined.

(** The same curve on doubles: four control points at the height [0.1],
    and [getPoint(0.25)] returns a point a little above it. *)
Example shared_coordinate_drifts_on_doubles :
  exists p,
    Binary64.getPoint Binary64.level_points (Binary64.of_Z 1 / 4)%float
      = Ok p /\
    PrimFloat.eqb (Binary64.y p) (Binary64.tenths 1) = false /\
    PrimFloat.ltb (Binary64.tenths 1) (Binary64.y p) = true /\
    PrimFloat.eqb (Binary64.y p)
      (PrimFloat.next_up (Binary64.tenths 1)) = true.
Proof.
  eexists. split; [vm_compute; reflexivity |].
  repeat split; vm_compute; reflexivity.
Qed.

(* ------------------------------------------------------------------ *)
(** ** More on one tick *)

Lemma totalLength_nonneg (a : CurveAnimator) :
  well_formed a -> 0 <= totalLength a.
Proof.
  intros [_ (H0 & Hds & _ & _ & (last & Hlast & <-))].
  apply (Hds 0%nat (List.length (arcLengthTable a) - 1)%nat
           (mkSample 0 0) last); [lia | assumption | assumption].
Qed.

(** What the distance branch leaves behind, read back from a result. *)
Lemma advance_distance_shape (a a1 : CurveAnimator) (dt : Q) :
  well_formed a -> advance_distance a dt = Ok a1 ->
  0 <= progress a1 <= 1 /\
  distanceTraveled a1 <= totalLength a /\
  (isComplete a1 = isComplete a \/
   (loop a = false /\ isComplete a1 = true /\
    distanceTraveled a1 = totalLength a)).
Proof.
  intros Hwf H.
  pose proof (totalLength_nonneg a Hwf) as HL.
  unfold advance_distance in H. fields.
  destruct (Qle_bool (totalLength a) (distanceTraveled a + speed a * dt))
    eqn:Hcmp.
  - apply Qle_bool_iff in Hcmp.
    destruct (loop a) eqn:Hloop.
    + (* wrap: the remainder exists, so the length is positive *)
      destruct (Qeq_bool (totalLength a) 0) eqn:Hz.
      { unfold js_rem in H. fields. rewrite Hz in H. discriminate. }
      assert (Hpos : 0 < totalLength a).
      { apply Qle_lteq in HL as [Hlt | Heq]; [assumption |].
        symmetry in Heq. apply Qeq_bool_iff in Heq. congruence. }
      destruct (js_rem_wraps _ _ Hpos Hcmp) as (k & r & Hrem & _ & _ & Hr).
      rewrite Hrem in H. fields.
      set (a0 := set_distanceTraveled r _) in H.
      destruct (getParameterForDistance_range a0 r) as (p & Hp & Hrange);
        [exact Hwf |].
      subst a0. fields. rewrite Hp in H. fields. injection H as <-. fields.
      split; [assumption |]. split; [lra | now left].
    + fields.
      set (a0 := set_isComplete true _) in H.
      destruct (getParameterForDistance_range a0 (totalLength a))
        as (p & Hp & Hrange); [exact Hwf |].
      subst a0. fields. rewrite Hp in H. fields. injection H as <-. fields.
      split; [assumption |]. split; [lra |]. right. tauto.
  - apply Qle_bool_false in Hcmp. fields.
    set (a0 := set_distanceTraveled _ a) in H.
    destruct (getParameterForDistance_range a0
                (distanceTraveled a + speed a * dt))
      as (p & Hp & Hrange); [exact Hwf |].
    subst a0. fields. rewrite Hp in H. fields. injection H as <-. fields.
    split; [assumption |]. split; [lra | now left].
Qed.

(** The same for the time branch. *)
Lemma advance_time_shape (a a1 : CurveAnimator) (dt : Q) :
  advance_time a dt = Ok a1 ->
  distanceTraveled a1 = distanceTraveled a /\
  (isComplete a1 = isComplete a \/
   (loop a = false /\ isComplete a1 = true /\ progress a1 = 1)).
Proof.
  unfold advance_time. intros H. bind_inv H.
  destruct (Qle_bool _ _) in H; [destruct (loop a) eqn:Hloop |].
  - simpl in H. injection H as <-. split; [reflexivity | now left].
  - injection H as <-. split; [reflexivity |]. right. tauto.
  - injection H as <-. split; [reflexivity | now left].
Qed.

(** A tick that returned, seen from outside. *)
Lemma update_shape (a a' : CurveAnimator) (dt : Q) (r : option Vector3) :
  well_formed a -> update a dt = Ok (a', r) ->
  a' = a \/
  (isComplete a = false /\
   ((mode a = "train"%string /\ 0 <= progress a' <= 1 /\
     distanceTraveled a' <= totalLength a /\
     (isComplete a' = true ->
      loop a = false /\ distanceTraveled a' = totalLength a)) \/
    (mode a <> "train"%string /\
     distanceTraveled a' = distanceTraveled a /\
     (isComplete a' = true -> loop a = false /\ progress a' = 1)))).
Proof.
  intros Hwf H. unfold update in H.
  destruct (isPlaying a) eqn:Hplay; simpl in H;
    [| injection H as <- <-; now left].
  destruct (isComplete a) eqn:Hnc; [injection H as <- <-; now left |].
  right. split; [reflexivity |].
  bind_inv H. apply place_inv in H as (_ & Hp & Hd & _ & Hc & _).
  rewrite Hp, Hd, Hc.
  destruct (String.eqb_spec (mode a) "train") as [Hmode | Hmode].
  - left. split; [assumption |].
    destruct (advance_distance_shape a a0 dt Hwf E) as (Hr & HdL & Hcompl).
    split; [assumption |]. split; [assumption |].
    intros Hdone. destruct Hcompl as [Hsame | (Hl & _ & Hend)];
      [congruence | tauto].
  - right. split; [assumption |].
    destruct (advance_time_shape a a0 dt E) as (Hsame & Hcompl).
    split; [assumption |].
    intros Hdone. destruct Hcompl as [Hsame' | (Hl & _ & Hend)];
      [congruence | tauto].
Qed.

Section Invariants.

Variable sqrt : Q -> Q.
Hypothesis sqrt_nonneg : forall q, 0 <= sqrt q.

(** X3.  On every animator reached from the constructor through
    [attachTo], [play], [pause], [resume], [reset], writes of [speed] and
    calls of [update] that return, [totalLength] is not negative and
    [distanceTraveled] never exceeds it; in distance mode [progress] is a
    parameter of [0, 1].  A call of [update] that throws is not followed:
    on a looping curve of length zero it leaves [NaN] in both counters
    (C4), and no bound holds of them. *)
Theorem counters_stay_in_range (a : CurveAnimator) :
  reachable sqrt a ->
  0 <= totalLength a /\
  distanceTraveled a <= totalLength a /\
  (mode a = "train"%string -> 0 <= progress a <= 1).
Proof.
  intros Hreach.
  split; [apply totalLength_nonneg;
          now apply (reachable_well_formed sqrt sqrt_nonneg) |].
  induction Hreach as [pts o a Hnew | a o Hr IH | a Hr IH | a Hr IH | a Hr IH
                       | a Hr IH | a dt a' r Hr IH Hup | a v Hr IH].
  - pose proof (constructor_Ok_two_points sqrt pts o a Hnew) as HN.
    pose proof (constructor_well_formed sqrt sqrt_nonneg pts o a Hnew HN)
      as Hwf.
    pose proof (totalLength_nonneg a Hwf) as HL.
    destruct (constructor_spec sqrt sqrt_nonneg pts o HN)
      as (table & last & _ & _ & Heq).
    rewrite Heq in Hnew. injection Hnew as <-. fields.
    split; [exact HL | intros _; lra].
  - exact IH.
  - pose proof (totalLength_nonneg a
                  (reachable_well_formed sqrt sqrt_nonneg a Hr)) as HL.
    unfold play. fields. split; [exact HL | intros _; lra].
  - exact IH.
  - exact IH.
  - pose proof (totalLength_nonneg a
                  (reachable_well_formed sqrt sqrt_nonneg a Hr)) as HL.
    unfold reset. fields. split; [exact HL | intros _; lra].
  - pose proof (reachable_well_formed sqrt sqrt_nonneg a Hr) as Hwf.
    pose proof (update_inv _ _ _ _ Hup)
      as [(_ & _ & Hm & _ & _ & _ & _ & _ & HL) _].
    destruct (update_shape a a' dt r Hwf Hup)
      as [-> | (_ & [(Hmode & Hp & Hd & _) | (Hmode & Hd & _)])].
    + exact IH.
    + rewrite <- HL. split; [exact Hd | intros _; exact Hp].
    + rewrite <- HL, Hd, <- Hm. split; [apply IH |].
      intros Habs. contradiction.
  - exact IH.
Qed.

(** X4.  A complete animator sits at the end of its traversal: whenever
    [isComplete] is set on an animator a program can hold, [loop] is off,
    and [distanceTraveled] is [totalLength] (distance mode) or [progress]
    is 1 (time mode).  A looping animator is never complete. *)
Theorem complete_is_at_the_end (a : CurveAnimator) :
  reachable sqrt a -> isComplete a = true ->
  loop a = false /\
  (mode a = "train"%string -> distanceTraveled a = totalLength a) /\
  (mode a <> "train"%string -> progress a = 1).
Proof.
  intros Hreach.
  induction Hreach as [pts o a Hnew | a o Hr IH | a Hr IH | a Hr IH | a Hr IH
                       | a Hr IH | a dt a' r Hr IH Hup | a v Hr IH].
  - pose proof (constructor_Ok_two_points sqrt pts o a Hnew) as HN.
    destruct (constructor_spec sqrt sqrt_nonneg pts o HN)
      as (table & last & _ & _ & Heq).
    rewrite Heq in Hnew. injection Hnew as <-. discriminate.
  - exact IH.
  - discriminate.
  - exact IH.
  - exact IH.
  - discriminate.
  - intros Hdone.
    pose proof (reachable_well_formed sqrt sqrt_nonneg a Hr) as Hwf.
    pose proof (update_inv _ _ _ _ Hup)
      as [(_ & _ & Hm & _ & Hl & _ & _ & _ & HL) _].
    destruct (update_shape a a' dt r Hwf Hup)
      as [-> | (_ & [(Hmode & _ & _ & Hc) | (Hmode & _ & Hc)])].
    + now apply IH.
    + destruct (Hc Hdone) as [Hloop Hend].
      rewrite <- Hl, <- Hm, <- HL.
      split; [assumption |]. split; [intros _; assumption |].
      intros Habs. contradiction.
    + destruct (Hc Hdone) as [Hloop Hend].
      rewrite <- Hl, <- Hm.
      split; [assumption |]. split; [| intros _; assumption].
      intros Habs. contradiction.
  - exact IH.
Qed.

End Invariants.

Lemma line_done_reachable : reachable Qsqrt line_done.
Proof.
  eapply (reach_update Qsqrt (play line) 5 line_done).
  - apply reach_play, line_reachable.
  - vm_compute. reflexivity.
Qed.

Lemma counters_stay_in_range_witness :
  0 <= totalLength line_done /\
  distanceTraveled line_done <= totalLength line_done /\
  (mode line_done = "train"%string -> 0 <= progress line_done <= 1).
Proof.
  exact (counters_stay_in_range Qsqrt Qsqrt_nonneg line_done
           line_done_reachable).
Defined.

Lemma complete_is_at_the_end_witness :
  loop line_done = false /\
  (mode line_done = "train"%string ->
   distanceTraveled line_done = totalLength line_done) /\
  (mode line_done <> "train"%string -> progress line_done = 1).
Proof.
  apply (complete_is_at_the_end Qsqrt Qsqrt_nonneg line_done
           line_done_reachable).
  reflexivity.
Defined.

(* ------------------------------------------------------------------ *)
(** ** Completion *)

(** Distance mode without loop, on a curve of positive length: at or past
    the end the distance is clamped to the length and the progress is 1. *)
Lemma advance_distance_to_the_end (a : CurveAnimator) (dt : Q) :
  loop a = false -> 0 < totalLength a ->
  totalLength a <= distanceTraveled a + speed a * dt ->
  advance_distance a dt =
    Ok (set_progress 1
          (set_isComplete true
             (set_distanceTraveled (totalLength a)
                (set_distanceTraveled
                   (distanceTraveled a + speed a * dt) a)))).
Proof.
  intros Hloop Hpos Hge. unfold advance_distance. fields.
  apply Qle_bool_iff in Hge. rewrite Hge, Hloop. fields.
  unfold getParameterForDistance. fields.
  assert (H0 : Qle_bool (totalLength a) 0 = false)
    by (apply Qle_bool_false; assumption).
  assert (H1 : Qle_bool (totalLength a) (totalLength a) = true)
    by (apply Qle_bool_iff, Qle_refl).
  rewrite H0, H1. reflexivity.
Qed.

Section Completion.

Variable sqrt : Q -> Q.
Hypothesis sqrt_nonneg : forall q, 0 <= sqrt q.

(** X5.  Without loop, the tick that reaches the end returns
    [getPoint(1)].  In distance mode on a curve of positive length, once
    the advanced distance is [totalLength] or more, [update(dt)] marks the
    animator complete, sets [distanceTraveled] to [totalLength] and
    [progress] to 1 and returns the point [getPoint(1)]; in time mode (the
    duration not zero) the same holds once the advanced progress is 1 or
    more.  In exact arithmetic [getPoint(1)] is the last control point;
    on doubles it can be off by the rounding of the blend (C1). *)
Theorem completion_lands_on_last_point (a : CurveAnimator) (dt : Q)
    (c : Vector3) :
  reachable sqrt a -> loop a = false ->
  isPlaying a = true -> isComplete a = false ->
  nth_error (points a) (List.length (points a) - 1) = Some c ->
  (mode a = "train"%string -> 0 < totalLength a ->
   totalLength a <= distanceTraveled a + speed a * dt ->
   exists a' position,
     update a dt = Ok (a', Some position) /\
     isComplete a' = true /\ distanceTraveled a' = totalLength a /\
     progress a' = 1 /\ getPoint (points a) 1 = Ok position /\
     Veq position c) /\
  (mode a <> "train"%string -> ~ duration a == 0 ->
   1 <= progress a + dt / duration a ->
   exists a' position,
     update a dt = Ok (a', Some position) /\
     isComplete a' = true /\ progress a' = 1 /\
     getPoint (points a) 1 = Ok position /\ Veq position c).
Proof.
  intros Hreach Hloop Hplay Hnc Hc.
  pose proof (reachable_well_formed sqrt sqrt_nonneg a Hreach) as Hwf.
  assert (Hend : exists p, getPoint (points a) 1 = Ok p /\ Veq p c).
  { apply getPoint_at_knot
      with (i := (List.length (points a) - 1)%nat);
      [apply Hwf | split; [discriminate | apply Qle_refl] | | exact Hc].
    rewrite Qmult_1_l.
    destruct Hwf as [HN _].
    now replace (Z.of_nat (List.length (points a) - 1))
      with (Z.of_nat (List.length (points a)) - 1)%Z by lia. }
  destruct Hend as (p & Hp & Hpc).
  split.
  - intros Hmode Hpos Hge.
    rewrite (update_playing a dt Hplay Hnc), Hmode. simpl String.eqb.
    rewrite (advance_distance_to_the_end a dt Hloop Hpos Hge). fields.
    set (a1 := set_progress 1 _).
    destruct (place_total a1) as (a' & position & Hplace); [apply Hwf |].
    exists a', position. split; [exact Hplace |].
    apply place_inv in Hplace as (_ & Hpr & Hd & _ & Hcompl & q & Hq & Hget).
    subst a1. fields. rewrite Hp in Hget.
    injection Hq as ->. injection Hget as ->.
    repeat split; try assumption; apply Hpc.
  - intros Hmode Hdur Hge.
    rewrite (update_playing a dt Hplay Hnc).
    apply String.eqb_neq in Hmode. rewrite Hmode.
    rewrite (advance_time_spec a dt Hdur), Hloop.
    apply Qle_bool_iff in Hge. rewrite Hge. fields.
    set (a1 := set_isComplete true _).
    destruct (place_total a1) as (a' & position & Hplace); [apply Hwf |].
    exists a', position. split; [exact Hplace |].
    apply place_inv in Hplace as (_ & Hpr & _ & _ & Hcompl & q & Hq & Hget).
    subst a1. fields. rewrite Hp in Hget.
    injection Hq as ->. injection Hget as ->.
    repeat split; try assumption; apply Hpc.
Qed.

(** X6.  The table inverts distances at its own entries: for an entry
    strictly inside the curve whose predecessor is strictly shorter,
    [getParameterForDistance] of the entry's distance is the entry's
    parameter. *)
Theorem table_entry_round_trip (a : CurveAnimator) (k : nat)
    (s0 s1 : ArcLengthSample) :
  reachable sqrt a ->
  nth_error (arcLengthTable a) k = Some s0 ->
  nth_error (arcLengthTable a) (S k) = Some s1 ->
  distance s0 < distance s1 -> distance s1 < totalLength a ->
  exists p, getParameterForDistance a (distance s1) = Ok p /\
            p == parameter s1.
Proof.
  intros Hreach H0 H1 Hgap Hin.
  pose proof (reachable_well_formed sqrt sqrt_nonneg a Hreach) as Hwf.
  assert (Hpos : 0 < distance s1).
  { destruct Hwf as [_ (Hfirst & Hds & _)].
    pose proof (Hds 0%nat k _ s0 (Nat.le_0_l k) Hfirst H0) as Hs0.
    simpl in Hs0. lra. }
  destruct (getParameterForDistance_interior a (distance s1) Hwf Hpos Hin)
    as (l & t0 & t1 & Hl0 & Hl1 & Hlo & Hhi & Hrun).
  destruct Hwf as [_ (_ & Hds & _)].
  assert (l = k) as ->.
  { destruct (Nat.lt_trichotomy l k) as [Hlt | [Heq | Hgt]];
      [| assumption |].
    - pose proof (Hds (S l) k t1 s0 ltac:(lia) Hl1 H0). lra.
    - pose proof (Hds (S k) l s1 t0 ltac:(lia) H1 Hl0). lra. }
  rewrite H0 in Hl0. injection Hl0 as <-.
  rewrite H1 in Hl1. injection Hl1 as <-.
  eexists. split; [exact Hrun |].
  unfold interpolate. field. lra.
Qed.

End Completion.

Lemma completion_lands_on_last_point_witness :
  (exists a' position,
     update (play line) 5 = Ok (a', Some position) /\
     isComplete a' = true /\
     distanceTraveled a' = totalLength (play line) /\
     progress a' = 1 /\
     getPoint (points (play line)) 1 = Ok position /\
     Veq position (mkVector3 3 0 0)) /\
  (exists a' position,
     update (play line_timed) 2 = Ok (a', Some position) /\
     isComplete a' = true /\ progress a' = 1 /\
     getPoint (points (play line_timed)) 1 = Ok position /\
     Veq position (mkVector3 3 0 0)).
Proof.
  split.
  - destruct (completion_lands_on_last_point Qsqrt Qsqrt_nonneg (play line)
                5 (mkVector3 3 0 0)) as [Htrain _];
      try reflexivity.
    + apply reach_play, line_reachable.
    + apply Htrain; [reflexivity | vm_compute; reflexivity
                     | vm_compute; discriminate].
  - destruct (completion_lands_on_last_point Qsqrt Qsqrt_nonneg
                (play line_timed) 2 (mkVector3 3 0 0)) as [_ Htime];
      try reflexivity.
    + apply reach_play, line_timed_reachable.
    + apply Htime; [discriminate | discriminate | vm_compute; discriminate].
Defined.

Lemma table_entry_round_trip_witness :
  exists s1,
    nth_error (arcLengthTable line) 2 = Some s1 /\
    exists p, getParameterForDistance line (distance s1) = Ok p /\
              p == parameter s1.
Proof.
  eexists. split; [vm_compute; reflexivity |].
  eapply (table_entry_round_trip Qsqrt Qsqrt_nonneg line 1).
  - apply line_reachable.
  - vm_compute. reflexivity.
  - vm_compute. reflexivity.
  - vm_compute. reflexivity.
  - vm_compute. reflexivity.
Defined.

(* ------------------------------------------------------------------ *)
(** ** The attached object *)

(** X7.  A tick that returns a position hands it to the attached object:
    the object's position is the position returned; with
    [orientToDirection] the object is turned to the point of the curve at
    [min(1, progress + lookAheadDistance)], a parameter that never
    exceeds 1, and without it the object keeps its facing.  With no object
    attached none appears. *)
Theorem update_moves_attached_object (a a' : CurveAnimator) (dt : Q)
    (returned : Vector3) :
  update a dt = Ok (a', Some returned) ->
  match _target a with
  | None => _target a' = None
  | Some o =>
      exists o',
        _target a' = Some o' /\
        position o' = returned /\
        if orientToDirection a
        then exists ahead,
               getPoint (points a)
                 (Math_min 1 (progress a' + lookAheadDistance a)) = Ok ahead /\
               Math_min 1 (progress a' + lookAheadDistance a) <= 1 /\
               facing o' = Some ahead
        else facing o' = facing o
  end.
Proof.
  intros H. unfold update in H.
  destruct (negb (isPlaying a) || isComplete a); [discriminate |].
  bind_inv H.
  assert (Hframe : same_curve a a0 /\ _target a0 = _target a).
  { destruct (String.eqb (mode a) "train").
    - apply advance_distance_inv in E. tauto.
    - apply advance_time_inv in E. tauto. }
  destruct Hframe as [(Hpts & _ & _ & _ & _ & Ho & Hla & _) Ht].
  rewrite Hpts, Ho, Hla, <- Ht.
  unfold place in H. bind_inv H. bind_inv H. injection H as <- <-.
  destruct (_target a0) as [o |] eqn:Et.
  - destruct (orientToDirection a0).
    + bind_inv E1. injection E1 as <-. fields.
      eexists. split; [reflexivity |]. split; [reflexivity |].
      exists a3. split; [assumption |]. split; [| reflexivity].
      unfold Math_min.
      destruct (Qle_bool 1 (progress a0 + lookAheadDistance a0)) eqn:Hcmp;
        [apply Qle_refl |].
      apply Qle_bool_false in Hcmp. now apply Qlt_le_weak.
    + injection E1 as <-. fields.
      eexists. split; [reflexivity |]. split; reflexivity.
  - injection E1 as <-. exact Et.
Qed.

Lemma update_moves_attached_object_witness :
  exists a' returned o',
    update line_attached 1 = Ok (a', Some returned) /\
    _target a' = Some o' /\ position o' = returned /\
    exists ahead, facing o' = Some ahead.
Proof.
  destruct (update line_attached 1) as [[a' [returned |]] | | |] eqn:Hup;
    try (vm_compute in Hup; discriminate).
  pose proof (update_moves_attached_object line_attached a' 1 returned Hup)
    as Hobj.
  change (_target line_attached)
    with (Some (mkObject3D (mkVector3 0 0 0) None)) in Hobj.
  change (orientToDirection line_attached) with true in Hobj.
  destruct Hobj as (o' & Ht & Hpos & ahead & _ & _ & Hf).
  exists a', returned, o'. repeat split; try assumption.
  now exists ahead.
Defined.

Lemma advance_distance_set_target (a : CurveAnimator) (dt : Q)
    (v : option Object3D) :
  advance_distance (set_target v a) dt =
  (a1 <- advance_distance a dt ;; Ok (set_target v a1)).
Proof.
  unfold advance_distance. fields.
  destruct (Qle_bool (totalLength a) (distanceTraveled a + speed a * dt)).
  - destruct (loop a).
    + destruct (js_rem _ _); try reflexivity. fields.
      unfold getParameterForDistance. fields.
      destruct (Qle_bool a0 0); [reflexivity |].
      destruct (Qle_bool (totalLength a) a0); [reflexivity |].
      destruct (search _ _ _ _ _); try reflexivity. fields.
      destruct (read _); try reflexivity. fields.
      destruct (read _); try reflexivity. fields.
      destruct (js_div _ _); reflexivity.
    + fields. unfold getParameterForDistance. fields.
      destruct (Qle_bool (totalLength a) 0); [reflexivity |].
      destruct (Qle_bool (totalLength a) (totalLength a)); [reflexivity |].
      destruct (search _ _ _ _ _); try reflexivity. fields.
      destruct (read _); try reflexivity. fields.
      destruct (read _); try reflexivity. fields.
      destruct (js_div _ _); reflexivity.
  - fields. unfold getParameterForDistance. fields.
    destruct (Qle_bool (distanceTraveled a + speed a * dt) 0);
      [reflexivity |].
    destruct (Qle_bool (totalLength a) (distanceTraveled a + speed a * dt));
      [reflexivity |].
    destruct (search _ _ _ _ _); try reflexivity. fields.
    destruct (read _); try reflexivity. fields.
    destruct (read _); try reflexivity. fields.
    destruct (js_div _ _); reflexivity.
Qed.

Lemma advance_time_set_target (a : CurveAnimator) (dt : Q)
    (v : option Object3D) :
  advance_time (set_target v a) dt =
  (a1 <- advance_time a dt ;; Ok (set_target v a1)).
Proof.
  unfold advance_time. fields.
  destruct (js_div dt (duration a)); try reflexivity. fields.
  destruct (Qle_bool 1 (progress a + a0)); [| reflexivity].
  destruct (loop a); reflexivity.
Qed.

Section Attachment.

Variable sqrt : Q -> Q.
Hypothesis sqrt_nonneg : forall q, 0 <= sqrt q.

(** X8.  Attaching an object does not change the traversal: if
    [update(dt)] returns on an animator, it returns the same value with an
    object attached first, and leaves the same progress, distance and
    flags. *)
Theorem attachTo_keeps_traversal (a a' : CurveAnimator) (dt : Q)
    (r : option Vector3) (object3D : Object3D) :
  reachable sqrt a -> update a dt = Ok (a', r) ->
  exists a'',
    update (attachTo a object3D) dt = Ok (a'', r) /\
    progress a'' = progress a' /\
    distanceTraveled a'' = distanceTraveled a' /\
    isPlaying a'' = isPlaying a' /\ isComplete a'' = isComplete a'.
Proof.
  intros Hreach H.
  pose proof (reachable_well_formed sqrt sqrt_nonneg a Hreach) as [HN _].
  unfold update, attachTo in *. fields.
  destruct (negb (isPlaying a) || isComplete a).
  - injection H as <- <-. eexists. split; [reflexivity |]. repeat split.
  - bind_inv H.
    assert (Hadv : (if String.eqb (mode a) "train"
                    then advance_distance (set_target (Some object3D) a) dt
                    else advance_time (set_target (Some object3D) a) dt)
                   = Ok (set_target (Some object3D) a0)).
    { destruct (String.eqb (mode a) "train").
      - now rewrite advance_distance_set_target, E.
      - now rewrite advance_time_set_target, E. }
    rewrite Hadv. fields.
    assert (Hpts : points a0 = points a).
    { destruct (String.eqb (mode a) "train").
      - apply advance_distance_inv in E as [(Hp & _) _]. congruence.
      - apply advance_time_inv in E as [(Hp & _) _]. congruence. }
    apply place_inv in H as (_ & Hp & Hd & Hpl & Hc & pos & -> & Hget).
    unfold place. fields. rewrite Hget. fields.
    destruct (orientToDirection a0).
    + destruct (getPoint_total (points a0)
                  (Math_min 1 (progress a0 + lookAheadDistance a0)))
        as [ahead ->]; [now rewrite Hpts |].
      fields. eexists. split; [reflexivity |]. fields.
      repeat split; congruence.
    + fields. eexists. split; [reflexivity |]. fields.
      repeat split; congruence.
Qed.

End Attachment.

Lemma attachTo_keeps_traversal_witness :
  exists a' r a'',
    update (play line) (3 # 2) = Ok (a', r) /\
    update (attachTo (play line) (mkObject3D (mkVector3 0 0 0) None)) (3 # 2)
      = Ok (a'', r) /\
    distanceTraveled a'' = distanceTraveled a'.
Proof.
  destruct (update (play line) (3 # 2)) as [[a' r] | | |] eqn:Hup;
    try (vm_compute in Hup; discriminate).
  destruct (attachTo_keeps_traversal Qsqrt Qsqrt_nonneg (play line) a'
              (3 # 2) r (mkObject3D (mkVector3 0 0 0) None))
    as (a'' & Hup' & _ & Hd & _).
  - apply reach_play, line_reachable.
  - exact Hup.
  - exists a', r, a''. repeat split; assumption.
Defined.

(* ------------------------------------------------------------------ *)
(** ** Debug markers *)

Lemma debug_loop_spec (pts : list Vector3) (color count : Z) (size : Q) :
  (2 <= List.length pts)%nat -> count <> 0%Z ->
  forall (turns : nat) (i : Z) (group : Group),
    i = Z.of_nat (List.length group) ->
    markers pts color count size group ->
    exists group',
      debug_loop pts color count size turns i group = Ok group' /\
      List.length group' = (List.length group + turns)%nat /\
      markers pts color count size group'.
Proof.
  intros HN Hcount. induction turns as [| turns IH]; intros i group Hi Hm.
  - exists group. simpl. rewrite Nat.add_0_r. tauto.
  - simpl. unfold js_div.
    rewrite Qeq_bool_false.
    2:{ change 0 with (inject_Z 0). rewrite inject_Z_injective. assumption. }
    simpl.
    destruct (getPoint_total pts (inject_Z i / inject_Z count) HN)
      as [point Hpoint].
    rewrite Hpoint. simpl.
    destruct (IH (i + 1)%Z (group ++ [mkMesh size color point]))
      as (group' & Hrun & Hlen & Hm').
    + rewrite length_app. simpl. lia.
    + intros j m Hj. apply nth_error_snoc_inv in Hj as [[_ Hj] | [-> ->]].
      * now apply Hm.
      * simpl. rewrite <- Hi. tauto.
    + exists group'. split; [exact Hrun |]. split; [| exact Hm'].
      rewrite Hlen, length_app. simpl. lia.
Qed.

(** X9.  For a marker count of one or more, on an animator with two
    control points or more, [createDebugVisualization] adds one group to
    the scene, after the groups already there, and returns it; the group
    has [count + 1] meshes of the given size and colour, mesh [j] at
    [getPoint(j / count)] for [j] from 0 to [count].  In exact arithmetic
    the first one sits on the first control point and the last one on the
    last control point; on doubles the last one is at [getPoint(1)],
    which can be off by the rounding of the blend (C1). *)
Theorem debug_markers_span_the_curve (a : CurveAnimator) (scene : Scene)
    (color count : Z) (size : Q) (first last : Vector3) :
  (2 <= List.length (points a))%nat -> (1 <= count)%Z ->
  nth_error (points a) 0 = Some first ->
  nth_error (points a) (List.length (points a) - 1) = Some last ->
  exists group,
    createDebugVisualization a scene color count size
      = Ok (scene ++ [group], group) /\
    List.length group = S (Z.to_nat count) /\
    markers (points a) color count size group /\
    (exists m, nth_error group 0 = Some m /\ Veq (mesh_position m) first) /\
    (exists m, nth_error group (Z.to_nat count) = Some m /\
               Veq (mesh_position m) last).
Proof.
  intros HN Hcount Hfirst Hlast.
  destruct (debug_loop_spec (points a) color count size HN ltac:(lia)
              (Z.to_nat (count + 1)) 0%Z [])
    as (group & Hrun & Hlen & Hm); [reflexivity | |].
  { intros j m Hj. destruct j; discriminate. }
  simpl in Hlen.
  assert (Hc : 0 < inject_Z count).
  { change 0 with (inject_Z 0). rewrite <- Zlt_Qlt. lia. }
  exists group. unfold createDebugVisualization. rewrite Hrun. cbn [bind].
  split; [reflexivity |]. split; [lia |]. split; [exact Hm |]. split.
  - destruct (nth_error group 0) as [m |] eqn:E.
    2:{ apply nth_error_None in E. lia. }
    exists m. split; [reflexivity |].
    destruct (Hm _ _ E) as (_ & _ & Hget).
    destruct (getPoint_at_knot (points a)
                (inject_Z (Z.of_nat 0) / inject_Z count) 0 first HN)
      as (p & Hp & Hpf); try assumption.
    + split; [| apply Qle_shift_div_r; [assumption |]]; simpl.
      * unfold Qdiv. rewrite Qmult_0_l. apply Qle_refl.
      * rewrite Qmult_1_l, <- Zle_Qle. lia.
    + simpl. unfold Qdiv. now rewrite !Qmult_0_l.
    + rewrite Hget in Hp. injection Hp as <-. exact Hpf.
  - destruct (nth_error group (Z.to_nat count)) as [m |] eqn:E.
    2:{ apply nth_error_None in E. lia. }
    exists m. split; [reflexivity |].
    destruct (Hm _ _ E) as (_ & _ & Hget).
    rewrite Z2Nat.id in Hget by lia.
    destruct (getPoint_at_knot (points a)
                (inject_Z count / inject_Z count)
                (List.length (points a) - 1) last HN)
      as (p & Hp & Hpl); try assumption.
    + split; [apply Qle_shift_div_l | apply Qle_shift_div_r];
        try assumption.
      * rewrite Qmult_0_l. now apply Qlt_le_weak.
      * rewrite Qmult_1_l. apply Qle_refl.
    + replace (Z.of_nat (List.length (points a) - 1))
        with (Z.of_nat (List.length (points a)) - 1)%Z by lia.
      field. lra.
    + rewrite Hget in Hp. injection Hp as <-. exact Hpl.
Qed.

Lemma debug_markers_span_the_curve_witness :
  exists group,
    createDebugVisualization line [] 65535 3 (1 # 20)
      = Ok ([] ++ [group], group) /\
    List.length group = 4%nat /\
    (exists m, nth_error group 3 = Some m /\
               Veq (mesh_position m) (mkVector3 3 0 0)).
Proof.
  destruct (debug_markers_span_the_curve line [] 65535 3 (1 # 20)
              (mkVector3 0 0 0) (mkVector3 3 0 0))
    as (group & Hrun & Hlen & _ & _ & Hlast);
    try reflexivity; try (simpl; lia).
  exists group. repeat split; assumption.
Defined.

(** X10.  The marker count at its edges: a negative count adds an empty
    group to the scene; a count of zero divides zero by zero for the first
    marker, and the call yields no group. *)
Theorem debug_markers_edge_counts (a : CurveAnimator) (scene : Scene)
    (color count : Z) (size : Q) :
  ((count < 0)%Z ->
   createDebugVisualization a scene color count size
     = Ok (scene ++ [[]], [])) /\
  (count = 0%Z ->
   createDebugVisualization a scene color count size = NonFinite).
Proof.
  unfold createDebugVisualization. split.
  - intros Hneg. replace (Z.to_nat (count + 1)) with 0%nat by lia.
    reflexivity.
  - intros ->. reflexivity.
Qed.

(* ------------------------------------------------------------------ *)
(** ** The pause button of the demo *)

(** X11.  The demo's pause button toggles: one click flips [isPlaying]
    and nothing else, the button then reads Resume exactly if the animator
    no longer plays, and a second click gives back the animator as it
    was. *)
Theorem pause_button_toggles (a : CurveAnimator) :
  isPlaying (fst (pause_button a)) = negb (isPlaying a) /\
  same_curve a (fst (pause_button a)) /\
  progress (fst (pause_button a)) = progress a /\
  distanceTraveled (fst (pause_button a)) = distanceTraveled a /\
  isComplete (fst (pause_button a)) = isComplete a /\
  (snd (pause_button a) = "▶ Resume"%string <->
   isPlaying (fst (pause_button a)) = false) /\
  fst (pause_button (fst (pause_button a))) = a.
Proof.
  destruct a as [pts sp md du lo ori la tab tl pr dtr pl co tg].
  unfold pause_button. simpl. destruct pl; simpl.
  - repeat split; intros; discriminate || reflexivity.
  - repeat split; intros; discriminate || reflexivity.
Qed.

(* ------------------------------------------------------------------ *)
(** ** The score system: facts *)

Lemma own_assign_same {A : Type} (table : list (string * A)) (key : string)
    (value : A) :
  own (ScoreSystem.assign table key value) key = Some value.
Proof.
  induction table as [| [k v] rest IH]; simpl.
  - now rewrite String.eqb_refl.
  - destruct (String.eqb k key) eqn:E; simpl; rewrite E; [reflexivity | exact IH].
Qed.

Lemma own_assign_other {A : Type} (table : list (string * A))
    (key key' : string) (value : A) :
  key' <> key ->
  own (ScoreSystem.assign table key value) key' = own table key'.
Proof.
  intros Hne. induction table as [| [k v] rest IH]; simpl.
  - destruct (String.eqb_spec key key'); [congruence | reflexivity].
  - destruct (String.eqb_spec k key) as [-> | Hk]; simpl.
    + destruct (String.eqb_spec key key'); [congruence | reflexivity].
    + destruct (String.eqb k key'); [reflexivity | exact IH].
Qed.

Module ScoreFacts.
Import ScoreSystem.

Lemma on_inv (s s' : t) (event : string) (fn : Listener) :
  on s event fn = Ok s' ->
  holes s' = holes s /\ currentHole s' = currentHole s /\
  currentStrokes s' = currentStrokes s /\
  _listeners s' = assign (_listeners s) event (registered s event ++ [fn]) /\
  (own (_listeners s) event = None -> inherited event = false).
Proof.
  unfold on, registered. intros H.
  destruct (own (_listeners s) event) as [fns |].
  - injection H as <-. repeat split. discriminate.
  - destruct (inherited event); [discriminate |].
    injection H as <-. repeat split.
Qed.

(** An event the class itself emits is no inherited name, so emitting it
    calls the registered listeners in order and does not throw. *)
Lemma emit_own_event (s : t) (event : string) (data : Payload) :
  inherited event = false ->
  _emit s event data = Ok (map (fun fn => (fn, data)) (registered s event)).
Proof.
  intros Hin. unfold _emit, registered.
  destruct (own (_listeners s) event); [reflexivity |].
  now rewrite Hin.
Qed.

Lemma addStroke_spec (s : t) :
  addStroke s =
    Ok (mk (holes s) (currentHole s) (currentStrokes s + 1) (_listeners s),
        map (fun fn =>
               (fn, StrokeData (currentHole s + 1) (currentStrokes s + 1)))
            (registered s "stroke")).
Proof.
  unfold addStroke. rewrite emit_own_event by reflexivity. reflexivity.
Qed.

Lemma scoreHole_spec (s : t) (p : Z) :
  let e := mkEntry (currentHole s + 1) p (currentStrokes s)
             (currentStrokes s - p) (getGolfTerm (currentStrokes s) p) in
  scoreHole s p =
    Ok (mk (holes s ++ [e]) (currentHole s + 1) 0 (_listeners s),
        map (fun fn => (fn, HoleScored e)) (registered s "hole-scored"),
        e).
Proof.
  intros e. unfold scoreHole. rewrite emit_own_event by reflexivity.
  reflexivity.
Qed.

Lemma reset_spec (s : t) :
  reset s =
    Ok (mk [] 0 0 (_listeners s),
        map (fun fn => (fn, ResetData)) (registered s "reset")).
Proof.
  unfold reset. rewrite emit_own_event by reflexivity. reflexivity.
Qed.

(** The holes of a reachable score system are consistent, and its
    counters count. *)
Lemma reachable_consistent (s : t) :
  reachable s ->
  currentHole s = Z.of_nat (List.length (holes s)) /\
  (0 <= currentStrokes s)%Z /\
  holes_consistent s.
Proof.
  induction 1 as [| s event fn s' _ IH Hon | s s' calls _ IH Hadd
                  | s p s' calls e _ IH Hsc | s s' calls _ IH Hre | s _ IH].
  - split; [reflexivity |]. split; [simpl; lia |].
    intros i e Hi. destruct i; discriminate.
  - apply on_inv in Hon as (Hh & Hc & Hs & _).
    unfold holes_consistent. rewrite Hh, Hc, Hs. exact IH.
  - rewrite addStroke_spec in Hadd. injection Hadd as <- _.
    destruct IH as (Hc & Hs & Hh).
    split; [exact Hc |]. split; [simpl; lia | exact Hh].
  - rewrite scoreHole_spec in Hsc. injection Hsc as <- _ _.
    destruct IH as (Hc & Hs & Hh). simpl.
    split; [rewrite length_app; simpl; lia |]. split; [lia |].
    intros i e' Hi. simpl in Hi.
    apply nth_error_snoc_inv in Hi as [[_ Hi] | [-> ->]].
    + now apply Hh.
    + simpl. split; [lia |]. split; [lia |]. split; reflexivity.
  - rewrite reset_spec in Hre. injection Hre as <- _.
    split; [reflexivity |]. split; [simpl; lia |].
    intros i e Hi. destruct i; discriminate.
  - destruct IH as (Hc & Hs & Hh).
    split; [exact Hc |]. split; [simpl; lia | exact Hh].
Qed.

(** With quiet listeners the walk of [forEach] calls each listener once,
    in order, and hands the score system on as it was. *)
Lemma quiet_forEach (call : Listener -> Payload -> t -> outcome t) :
  Listening.quiet call ->
  forall fns data s,
    Listening.forEach call fns data s
      = Ok (s, map (fun fn => (fn, data)) fns).
Proof.
  intros Hq fns data s. induction fns as [| fn fns IH]; simpl.
  - reflexivity.
  - rewrite Hq. cbn [bind]. rewrite IH. reflexivity.
Qed.

Lemma quiet_emit (call : Listener -> Payload -> t -> outcome t) :
  Listening.quiet call ->
  forall s event data,
    Listening._emit call s event data
      = (calls <- _emit s event data ;; Ok (s, calls)).
Proof.
  intros Hq s event data. unfold Listening._emit, _emit.
  destruct (own (_listeners s) event) as [fns |].
  - now rewrite quiet_forEach.
  - now destruct (inherited event).
Qed.

(** With quiet listeners the methods are the ones of [ScoreSystem]. *)
Lemma quiet_methods (call : Listener -> Payload -> t -> outcome t) :
  Listening.quiet call ->
  forall s,
    Listening.addStroke call s = addStroke s /\
    (forall p, Listening.scoreHole call s p = scoreHole s p) /\
    Listening.reset call s = reset s.
Proof.
  intros Hq s. split; [| split].
  - unfold Listening.addStroke, addStroke. rewrite quiet_emit by assumption.
    reflexivity.
  - intros p. unfold Listening.scoreHole, scoreHole.
    rewrite quiet_emit by assumption.
    rewrite emit_own_event by reflexivity. reflexivity.
  - unfold Listening.reset, reset. rewrite quiet_emit by assumption.
    reflexivity.
Qed.

Lemma quiet_reachable (call : Listener -> Payload -> t -> outcome t)
    (s : t) :
  Listening.quiet call -> Listening.reachable call s -> reachable s.
Proof.
  intros Hq.
  induction 1 as [| s event fn s' _ IH Hon | s s' calls _ IH Hadd
                  | s p s' calls e _ IH Hsc | s s' calls _ IH Hre | s _ IH].
  - apply reach_new.
  - eapply reach_on; eassumption.
  - destruct (quiet_methods call Hq s) as (Ha & _ & _). rewrite Ha in Hadd.
    eapply reach_addStroke; eassumption.
  - destruct (quiet_methods call Hq s) as (_ & Hs & _). rewrite Hs in Hsc.
    eapply reach_scoreHole; eassumption.
  - destruct (quiet_methods call Hq s) as (_ & _ & Hr). rewrite Hr in Hre.
    eapply reach_reset; eassumption.
  - now apply reach_clear_strokes.
Qed.

(** X12.  With listeners that return and leave the score system alone, as
    the game's and the demo's do, every score system a program holds
    between two calls counts its holes: [currentHole] is the number of
    holes scored, the stroke counter is not negative, and the entry at
    index [i] carries the hole number [i + 1], a score that is not
    negative, the difference [score - par], and the golf term of that
    difference.  (A listener that calls back into the score system can
    break the count: [resetting_listener_breaks_the_count] below.) *)
Theorem score_system_invariant
    (call : Listener -> Payload -> t -> outcome t) (s : t) :
  Listening.quiet call -> Listening.reachable call s ->
  currentHole s = Z.of_nat (List.length (holes s)) /\
  (0 <= currentStrokes s)%Z /\
  forall i e, nth_error (holes s) i = Some e ->
    hole e = (Z.of_nat i + 1)%Z /\ (0 <= score e)%Z /\
    diff e = (score e - par e)%Z /\
    term e = getGolfTerm (score e) (par e).
Proof.
  intros Hq Hreach.
  exact (reachable_consistent s (quiet_reachable call s Hq Hreach)).
Qed.

(** [scoreHole] calls the listeners before it advances the hole counter.
    A listener of ['hole-scored'] that calls [reset()] therefore leaves a
    score system with no hole whose counter reads 1; the next hole
    scored is numbered 2, is dropped in its turn, and the counter reads 1
    again. *)
Example resetting_listener_breaks_the_count :
  exists s1 s2 calls2 e2 s3 calls3 e3,
    on constructor "hole-scored" 7%nat = Ok s1 /\
    Listening.scoreHole Listening.resetting s1 3 = Ok (s2, calls2, e2) /\
    holes s2 = [] /\ currentHole s2 = 1%Z /\
    Listening.scoreHole Listening.resetting s2 3 = Ok (s3, calls3, e3) /\
    hole e3 = 2%Z /\ holes s3 = [] /\ currentHole s3 = 1%Z.
Proof.
  do 7 eexists.
  split; [reflexivity |]. split; [vm_compute; reflexivity |].
  split; [reflexivity |]. split; [reflexivity |].
  split; [vm_compute; reflexivity |]. repeat split.
Qed.

End ScoreFacts.

Module ScoreOrder.
Import ScoreSystem.

Lemma played_reachable : reachable played.
Proof.
  eapply (reach_scoreHole _ 3).
  - eapply reach_addStroke; [eapply reach_addStroke |].
    + eapply (reach_on _ "hole-scored" 8%nat);
        [eapply (reach_on _ "hole-scored" 7%nat); [apply reach_new |] |];
        reflexivity.
    + reflexivity.
    + reflexivity.
  - reflexivity.
Qed.

Lemma idle_quiet : Listening.quiet Listening.idle.
Proof. intros fn data s. reflexivity. Qed.

Lemma played_with_idle_listeners :
  Listening.reachable Listening.idle played.
Proof.
  eapply (Listening.reach_scoreHole _ _ 3).
  - eapply Listening.reach_addStroke; [eapply Listening.reach_addStroke |].
    + eapply (Listening.reach_on _ _ "hole-scored" 8%nat);
        [eapply (Listening.reach_on _ _ "hole-scored" 7%nat);
           [apply Listening.reach_new |] |];
        reflexivity.
    + reflexivity.
    + reflexivity.
  - reflexivity.
Qed.

Lemma score_system_invariant_witness :
  currentHole played = Z.of_nat (List.length (holes played)) /\
  (0 <= currentStrokes played)%Z /\
  forall i e, nth_error (holes played) i = Some e ->
    hole e = (Z.of_nat i + 1)%Z /\ (0 <= score e)%Z /\
    diff e = (score e - par e)%Z /\
    term e = getGolfTerm (score e) (par e).
Proof.
  exact (ScoreFacts.score_system_invariant Listening.idle played
           idle_quiet played_with_idle_listeners).
Defined.

(** The own event names of a reachable score system are no inherited
    names: [on] stores nothing under those. *)
Lemma own_names_not_inherited (s : t) :
  reachable s ->
  forall event, own (_listeners s) event <> None -> inherited event = false.
Proof.
  induction 1 as [| s event fn s' _ IH Hon | s s' calls _ IH Hadd
                  | s p s' calls e _ IH Hsc | s s' calls _ IH Hre | s _ IH];
    intros ev Hev.
  - now destruct Hev.
  - apply ScoreFacts.on_inv in Hon as (_ & _ & _ & Hl & Hfresh).
    rewrite Hl in Hev.
    destruct (String.eqb_spec ev event) as [-> | Hne].
    + destruct (own (_listeners s) event) eqn:E.
      * apply IH. congruence.
      * now apply Hfresh.
    + rewrite own_assign_other in Hev by assumption. now apply IH.
  - rewrite ScoreFacts.addStroke_spec in Hadd. injection Hadd as <- _.
    now apply IH.
  - rewrite ScoreFacts.scoreHole_spec in Hsc. injection Hsc as <- _ _.
    now apply IH.
  - rewrite ScoreFacts.reset_spec in Hre. injection Hre as <- _.
    now apply IH.
  - now apply IH.
Qed.

(** X13.  Registering listeners with [on].  On a score system a program
    can hold, [on(event, fn)] throws exactly if [event] is a name plain
    objects inherit ([constructor], [toString], [__proto__], ...);
    otherwise [fn] comes last among the listeners of [event], the
    listeners of every other event are as before, and the holes and the
    counters are untouched. *)
Theorem on_registers_last (s : t) (event : string) (fn : Listener) :
  reachable s ->
  (inherited event = true -> on s event fn = TypeError) /\
  (inherited event = false ->
   exists s',
     on s event fn = Ok s' /\
     registered s' event = registered s event ++ [fn] /\
     (forall other, other <> event ->
        registered s' other = registered s other) /\
     holes s' = holes s /\ currentHole s' = currentHole s /\
     currentStrokes s' = currentStrokes s).
Proof.
  intros Hreach. split.
  - intros Hin. unfold on.
    destruct (own (_listeners s) event) eqn:E; [| now rewrite Hin].
    assert (inherited event = false)
      by (apply (own_names_not_inherited s Hreach); congruence).
    congruence.
  - intros Hin.
    assert (Hon : exists s', on s event fn = Ok s').
    { unfold on. destruct (own (_listeners s) event); [eauto |].
      rewrite Hin. eauto. }
    destruct Hon as [s' Hon]. exists s'. split; [exact Hon |].
    apply ScoreFacts.on_inv in Hon as (Hh & Hc & Hs & Hl & _).
    split.
    { unfold registered at 1. now rewrite Hl, own_assign_same. }
    split; [| tauto].
    intros other Hne. unfold registered.
    now rewrite Hl, own_assign_other.
Qed.

Lemma on_registers_last_witness :
  on played "toString" 9%nat = TypeError /\
  exists s',
    on played "hole-scored" 9%nat = Ok s' /\
    registered s' "hole-scored" = registered played "hole-scored" ++ [9%nat].
Proof.
  destruct (on_registers_last played "toString" 9%nat played_reachable)
    as [Hthrow _].
  destruct (on_registers_last played "hole-scored" 9%nat played_reachable)
    as [_ Hok].
  split; [apply Hthrow; reflexivity |].
  destruct (Hok eq_refl) as (s' & Hon & Hreg & _).
  exists s'. split; assumption.
Defined.






Lemma fold_diffs (l : list Entry) (a b : Z) :
  (forall e, In e l -> diff e = (score e - par e)%Z) ->
  (fold_left (fun sum h => sum + score h) l a
   - fold_left (fun sum h => sum + par h) l b
   = fold_left (fun sum h => sum + diff h) l (a - b))%Z.
Proof.
  revert a b. induction l as [| e l IH]; intros a b Hall; simpl.
  - reflexivity.
  - rewrite IH by (intros e' He'; apply Hall; now right).
    f_equal. rewrite (Hall e) by now left. lia.
Qed.

(** X15.  The totals agree with the entries: on every score system a
    program can hold, [totalDiff], computed as [totalScore - totalPar], is
    the sum of the [diff] fields of the holes, and [totalScore] is not
    negative. *)
Theorem totals_agree_with_entries (s : t) :
  reachable s ->
  totalDiff s = sum_of_diffs s /\ (0 <= totalScore s)%Z.
Proof.
  intros Hreach.
  destruct (ScoreFacts.reachable_consistent s Hreach) as (_ & _ & Hh).
  split.
  - unfold totalDiff, totalScore, totalPar, sum_of_diffs.
    rewrite fold_diffs; [reflexivity |].
    intros e He. apply In_nth_error in He as [i Hi].
    now destruct (Hh i e Hi) as (_ & _ & Hd & _).
  - unfold totalScore.
    assert (Hall : forall e, In e (holes s) -> (0 <= score e)%Z).
    { intros e He. apply In_nth_error in He as [i Hi].
      now destruct (Hh i e Hi) as (_ & Hs & _). }
    assert (Hacc : forall l a, (0 <= a)%Z ->
              (forall e, In e l -> (0 <= score e)%Z) ->
              (0 <= fold_left (fun sum h => sum + score h) l a)%Z).
    { induction l as [| e l IH]; intros a Ha Hl; simpl; [assumption |].
      apply IH.
      - specialize (Hl e (or_introl eq_refl)). lia.
      - intros e' He'. apply Hl. now right. }
    apply Hacc; [lia | assumption].
Qed.

Lemma totals_agree_with_entries_witness :
  totalDiff played = sum_of_diffs played /\ (0 <= totalScore played)%Z.
Proof. exact (totals_agree_with_entries played played_reachable). Defined.

(** X16.  The scorecard colours follow the score: on every score system a
    program can hold the scorecard has one row per hole, in order, each
    with the hole's entry; the row is green ([#00edaf]) exactly if the
    hole was played under par, red ([#ff4466]) exactly if over par, and
    white otherwise. *)
Theorem scorecard_colours_follow_score (s : t) :
  reachable s ->
  List.length (scorecard s) = List.length (holes s) /\
  forall i row, nth_error (scorecard s) i = Some row ->
    nth_error (holes s) i = Some (entry row) /\
    (color row = "#00edaf"%string <-> (score (entry row) < par (entry row))%Z) /\
    (color row = "#ff4466"%string <-> (score (entry row) > par (entry row))%Z) /\
    (color row = "#ffffff"%string <-> score (entry row) = par (entry row)).
Proof.
  intros Hreach.
  destruct (ScoreFacts.reachable_consistent s Hreach) as (_ & _ & Hh).
  unfold scorecard. split; [apply length_map |].
  intros i row Hi. rewrite nth_error_map in Hi.
  destruct (nth_error (holes s) i) as [e |] eqn:He; [| discriminate].
  injection Hi as <-. simpl.
  destruct (Hh i e He) as (_ & _ & Hd & _).
  split; [reflexivity |]. rewrite Hd.
  destruct (Z.ltb_spec (score e - par e) 0);
    [| destruct (Z.gtb_spec (score e - par e) 0)];
    repeat split; intros; try discriminate; try reflexivity; lia.
Qed.

Lemma scorecard_colours_follow_score_witness :
  exists row,
    nth_error (scorecard played) 0 = Some row /\
    color row = "#00edaf"%string.
Proof.
  destruct (scorecard_colours_follow_score played played_reachable)
    as [_ Hrows].
  eexists. split; [reflexivity |].
  apply (Hrows 0%nat); [reflexivity | simpl; lia].
Defined.

End ScoreOrder.

From Stdlib Require Import Ascii.

Module ScoreTerms.
Import ScoreSystem.

Lemma to_int_not_nil (n : Z) :
  Z.to_int n <> Decimal.Pos Decimal.Nil /\
  Z.to_int n <> Decimal.Neg Decimal.Nil.
Proof.
  destruct n as [| p | p]; simpl; split; try discriminate;
    intros H; injection H as H;
    now apply (DecimalPos.Unsigned.to_uint_nonnil p).
Qed.

(** Different integers have different numerals. *)
Lemma String_of_inj (a b : Z) : String_of a = String_of b -> a = b.
Proof.
  unfold String_of. intros H.
  apply (f_equal DecimalString.NilZero.int_of_string) in H.
  destruct (to_int_not_nil a) as [Ha Ha'].
  destruct (to_int_not_nil b) as [Hb Hb'].
  rewrite !DecimalString.NilZero.isi in H by assumption.
  injection H as H. apply (f_equal Z.of_int) in H.
  now rewrite !DecimalZ.of_to in H.
Qed.

(** Outside [-3 .. 3] the table of golf terms has no entry. *)
Lemma no_golf_term (d : Z) :
  (d < -3 \/ 3 < d)%Z -> own GOLF_TERMS (String_of d) = None.
Proof.
  intros Hd. unfold GOLF_TERMS, own.
  repeat match goal with
  | |- context [String.eqb ?k (String_of d)] =>
      destruct (String.eqb_spec k (String_of d)) as [E | _];
      [ exfalso;
        first [ apply (String_of_inj (-3)) in E
              | apply (String_of_inj (-2)) in E
              | apply (String_of_inj (-1)) in E
              | apply (String_of_inj 0) in E
              | apply (String_of_inj 1) in E
              | apply (String_of_inj 2) in E
              | apply (String_of_inj 3) in E ]; lia | ]
  end.
  reflexivity.
Qed.

Lemma small_diff (d : Z) :
  (-3 <= d <= 3)%Z ->
  (d = -3 \/ d = -2 \/ d = -1 \/ d = 0 \/ d = 1 \/ d = 2 \/ d = 3)%Z.
Proof. lia. Qed.

(** The term as a function of the difference to par. *)
Definition term_of (d : Z) : string :=
  match own GOLF_TERMS (String_of d) with
  | Some term => term
  | None => if (d >? 0)%Z then ("+" ++ String_of d)%string else String_of d
  end.

Lemma term_of_inj (d d' : Z) : term_of d = term_of d' -> d = d'.
Proof.
  intros H.
  assert (Hout : forall n, (n < -3 \/ 3 < n)%Z ->
            (3 < n /\ term_of n = String "+"%char (String_of n))%Z \/
            (n < -3 /\ exists rest, term_of n = String "-"%char rest /\
                                    String_of n = term_of n)%Z).
  { intros n Hn. unfold term_of. rewrite (no_golf_term n Hn).
    destruct Hn as [Hn | Hn].
    - right. split; [assumption |].
      destruct (Z.gtb_spec n 0); [lia |].
      destruct n as [| q | q]; try lia.
      eexists. split; reflexivity.
    - left. split; [assumption |].
      destruct (Z.gtb_spec n 0); [reflexivity | lia]. }
  destruct (Z_le_gt_dec (-3) d) as [Hlo | Hlo];
    [destruct (Z_le_gt_dec d 3) as [Hhi | Hhi] |];
    (destruct (Z_le_gt_dec (-3) d') as [Hlo' | Hlo'];
      [destruct (Z_le_gt_dec d' 3) as [Hhi' | Hhi'] |]).
  - (* both named *)
    destruct (small_diff d (conj Hlo Hhi))
      as [-> | [-> | [-> | [-> | [-> | [-> | ->]]]]]];
      destruct (small_diff d' (conj Hlo' Hhi'))
        as [-> | [-> | [-> | [-> | [-> | [-> | ->]]]]]];
      reflexivity || (vm_compute in H; discriminate H).
  - destruct (Hout d') as [[_ E] | [? _]]; [lia | | lia].
    rewrite E in H.
    destruct (small_diff d (conj Hlo Hhi))
      as [-> | [-> | [-> | [-> | [-> | [-> | ->]]]]]];
      discriminate H.
  - destruct (Hout d') as [[? _] | [_ (rest & E & _)]]; [lia | lia |].
    rewrite E in H.
    destruct (small_diff d (conj Hlo Hhi))
      as [-> | [-> | [-> | [-> | [-> | [-> | ->]]]]]];
      discriminate H.
  - destruct (Hout d) as [[_ E] | [? _]]; [lia | | lia].
    rewrite E in H.
    destruct (small_diff d' (conj Hlo' Hhi'))
      as [-> | [-> | [-> | [-> | [-> | [-> | ->]]]]]];
      discriminate H.
  - destruct (Hout d) as [[_ E] | [? _]]; [lia | | lia].
    destruct (Hout d') as [[_ E'] | [? _]]; [lia | | lia].
    rewrite E, E' in H. injection H as H. now apply String_of_inj.
  - destruct (Hout d) as [[_ E] | [? _]]; [lia | | lia].
    destruct (Hout d') as [[? _] | [_ (rest & E' & _)]]; [lia | lia |].
    rewrite E, E' in H. discriminate H.
  - destruct (Hout d) as [[? _] | [_ (rest & E & _)]]; [lia | lia |].
    rewrite E in H.
    destruct (small_diff d' (conj Hlo' Hhi'))
      as [-> | [-> | [-> | [-> | [-> | [-> | ->]]]]]];
      discriminate H.
  - destruct (Hout d) as [[? _] | [_ (rest & E & _)]]; [lia | lia |].
    destruct (Hout d') as [[_ E'] | [? _]]; [lia | | lia].
    rewrite E, E' in H. discriminate H.
  - destruct (Hout d) as [[? _] | [_ (rest & _ & E)]]; [lia | lia |].
    destruct (Hout d') as [[? _] | [_ (rest' & _ & E')]]; [lia | lia |].
    rewrite <- E, <- E' in H. now apply String_of_inj.
Qed.

(** X17.  The golf term tells the difference to par: two results have the
    same term exactly if they are as many strokes over or under par.  So
    a named term (Albatross ... Triple Bogey) and a signed numeral
    ([+4], [-5]) never stand for the same difference, and no two
    differences share a term. *)
Theorem golf_term_tells_the_difference (score par score' par' : Z) :
  getGolfTerm score par = getGolfTerm score' par' <->
  (score - par = score' - par')%Z.
Proof.
  split.
  - intros H. now apply term_of_inj.
  - intros H. unfold getGolfTerm. now rewrite H.
Qed.

Lemma flat_map_seq_shift {A : Type} (g : nat -> list A) (n : nat) :
  forall a, flat_map g (seq (S a) n) = flat_map (fun k => g (S k)) (seq a n).
Proof.
  induction n as [| n IH]; intros a; simpl; [reflexivity |].
  now rewrite IH.
Qed.

Lemma flat_map_pointwise {A B : Type} (g h : A -> list B) (l : list A) :
  (forall a, g a = h a) -> flat_map g l = flat_map h l.
Proof.
  intros Hgh. induction l as [| a l IH]; simpl; [reflexivity |].
  now rewrite Hgh, IH.
Qed.

(** With quiet listeners, [n] strokes add [n] to the stroke counter and
    make the calls of [stroke_rounds]. *)
Lemma strokes_spec (call : Listener -> Payload -> t -> outcome t) :
  Listening.quiet call ->
  forall (n : nat) (s : t),
    Listening.strokes call n s =
      Ok (mk (holes s) (currentHole s)
             (currentStrokes s + Z.of_nat n) (_listeners s),
          Listening.stroke_rounds s n).
Proof.
  intros Hq. induction n as [| n IH]; intros s.
  - simpl. destruct s. simpl. now rewrite Z.add_0_r.
  - cbn [Listening.strokes].
    destruct (ScoreFacts.quiet_methods call Hq s) as (-> & _ & _).
    rewrite ScoreFacts.addStroke_spec. cbn [bind fst snd].
    rewrite IH. cbn [bind fst snd holes currentHole currentStrokes _listeners].
    f_equal. f_equal.
    + f_equal. lia.
    + unfold Listening.stroke_rounds, registered.
      cbn [holes currentHole currentStrokes _listeners].
      change (seq 1 (S n)) with (1%nat :: seq 2 n).
      cbn [flat_map]. f_equal.
      rewrite (flat_map_seq_shift _ n 1). apply flat_map_pointwise.
      intros k. apply map_ext. intros fn. do 2 f_equal. lia.
Qed.

(** In [n] rounds over the same listeners, each listener is called [n]
    times for each time it is registered. *)
Lemma rounds_count (fns : list Listener) (d : nat -> Payload)
    (fn : Listener) (l : list nat) :
  count_occ Nat.eq_dec
    (map fst (flat_map (fun k => map (fun f => (f, d k)) fns) l)) fn
  = (List.length l * count_occ Nat.eq_dec fns fn)%nat.
Proof.
  induction l as [| k l IH]; [reflexivity |].
  change (flat_map (fun k => map (fun f => (f, d k)) fns) (k :: l))
    with (map (fun f => (f, d k)) fns
          ++ flat_map (fun k => map (fun f => (f, d k)) fns) l).
  rewrite map_app, count_occ_app. cbn [List.length Nat.mul].
  f_equal; [| exact IH].
  rewrite map_map. cbn [fst]. now rewrite map_id.
Qed.

(** X18.  Strokes add up into the entry.  With listeners that return and
    leave the score system alone, [n] calls of [addStroke] followed by
    [scoreHole(par)] return an entry whose score is the stroke counter
    before plus [n], for the hole after the current one; the entry is
    appended to the holes, the hole counter moves on by one and the
    stroke counter starts again at zero.  Stroke [k] calls each listener
    of ['stroke'] once, in registration order, with the count so far: in
    all, each of them is called [n] times for each time it is
    registered; [scoreHole] then calls the listeners of ['hole-scored']
    with the entry. *)
Theorem strokes_add_up (call : Listener -> Payload -> t -> outcome t)
    (s : t) (n : nat) (p : Z) :
  Listening.quiet call ->
  exists s1 s2 e,
    Listening.strokes call n s = Ok (s1, Listening.stroke_rounds s n) /\
    Listening.scoreHole call s1 p =
      Ok (s2, map (fun fn => (fn, HoleScored e))
                  (registered s "hole-scored"), e) /\
    score e = (currentStrokes s + Z.of_nat n)%Z /\
    par e = p /\
    diff e = (currentStrokes s + Z.of_nat n - p)%Z /\
    hole e = (currentHole s + 1)%Z /\
    holes s2 = holes s ++ [e] /\
    currentHole s2 = (currentHole s + 1)%Z /\
    currentStrokes s2 = 0%Z /\
    forall fn,
      count_occ Nat.eq_dec (map fst (Listening.stroke_rounds s n)) fn
      = (n * count_occ Nat.eq_dec (registered s "stroke") fn)%nat.
Proof.
  intros Hq.
  exists (mk (holes s) (currentHole s) (currentStrokes s + Z.of_nat n)
             (_listeners s)).
  do 2 eexists.
  split; [exact (strokes_spec call Hq n s) |].
  split.
  { destruct (ScoreFacts.quiet_methods call Hq
                (mk (holes s) (currentHole s)
                    (currentStrokes s + Z.of_nat n) (_listeners s)))
      as (_ & -> & _).
    rewrite ScoreFacts.scoreHole_spec. reflexivity. }
  simpl. repeat split.
  intros fn. unfold Listening.stroke_rounds.
  rewrite rounds_count with
    (d := fun k => StrokeData (currentHole s + 1)
                     (currentStrokes s + Z.of_nat k)).
  now rewrite length_seq.
Qed.

Lemma strokes_add_up_witness :
  exists s1 s2 e,
    Listening.strokes Listening.idle 2 played
      = Ok (s1, Listening.stroke_rounds played 2) /\
    Listening.scoreHole Listening.idle s1 4 =
      Ok (s2, map (fun fn => (fn, HoleScored e))
                  (registered played "hole-scored"), e) /\
    score e = 2%Z /\ hole e = 2%Z /\ holes s2 = holes played ++ [e].
Proof.
  destruct (strokes_add_up Listening.idle played 2 4)
    as (s1 & s2 & e & Hrun & Hsc & Hscore & _ & _ & Hhole & Hholes & _).
  - intros fn data s. reflexivity.
  - exists s1, s2, e. repeat split; assumption.
Defined.

End ScoreTerms.

(* ------------------------------------------------------------------ *)
(** ** The caddy: facts *)

Module CaddyFacts.
Import Caddy.

Lemma pickRandom_In {A : Type} (r : Q) (arr : list A) :
  0 <= r -> r < 1 -> arr <> [] ->
  exists a, pickRandom r arr = Some a /\ In a arr.
Proof.
  intros Hr0 Hr1 Hne. unfold pickRandom.
  set (n := Z.of_nat (List.length arr)).
  assert (Hn : (0 < n)%Z).
  { subst n. destruct arr; [congruence | simpl; lia]. }
  assert (HnQ : 0 < inject_Z n).
  { change 0 with (inject_Z 0). now rewrite <- Zlt_Qlt. }
  assert (Hlo : (0 <= Qfloor (r * inject_Z n))%Z).
  { rewrite <- (Qfloor_Z 0). apply Qfloor_resp_le.
    apply Qmult_le_0_compat; [assumption | now apply Qlt_le_weak]. }
  assert (Hhi : (Qfloor (r * inject_Z n) < n)%Z).
  { rewrite Zlt_Qlt.
    apply Qle_lt_trans with (r * inject_Z n); [apply Qfloor_le |].
    rewrite <- (Qmult_1_l (inject_Z n)) at 2.
    now apply Qmult_lt_compat_r. }
  destruct (js_index_in_range arr (Qfloor (r * inject_Z n))) as [a Ha];
    [subst n; lia |].
  exists a. split; [exact Ha |].
  apply js_index_to_nat in Ha. eapply nth_error_In; eassumption.
Qed.

(** X19.  For a random number of [0, 1), [pickRandom] returns an element
    of a non-empty array, never reading outside it; on an empty array it
    returns [undefined]. *)
Theorem pickRandom_picks_an_element {A : Type} (r : Q) (arr : list A) :
  0 <= r -> r < 1 ->
  match arr with
  | [] => pickRandom r arr = None
  | _ :: _ => exists a, pickRandom r arr = Some a /\ In a arr
  end.
Proof.
  intros Hr0 Hr1. destruct arr as [| a0 rest].
  - unfold pickRandom, js_index. simpl.
    destruct (_ <? _)%Z; [reflexivity |].
    now destruct (Z.to_nat _).
  - apply pickRandom_In; [assumption | assumption | discriminate].
Qed.

Lemma pickRandom_picks_an_element_witness :
  exists a, pickRandom (2 # 3) SHOT_TIPS_close = Some a /\
            In a SHOT_TIPS_close.
Proof.
  apply (pickRandom_picks_an_element (2 # 3) SHOT_TIPS_close);
    [discriminate | reflexivity].
Defined.

(** A signed numeral is no key of the reactions and no inherited name. *)
Lemma signed_term_has_no_reaction (c : ascii) (rest : string) :
  c = "+"%char \/ c = "-"%char ->
  own SCORE_REACTIONS (String c rest) = None /\
  inherited (String c rest) = false.
Proof. intros [-> | ->]; split; reflexivity. Qed.

(** X20.  The reaction to a scored hole.  For a random number of [0, 1)
    and the term of any score and par, [getScoreReaction] returns one of
    the two reactions of a row of the table, never [undefined] and never
    a hole-in-one reaction: the row of the term itself from Eagle to
    Triple Bogey (2 under to 3 over), and the row of Par for an Albatross
    and for every signed numeral, which have no row of their own. *)
Theorem scored_hole_reaction (score par : Z) (r : Q) :
  0 <= r -> r < 1 ->
  exists name reactions text,
    getScoreReaction (ScoreSystem.getGolfTerm score par) r = Some text /\
    In text reactions /\
    own SCORE_REACTIONS name = Some reactions /\
    name <> "Hole in One"%string /\
    ((-2 <= score - par <= 3)%Z ->
     name = ScoreSystem.getGolfTerm score par) /\
    ((score - par < -2 \/ 3 < score - par)%Z -> name = "Par"%string).
Proof.
  intros Hr0 Hr1.
  assert (Hrow : forall name reactions term,
            own SCORE_REACTIONS name = Some reactions ->
            reactions <> [] ->
            name <> "Hole in One"%string ->
            getScoreReaction term r = pickRandom r reactions ->
            exists text,
              getScoreReaction term r = Some text /\
              In text reactions /\
              own SCORE_REACTIONS name = Some reactions /\
              name <> "Hole in One"%string).
  { intros name reactions term Hown Hne Hname ->.
    destruct (pickRandom_In r reactions Hr0 Hr1 Hne) as (text & Ht & Hin).
    exists text. tauto. }
  assert (Hpar : forall term,
            own SCORE_REACTIONS term = None -> inherited term = false ->
            exists reactions text,
              getScoreReaction term r = Some text /\
              In text reactions /\
              own SCORE_REACTIONS "Par" = Some reactions /\
              "Par"%string <> "Hole in One"%string).
  { intros term Ho Hi. eexists.
    apply (Hrow "Par"%string); [reflexivity | discriminate | discriminate |].
    unfold getScoreReaction. now rewrite Ho, Hi. }
  unfold ScoreSystem.getGolfTerm.
  set (d := (score - par)%Z).
  destruct (Z_le_gt_dec (-3) d) as [Hlo | Hlo];
    [destruct (Z_le_gt_dec d 3) as [Hhi | Hhi] |].
  - destruct (ScoreTerms.small_diff d (conj Hlo Hhi))
      as [E | [E | [E | [E | [E | [E | E]]]]]]; rewrite E.
    + destruct (Hpar "Albatross"%string) as (rs & text & H1 & H2 & H3 & H4);
        [reflexivity | reflexivity |].
      exists "Par"%string, rs, text.
      repeat split; try assumption; intros; (reflexivity || lia).
    + exists "Eagle"%string. eexists.
      destruct (Hrow "Eagle"%string _ "Eagle"%string eq_refl)
        as (text & H1 & H2 & H3 & H4);
        [discriminate | discriminate | reflexivity |].
      exists text.
      repeat split; try assumption; intros; (reflexivity || lia).
    + exists "Birdie"%string. eexists.
      destruct (Hrow "Birdie"%string _ "Birdie"%string eq_refl)
        as (text & H1 & H2 & H3 & H4);
        [discriminate | discriminate | reflexivity |].
      exists text.
      repeat split; try assumption; intros; (reflexivity || lia).
    + exists "Par"%string. eexists.
      destruct (Hrow "Par"%string _ "Par"%string eq_refl)
        as (text & H1 & H2 & H3 & H4);
        [discriminate | discriminate | reflexivity |].
      exists text.
      repeat split; try assumption; intros; (reflexivity || lia).
    + exists "Bogey"%string. eexists.
      destruct (Hrow "Bogey"%string _ "Bogey"%string eq_refl)
        as (text & H1 & H2 & H3 & H4);
        [discriminate | discriminate | reflexivity |].
      exists text.
      repeat split; try assumption; intros; (reflexivity || lia).
    + exists "Double Bogey"%string. eexists.
      destruct (Hrow "Double Bogey"%string _ "Double Bogey"%string eq_refl)
        as (text & H1 & H2 & H3 & H4);
        [discriminate | discriminate | reflexivity |].
      exists text.
      repeat split; try assumption; intros; (reflexivity || lia).
    + exists "Triple Bogey"%string. eexists.
      destruct (Hrow "Triple Bogey"%string _ "Triple Bogey"%string eq_refl)
        as (text & H1 & H2 & H3 & H4);
        [discriminate | discriminate | reflexivity |].
      exists text.
      repeat split; try assumption; intros; (reflexivity || lia).
  - rewrite (ScoreTerms.no_golf_term d) by lia.
    destruct (Z.gtb_spec d 0); [| lia].
    destruct (signed_term_has_no_reaction "+" (String_of d)) as [Ho Hi];
      [now left |].
    destruct (Hpar ("+" ++ String_of d)%string Ho Hi)
      as (rs & text & H1 & H2 & H3 & H4).
    exists "Par"%string, rs, text.
    repeat split; try assumption; intros; (reflexivity || lia).
  - rewrite (ScoreTerms.no_golf_term d) by lia.
    destruct (Z.gtb_spec d 0); [lia |].
    destruct d as [| q | q]; try lia.
    destruct (signed_term_has_no_reaction "-"
                (DecimalString.NilZero.string_of_uint (Pos.to_uint q)))
      as [Ho Hi]; [now right |].
    destruct (Hpar (String_of (Z.neg q)) Ho Hi)
      as (rs & text & H1 & H2 & H3 & H4).
    exists "Par"%string, rs, text.
    repeat split; try assumption; intros; (reflexivity || lia).
Qed.

Lemma scored_hole_reaction_witness :
  exists text,
    getScoreReaction (ScoreSystem.getGolfTerm 1 4) (1 # 2) = Some text /\
    In text [ "Par — steady and reliable. ⛳";
              "Right on par. Consistent! ⛳" ]%string.
Proof.
  destruct (scored_hole_reaction 1 4 (1 # 2))
    as (name & reactions & text & Hget & Hin & Hown & _ & _ & Hpar);
    [discriminate | reflexivity |].
  rewrite (Hpar ltac:(lia)) in Hown. injection Hown as <-.
  exists text. split; assumption.
Defined.

Section ShotFacts.

Variable sqrt : Q -> Q.

(** X21.  [analyzeShotSetup] always answers with a tip: for a random
    number of [0, 1) it returns one of the three tips of a category,
    never [undefined].  The category is [close] whenever the hole is
    nearer than 0.8, whatever the walls; past that it is [blocked]
    exactly if a wall covers a sample of the straight path, and otherwise
    [far] beyond 5 and [straight] up to 5. *)
Theorem shot_tip_by_category (ballPos holePos : Vector3)
    (walls : list Wall) (r : Q) :
  0 <= r -> r < 1 ->
  let dx := x holePos - x ballPos in
  let dz := z holePos - z ballPos in
  let dist := sqrt (dx * dx + dz * dz) in
  exists tip,
    analyzeShotSetup sqrt ballPos holePos walls r = Some tip /\
    (dist < 4 # 5 -> In tip SHOT_TIPS_close) /\
    (4 # 5 <= dist -> path_blocked ballPos holePos walls = true ->
     In tip SHOT_TIPS_blocked) /\
    (4 # 5 <= dist -> path_blocked ballPos holePos walls = false ->
     (5 < dist -> In tip SHOT_TIPS_far) /\
     (dist <= 5 -> In tip SHOT_TIPS_straight)).
Proof.
  intros Hr0 Hr1 dx dz dist. unfold analyzeShotSetup.
  fold dx dz dist.
  destruct (Qlt_bool dist (4 # 5)) eqn:Hclose.
  - apply Qlt_bool_iff in Hclose.
    destruct (pickRandom_In r SHOT_TIPS_close Hr0 Hr1) as (tip & Ht & Hin);
      [discriminate |].
    exists tip. split; [exact Ht |]. split; [intros _; exact Hin |].
    split; [intros; lra | intros; lra].
  - assert (Hge : 4 # 5 <= dist).
    { apply Qnot_lt_le. intro Hlt. apply Qlt_bool_iff in Hlt. congruence. }
    destruct (path_blocked ballPos holePos walls) eqn:Hb.
    + destruct (pickRandom_In r SHOT_TIPS_blocked Hr0 Hr1)
        as (tip & Ht & Hin); [discriminate |].
      exists tip. split; [exact Ht |]. split; [intros; lra |].
      split; [intros; exact Hin | intros; discriminate].
    + destruct (Qlt_bool 5 dist) eqn:Hfar.
      * apply Qlt_bool_iff in Hfar.
        destruct (pickRandom_In r SHOT_TIPS_far Hr0 Hr1)
          as (tip & Ht & Hin); [discriminate |].
        exists tip. split; [exact Ht |]. split; [intros; lra |].
        split; [intros; discriminate |].
        intros _ _. split; [intros; exact Hin | intros; lra].
      * assert (Hle : dist <= 5).
        { apply Qnot_lt_le. intro Hlt. apply Qlt_bool_iff in Hlt.
          congruence. }
        destruct (pickRandom_In r SHOT_TIPS_straight Hr0 Hr1)
          as (tip & Ht & Hin); [discriminate |].
        exists tip. split; [exact Ht |]. split; [intros; lra |].
        split; [intros; discriminate |].
        intros _ _. split; [intros; lra | intros; exact Hin].
Qed.

Lemma existsb_pointwise {A : Type} (f g : A -> bool) (l : list A) :
  (forall a, f a = g a) -> existsb f l = existsb g l.
Proof.
  intros Hfg. induction l as [| a l IH]; [reflexivity |].
  simpl. now rewrite Hfg, IH.
Qed.

Lemma existsb_filter_covers (walls : list Wall) (px pz : Q) :
  existsb (fun w => wall_covers w px pz)
    (filter (fun w => Qlt_bool (3 # 10) (x (size w))
                      || Qlt_bool (3 # 10) (z (size w))) walls)
  = existsb (fun w => wall_covers w px pz) walls.
Proof.
  induction walls as [| w walls IH]; [reflexivity |]. simpl.
  destruct (Qlt_bool (3 # 10) (x (size w)) || Qlt_bool (3 # 10) (z (size w)))
    eqn:Hwide.
  - simpl. now rewrite IH.
  - rewrite IH. unfold wall_covers at 2. now rewrite Hwide.
Qed.

(** X22.  Walls at most 0.3 wide in both [x] and [z] are not looked at:
    the answer of [analyzeShotSetup] is the same with these walls
    removed; and where every wall is that thin, or there is none, the path
    is never found blocked. *)
Theorem thin_walls_are_skipped (ballPos holePos : Vector3)
    (walls : list Wall) (r : Q) :
  let wide := fun w => Qlt_bool (3 # 10) (x (size w))
                       || Qlt_bool (3 # 10) (z (size w)) in
  analyzeShotSetup sqrt ballPos holePos walls r
    = analyzeShotSetup sqrt ballPos holePos (filter wide walls) r /\
  (forallb (fun w => negb (wide w)) walls = true ->
   path_blocked ballPos holePos walls = false).
Proof.
  intros wide.
  assert (Hpath : path_blocked ballPos holePos (filter wide walls)
                  = path_blocked ballPos holePos walls).
  { unfold path_blocked. apply existsb_pointwise. intros i.
    apply existsb_filter_covers. }
  split.
  - unfold analyzeShotSetup. now rewrite Hpath.
  - intros Hthin. rewrite <- Hpath.
    replace (filter wide walls) with (@nil Wall).
    + unfold path_blocked. simpl.
      now induction (seq 1 19).
    + clear Hpath. induction walls as [| w walls IH]; [reflexivity |].
      simpl in *. apply andb_prop in Hthin as [Hw Hrest].
      apply negb_true_iff in Hw. rewrite Hw. now apply IH.
Qed.

End ShotFacts.

Lemma shot_tip_by_category_witness :
  exists tip,
    analyzeShotSetup Qsqrt (mkVector3 (-3) (3 # 20) 0)
      (mkVector3 3 (1 # 100) 0) [] (1 # 2) = Some tip /\
    In tip SHOT_TIPS_far.
Proof.
  destruct (shot_tip_by_category Qsqrt (mkVector3 (-3) (3 # 20) 0)
              (mkVector3 3 (1 # 100) 0) [] (1 # 2))
    as (tip & Ht & _ & _ & Hopen); [discriminate | reflexivity |].
  exists tip. split; [exact Ht |].
  apply Hopen; [vm_compute; discriminate | reflexivity
                | vm_compute; reflexivity].
Defined.

End CaddyFacts.

(* ------------------------------------------------------------------ *)
(** ** Ball physics: facts *)

Module GameFacts.
Import Game.

Lemma damped (a k : Q) :
  Qabs.Qabs k <= 1 -> Qabs.Qabs (a * k) <= Qabs.Qabs a.
Proof.
  intros Hk. rewrite Qabs.Qabs_Qmult.
  rewrite <- (Qmult_1_r (Qabs.Qabs a)) at 2.
  rewrite (Qmult_comm (Qabs.Qabs a) (Qabs.Qabs k)), (Qmult_comm (Qabs.Qabs a) 1).
  apply Qmult_le_compat_r; [assumption | apply Qabs.Qabs_nonneg].
Qed.

Section Facts.

Variable sqrt : Q -> Q.

Lemma collide_no_faster (st : Physics) (w : Caddy.Wall) :
  no_faster (ballVelocity (collide sqrt st w)) (ballVelocity st) /\
  ballMoving (collide sqrt st w) = ballMoving st /\
  ball_rotation (collide sqrt st w) = ball_rotation st /\
  y (ball_position (collide sqrt st w)) = y (ball_position st).
Proof.
  unfold collide.
  destruct (Qlt_bool _ (12 # 100)); [destruct (Qlt_bool _ _) |];
    cbn [ballVelocity ballMoving ball_rotation ball_position x y z];
    unfold no_faster;
    cbn [ballVelocity ballMoving ball_rotation ball_position x y z];
    repeat split; try apply Qle_refl;
    apply damped; vm_compute; discriminate.
Qed.

Lemma collisions_no_faster (ws : list Caddy.Wall) :
  forall st : Physics,
    no_faster (ballVelocity (fold_left (collide sqrt) ws st))
              (ballVelocity st) /\
    ballMoving (fold_left (collide sqrt) ws st) = ballMoving st /\
    ball_rotation (fold_left (collide sqrt) ws st) = ball_rotation st /\
    y (ball_position (fold_left (collide sqrt) ws st))
      = y (ball_position st).
Proof.
  induction ws as [| w ws IH]; intros st; simpl.
  - unfold no_faster. repeat split; apply Qle_refl.
  - destruct (IH (collide sqrt st w)) as ((Hx & Hy & Hz) & Hm & Hr & Hp).
    destruct (collide_no_faster st w) as ((Hx' & Hy' & Hz') & Hm' & Hr' & Hp').
    unfold no_faster.
    repeat split; try congruence; eapply Qle_trans; eassumption.
Qed.

(** X23.  Friction and walls only ever slow the ball.  After any call of
    [updatePhysics] that returns, each component of the velocity is at
    most as large in magnitude as before, whatever the walls and the time
    step; a ball at rest is left exactly as it is, without a call of
    [checkHole]; and a ball that moved sits at height 0.12. *)
Theorem ball_never_speeds_up (currentHole : Z) (dt : Q)
    (st st' : Physics) (called : bool) :
  updatePhysics sqrt currentHole dt st = Ok (st', called) ->
  no_faster (ballVelocity st') (ballVelocity st) /\
  (ballMoving st = false -> st' = st /\ called = false) /\
  (ballMoving st' = true -> y (ball_position st') == 12 # 100).
Proof.
  unfold updatePhysics. intros H.
  destruct (ballMoving st) eqn:Hmove; simpl in H.
  2:{ injection H as <- <-. rewrite Hmove.
      split; [unfold no_faster; repeat split; apply Qle_refl |].
      split; [tauto | discriminate]. }
  destruct (Qlt_bool _ (1 # 100)).
  - injection H as <- <-.
    cbn [ballVelocity ballMoving ball_rotation ball_position x y z].
    split; [| split; [discriminate | discriminate]].
    unfold no_faster. cbn [x y z].
    repeat split; apply Qabs.Qabs_nonneg.
  - bind_inv H. injection H as <- <-.
    match goal with
    | |- context [fold_left _ _ ?st0] =>
        destruct (collisions_no_faster (walls a) st0)
          as ((Hx & Hy & Hz) & _ & _ & Hp)
    end.
    cbn [ballVelocity ballMoving ball_rotation ball_position x y z]
      in Hx, Hy, Hz, Hp.
    split; [| split; [discriminate | intros _; now rewrite Hp]].
    unfold no_faster.
    repeat split; (eapply Qle_trans; [eassumption |]);
      apply damped; vm_compute; discriminate.
Qed.

End Facts.

Lemma clamp_inside (lo hi b : Q) :
  lo <= b -> b <= hi -> Math_max lo (Math_min b hi) = b.
Proof.
  intros Hlo Hhi. unfold Math_max, Math_min.
  apply Qle_bool_iff in Hlo, Hhi. now rewrite Hhi, Hlo.
Qed.

Lemma Math_sign_zero (q : Q) : q == 0 -> Math_sign q == 0.
Proof.
  intros Hq. unfold Math_sign.
  destruct (Qlt_bool 0 q) eqn:E1.
  - apply Qlt_bool_iff in E1. lra.
  - destruct (Qlt_bool q 0) eqn:E2; [| exact Hq].
    apply Qlt_bool_iff in E2. lra.
Qed.

Lemma Qsqrt_zero (q : Q) : q == 0 -> Qsqrt q == 0.
Proof.
  unfold Qsqrt, Qeq. simpl. intros Hq.
  assert (Hn : Qnum q = 0%Z) by lia.
  rewrite Hn. reflexivity.
Qed.

Section Inside.

Variable sqrt : Q -> Q.
Hypothesis sqrt_zero : forall q : Q, q == 0 -> sqrt q == 0.

(** X24.  A wall does not push out a ball whose centre is within its
    footprint.  The nearest point of the wall is then the centre itself,
    so the distance is zero: the collision is taken on the z axis, the z
    velocity is reversed and damped by 0.7, and the ball stays where it
    is, still inside the wall. *)
Theorem ball_inside_wall_is_not_pushed_out (st : Physics) (w : Caddy.Wall) :
  inside st w ->
  x (ball_position (collide sqrt st w)) == x (ball_position st) /\
  z (ball_position (collide sqrt st w)) == z (ball_position st) /\
  x (ballVelocity (collide sqrt st w)) = x (ballVelocity st) /\
  z (ballVelocity (collide sqrt st w)) = z (ballVelocity st) * - (7 # 10) /\
  inside (collide sqrt st w) w.
Proof.
  intros (Hx1 & Hx2 & Hz1 & Hz2).
  assert (Hgoal :
    x (ball_position (collide sqrt st w)) == x (ball_position st) /\
    z (ball_position (collide sqrt st w)) == z (ball_position st) /\
    x (ballVelocity (collide sqrt st w)) = x (ballVelocity st) /\
    z (ballVelocity (collide sqrt st w)) = z (ballVelocity st) * - (7 # 10)).
  { unfold collide.
    rewrite (clamp_inside _ _ _ Hx1 Hx2), (clamp_inside _ _ _ Hz1 Hz2).
    set (bx := x (ball_position st)). set (bz := z (ball_position st)).
    assert (Hd : sqrt ((bx - bx) * (bx - bx) + (bz - bz) * (bz - bz)) == 0)
      by (apply sqrt_zero; ring).
    assert (Hlt : Qlt_bool
              (sqrt ((bx - bx) * (bx - bx) + (bz - bz) * (bz - bz)))
              (12 # 100) = true)
      by (apply Qlt_bool_iff; rewrite Hd; reflexivity).
    rewrite Hlt.
    assert (Habs : Qlt_bool (Math_abs (bz - bz)) (Math_abs (bx - bx)) = false).
    { destruct (Qlt_bool (Math_abs (bz - bz)) (Math_abs (bx - bx))) eqn:E;
        [| reflexivity].
      apply Qlt_bool_iff in E. unfold Math_abs in E.
      assert (H1 : bz - bz == 0) by ring. assert (H2 : bx - bx == 0) by ring.
      rewrite H1, H2 in E. discriminate E. }
    rewrite Habs.
    cbn [ballVelocity ball_position x y z].
    repeat split; try reflexivity.
    rewrite (Math_sign_zero (bz - bz)) by ring. ring. }
  destruct Hgoal as (Hpx & Hpz & Hvx & Hvz).
  repeat split; try assumption; unfold inside; try rewrite Hpx; try rewrite Hpz;
    assumption.
Qed.

End Inside.

Lemma ball_inside_wall_is_not_pushed_out_witness :
  inside (mkPhysics (mkVector3 1 (12 # 100) (5 # 100)) (mkVector3 0 0 0)
                    (mkVector3 2 0 1) true)
         (Caddy.mkWall (mkVector3 0 (3 # 20) 0)
                       (mkVector3 3 (3 # 10) (1 # 5))) /\
  z (ballVelocity
       (collide Qsqrt
          (mkPhysics (mkVector3 1 (12 # 100) (5 # 100)) (mkVector3 0 0 0)
                     (mkVector3 2 0 1) true)
          (Caddy.mkWall (mkVector3 0 (3 # 20) 0)
                        (mkVector3 3 (3 # 10) (1 # 5)))))
    = 1 * - (7 # 10).
Proof.
  assert (Hin :
    inside (mkPhysics (mkVector3 1 (12 # 100) (5 # 100)) (mkVector3 0 0 0)
                      (mkVector3 2 0 1) true)
           (Caddy.mkWall (mkVector3 0 (3 # 20) 0)
                         (mkVector3 3 (3 # 10) (1 # 5))))
    by (unfold inside; simpl; repeat split; discriminate).
  split; [exact Hin |].
  now destruct (ball_inside_wall_is_not_pushed_out Qsqrt Qsqrt_zero _ _ Hin)
    as (_ & _ & _ & Hvz & _).
Defined.

Lemma ball_never_speeds_up_witness :
  exists st' called,
    updatePhysics Qsqrt 0 (1 # 60)
      (mkPhysics (mkVector3 (-3) (3 # 20) 0) (mkVector3 0 0 0)
                 (mkVector3 2 0 1) true) = Ok (st', called) /\
    no_faster (ballVelocity st') (mkVector3 2 0 1).
Proof.
  destruct (updatePhysics Qsqrt 0 (1 # 60)
              (mkPhysics (mkVector3 (-3) (3 # 20) 0) (mkVector3 0 0 0)
                         (mkVector3 2 0 1) true))
    as [[st' called] | | |] eqn:Hup;
    try (vm_compute in Hup; discriminate).
  exists st', called. split; [reflexivity |].
  now destruct (ball_never_speeds_up Qsqrt 0 (1 # 60) _ st' called Hup).
Defined.

End GameFacts.
